(** * alibi.utils: numerical gradients and black-box wrappers

    A shallow embedding of [alibi/utils/gradients.py] and
    [alibi/utils/wrappers.py].

    - Python exceptions are an enumeration [exn]; a call either returns a value
      or raises ([result]).  Code that touches module-level state (the two
      registries, the attributes of function objects, numpy buffers) runs in a
      state-and-exception monad whose final state is kept when it raises,
      as a Python exception leaves earlier side effects in place.
    - numpy arrays are a shape and the elements in C order.  Elements are exact
      rationals ([Qc]): the theorems speak of the arithmetic the floats
      approximate, rounding is not modelled. *)

From Stdlib Require Import QArith Qcanon.
From stdpp Require Import gmap strings list.

(** ** Exceptions and results *)

Inductive exn : Set :=
  | AttributeError
  | IndexError
  | KeyError
  | ValueError
  | ZeroDivisionError
  | FloatingPointError.

Inductive result (A : Type) : Type :=
  | Ok (a : A)
  | Raise (e : exn).
Arguments Ok {A} a.
Arguments Raise {A} e.

#[global] Instance result_ret : MRet result := fun A a => Ok a.
#[global] Instance result_bind : MBind result := fun A B k m =>
  match m with
  | Ok a => k a
  | Raise e => Raise e
  end.
#[global] Instance result_fmap : FMap result := fun A B g m =>
  match m with
  | Ok a => Ok (g a)
  | Raise e => Raise e
  end.

Definition is_Ok {A} (r : result A) : Prop :=
  match r with Ok _ => True | Raise _ => False end.

(** State and exceptions: the state reached so far survives a raise. *)
Definition prog (S A : Type) : Type := S → S * result A.

#[global] Instance prog_ret {S} : MRet (prog S) := fun A a s => (s, Ok a).
#[global] Instance prog_bind {S} : MBind (prog S) := fun A B k m s =>
  match m s with
  | (s', Ok a) => k a s'
  | (s', Raise e) => (s', Raise e)
  end.

Definition raise {S A} (e : exn) : prog S A := fun s => (s, Raise e).
Definition gets {S A} (g : S → A) : prog S A := fun s => (s, Ok (g s)).
Definition modify {S} (g : S → S) : prog S unit := fun s => (g s, Ok tt).
Definition lift {S A} (r : result A) : prog S A := fun s => (s, r).

(** ** The registries ([gradients.py] lines 7-24, [wrappers.py] lines 5-34, 68-97) *)

Module Registry.

(** A function object is known by its identity; the attributes that the
    decorators set on it live in a store shared by every reference to it. *)
Definition fref : Set := positive.

Record world : Type := World {
  numerical_gradients : gmap string (list fref);
  blackbox_wrappers : gmap string (option fref);
  attrs : gmap fref (gmap string string)
}.

(** [numerical_gradients = {'pytorch': [], 'tensorflow': []}] and
    [blackbox_wrappers = {'pytorch': None, 'tensorflow': None}]. *)
Definition initial : world :=
  {| numerical_gradients := <["pytorch" := []]> (<["tensorflow" := []]> ∅);
     blackbox_wrappers := <["pytorch" := None]> (<["tensorflow" := None]> ∅);
     attrs := ∅ |}.

(** [func.name = value] *)
Definition setattr (func : fref) (name value : string) : prog world unit :=
  modify (fun w =>
    {| numerical_gradients := numerical_gradients w;
       blackbox_wrappers := blackbox_wrappers w;
       attrs := <[func := <[name := value]> (default ∅ (attrs w !! func))]> (attrs w) |}).

(** [numerical_gradients[framework]]: a plain dict, a missing key raises. *)
Definition numerical_gradients_getitem (framework : string) : prog world (list fref) :=
  fun w =>
    match numerical_gradients w !! framework with
    | Some l => (w, Ok l)
    | None => (w, Raise KeyError)
    end.

(** [l.append(func)] on the list stored under [framework]: the list object is
    mutated in place, so the dict sees the longer list. *)
Definition numerical_gradients_append (framework : string) (l : list fref) (func : fref)
  : prog world unit :=
  modify (fun w =>
    {| numerical_gradients := <[framework := l ++ [func]]> (numerical_gradients w);
       blackbox_wrappers := blackbox_wrappers w;
       attrs := attrs w |}).

(** [numerical_gradient(framework)(func)] *)
Definition numerical_gradient (framework : string) (func : fref) : prog world fref :=
  _ ← setattr func "optimizer" framework;
  l ← numerical_gradients_getitem framework;
  _ ← numerical_gradients_append framework l func;
  mret func.

(** [blackbox_wrappers[framework] = func]: item assignment on a dict creates
    the key when it is absent.  It never raises [AttributeError], so the
    [except] clause of the source is never entered. *)
Definition blackbox_wrappers_setitem (framework : string) (func : fref) : prog world unit :=
  modify (fun w =>
    {| numerical_gradients := numerical_gradients w;
       blackbox_wrappers := <[framework := Some func]> (blackbox_wrappers w);
       attrs := attrs w |}).

Definition known_frameworks : list string := ["pytorch"; "tensorflow"].

(** [blackbox_wrapper(framework)(func)], the inner [register_wrapper] *)
Definition blackbox_wrapper (framework : string) (func : fref) : prog world fref :=
  _ ← setattr func "framework" framework;
  _ ← blackbox_wrappers_setitem framework func;
  if bool_decide (framework ∉ known_frameworks)
  then raise ValueError
  else mret func.

(** [get_blackbox_wrapper(framework)] *)
Definition get_blackbox_wrapper (framework : string) : prog world (option fref) :=
  fun w =>
    match blackbox_wrappers w !! framework with
    | Some v => (w, Ok v)
    | None => (w, Raise KeyError)
    end.

(** The worlds a process can be in: the module-level initialisation followed
    by any number of decorator applications, whether they return or raise. *)
Inductive reachable : world → Prop :=
  | reach_initial : reachable initial
  | reach_numerical_gradient s f w :
      reachable w → reachable (numerical_gradient s f w).1
  | reach_blackbox_wrapper s f w :
      reachable w → reachable (blackbox_wrapper s f w).1.

(** A decorator application, [numerical_gradient(framework)(func)] or
    [blackbox_wrapper(framework)(func)], and a run of them one after the
    other; the world is kept also when one raises. *)
Inductive call : Set :=
  | NumericalGradient (framework : string) (func : fref)
  | BlackboxWrapper (framework : string) (func : fref).

Definition apply_call (w : world) (c : call) : world :=
  match c with
  | NumericalGradient s f => (numerical_gradient s f w).1
  | BlackboxWrapper s f => (blackbox_wrapper s f w).1
  end.

Definition run (calls : list call) (w : world) : world := foldl apply_call w calls.

(** The function of the last wrapper registration under [framework] in a
    run, if there is one. *)
Definition registers (framework : string) (c : call) : option fref :=
  match c with
  | BlackboxWrapper s f => if decide (s = framework) then Some f else None
  | NumericalGradient _ _ => None
  end.

Definition last_registered (framework : string) (calls : list call) : option fref :=
  last (omap (registers framework) calls).

(** The function a call decorates as a numerical gradient for [framework],
    if it is such a call. *)
Definition decorates (framework : string) (c : call) : option fref :=
  match c with
  | NumericalGradient s f => if decide (s = framework) then Some f else None
  | BlackboxWrapper _ _ => None
  end.

(** [getattr(func, name)], when the attribute has been set. *)
Definition getattr (w : world) (func : fref) (name : string) : option string :=
  attrs w !! func ≫= fun a => a !! name.

End Registry.

(** ** The numpy operations the two files use *)

Module NP.

(** An array: its shape and its elements in C (row-major) order. *)
Record ndarray (A : Type) : Type := NDArray {
  shape : list nat;
  data : list A
}.
Arguments NDArray {A} shape data.
Arguments shape {A} n.
Arguments data {A} n.

(** [np.prod(shape)]: the number of elements of an array of that shape. *)
Definition size_of (sh : list nat) : nat := foldr Nat.mul 1 sh.

Definition wf {A} (a : ndarray A) : Prop := length (data a) = size_of (shape a).

(** [n] consecutive pieces of [c] elements each. *)
Fixpoint chunks {A} (n c : nat) (d : list A) : list (list A) :=
  match n with
  | 0 => []
  | S n' => take c d :: chunks n' c (drop c d)
  end.

(** The instances of a batch: the slices along the leading axis. *)
Definition rows {A} (a : ndarray A) : list (list A) :=
  match shape a with
  | [] => []
  | n :: sh => chunks n (size_of sh) (data a)
  end.

(** *** reshape *)

(** An entry of a requested shape: a dimension, or [-1] to have it inferred. *)
Inductive dim : Set :=
  | Dim (n : nat)
  | Infer.

Definition known_dims (newshape : list dim) : list nat :=
  omap (fun d => match d with Dim n => Some n | Infer => None end) newshape.

(** numpy's rule for [-1]: at most one, the known dimensions must have a
    nonzero product that divides the size; without [-1] the sizes must agree. *)
Definition infer_shape (total : nat) (newshape : list dim) : result (list nat) :=
  let k := size_of (known_dims newshape) in
  match length newshape - length (known_dims newshape) with
  | 0 => if decide (k = total) then Ok (known_dims newshape) else Raise ValueError
  | 1 => if decide (k = 0 ∨ total `mod` k ≠ 0) then Raise ValueError
         else Ok ((fun d => match d with Dim n => n | Infer => total `div` k end) <$> newshape)
  | _ => Raise ValueError
  end.

(** [np.reshape(a, newshape)], also [tf.reshape] and [a.reshape]: C order, so
    the elements stay as they are. *)
Definition reshape {A} (a : ndarray A) (newshape : list dim) : result (ndarray A) :=
  sh ← infer_shape (size_of (shape a)) newshape;
  mret (NDArray sh (data a)).

(** Positions: a multi-index and its offset, in C order (last axis fastest)
    and in Fortran order (first axis fastest). *)
Fixpoint unravel_C (sh : list nat) (k : nat) : list nat :=
  match sh with
  | [] => []
  | _ :: sh' => k `div` size_of sh' :: unravel_C sh' (k `mod` size_of sh')
  end.

Fixpoint ravel_C (sh idx : list nat) : nat :=
  match sh, idx with
  | _ :: sh', i :: idx' => i * size_of sh' + ravel_C sh' idx'
  | _, _ => 0
  end.

Fixpoint unravel_F (sh : list nat) (k : nat) : list nat :=
  match sh with
  | [] => []
  | n :: sh' => k `mod` n :: unravel_F sh' (k `div` n)
  end.

Fixpoint ravel_F (sh idx : list nat) : nat :=
  match sh, idx with
  | n :: sh', i :: idx' => i + n * ravel_F sh' idx'
  | _, _ => 0
  end.

(** [np.reshape(a, newshape, order='F')]: the elements are read in Fortran
    order and placed in Fortran order.  The element at C offset [k] of the
    result is the element of [a] with the same Fortran offset. *)
Definition reshape_F {A} (a : ndarray A) (newshape : list dim) : result (ndarray A) :=
  sh ← infer_shape (size_of (shape a)) newshape;
  mret (NDArray sh
         (omap (fun k => data a !! ravel_C (shape a)
                                     (unravel_F (shape a) (ravel_F sh (unravel_C sh k))))
               (seq 0 (size_of sh)))).

(** *** Broadcasting *)

(** On reversed shapes (trailing axis first): equal dimensions, or one of
    them 1; a missing axis counts as 1. *)
Fixpoint broadcast_shapes_rev (s t : list nat) : result (list nat) :=
  match s, t with
  | [], _ => Ok t
  | _, [] => Ok s
  | n :: s', m :: t' =>
      r ← broadcast_shapes_rev s' t';
      if decide (n = m) then Ok (n :: r)
      else if decide (n = 1) then Ok (m :: r)
      else if decide (m = 1) then Ok (n :: r)
      else Raise ValueError
  end.

Definition broadcast_shapes (s t : list nat) : result (list nat) :=
  reverse <$> broadcast_shapes_rev (reverse s) (reverse t).

(** The elements of an array of shape [s] seen at shape [t]: axes missing on
    the left and axes of length 1 are repeated. *)
Fixpoint broadcast_data {A} (s t : list nat) (d : list A) : list A :=
  match t with
  | [] => d
  | m :: t' =>
      if decide (length s < length t)
      then mjoin (replicate m (broadcast_data s t' d))
      else match s with
           | [] => d
           | n :: s' =>
               if decide (n = m)
               then mjoin (broadcast_data s' t' <$> chunks n (size_of s') d)
               else mjoin (replicate m (broadcast_data s' t' d))
           end
  end.

(** An elementwise binary operator. *)
Definition binop {A B C} (f : A → B → C) (a : ndarray A) (b : ndarray B)
  : result (ndarray C) :=
  sh ← broadcast_shapes (shape a) (shape b);
  mret (NDArray sh (zip_with f (broadcast_data (shape a) sh (data a))
                               (broadcast_data (shape b) sh (data b)))).

Definition add : ndarray Qc → ndarray Qc → result (ndarray Qc) := binop Qcplus.
Definition sub : ndarray Qc → ndarray Qc → result (ndarray Qc) := binop Qcminus.
Definition mul : ndarray Qc → ndarray Qc → result (ndarray Qc) := binop Qcmult.

(** [a / b]: where a divisor is zero numpy warns and stores inf or nan, values
    the rationals do not have; the model stops there with
    [FloatingPointError], what numpy raises under [np.errstate(all='raise')]. *)
Definition div (a b : ndarray Qc) : result (ndarray Qc) :=
  sh ← broadcast_shapes (shape a) (shape b);
  let divisors := broadcast_data (shape b) sh (data b) in
  if decide (Exists (fun q => q = 0%Qc) divisors) then Raise FloatingPointError
  else mret (NDArray sh (zip_with Qcdiv (broadcast_data (shape a) sh (data a)) divisors)).

(** A Python scalar as an operand: a zero-dimensional array. *)
Definition scalar {A} (x : A) : ndarray A := NDArray [] [x].

(** *** Constructors and copies *)

(** [np.eye(n)]: ones on the diagonal, zeros elsewhere. *)
Definition delta (i j : nat) : Qc := if decide (i = j) then 1%Qc else 0%Qc.

(** The rows of the [n] by [n] matrix with entry [p i j] in row [i], column [j]. *)
Definition matrix {A} (n : nat) (p : nat → nat → A) : list (list A) :=
  (fun i => p i <$> seq 0 n) <$> seq 0 n.

Definition eye (n : nat) : ndarray Qc := NDArray [n; n] (mjoin (matrix n delta)).

(** [np.ones((n, m))] *)
Definition ones (n m : nat) : ndarray Qc := NDArray [n; m] (replicate (n * m) 1%Qc).

(** [np.tile(a, (n, 1))]: [n] copies along the last-but-one axis, which is
    created when [a] has fewer than two axes. *)
Fixpoint tile_shape (n : nat) (sh : list nat) : list nat :=
  match sh with
  | [] => [n; 1]
  | [c] => [n; c]
  | [r; c] => [n * r; c]
  | k :: sh' => k :: tile_shape n sh'
  end.

Fixpoint tile_data {A} (n : nat) (sh : list nat) (d : list A) : list A :=
  match sh with
  | [] | [_] | [_; _] => mjoin (replicate n d)
  | k :: sh' => mjoin (tile_data n sh' <$> chunks k (size_of sh') d)
  end.

Definition tile {A} (a : ndarray A) (n : nat) : ndarray A :=
  NDArray (tile_shape n (shape a)) (tile_data n (shape a) (data a)).

(** [np.repeat(a, d, axis=0)]: every slice along the leading axis [d] times
    in a row. *)
Definition repeat {A} (a : ndarray A) (d : nat) : result (ndarray A) :=
  match shape a with
  | [] => Raise ValueError
  | n :: sh =>
      Ok (NDArray (n * d :: sh)
            (mjoin ((fun r => mjoin (replicate d r)) <$> chunks n (size_of sh) (data a))))
  end.

(** [np.concatenate([a, b], axis=0)] *)
Definition concatenate {A} (a b : ndarray A) : result (ndarray A) :=
  match shape a, shape b with
  | n :: sa, m :: sb =>
      if decide (sa = sb) then Ok (NDArray (n + m :: sa) (data a ++ data b))
      else Raise ValueError
  | _, _ => Raise ValueError
  end.

(** [a[:n]] and [a[n:]] for [n >= 0] *)
Definition slice_to {A} (a : ndarray A) (n : nat) : result (ndarray A) :=
  match shape a with
  | [] => Raise IndexError
  | m :: sh => Ok (NDArray (n `min` m :: sh) (take (n `min` m * size_of sh) (data a)))
  end.

Definition slice_from {A} (a : ndarray A) (n : nat) : result (ndarray A) :=
  match shape a with
  | [] => Raise IndexError
  | m :: sh => Ok (NDArray (m - n :: sh) (drop (n `min` m * size_of sh) (data a)))
  end.

(** [a.shape[i]] on the tuple of dimensions *)
Definition shape_getitem (sh : list nat) (i : nat) : result nat :=
  match sh !! i with
  | Some n => Ok n
  | None => Raise IndexError
  end.

(** [a[0].shape] *)
Definition first_shape {A} (a : ndarray A) : result (list nat) :=
  match shape a with
  | [] => Raise IndexError
  | 0 :: _ => Raise IndexError
  | S _ :: sh => Ok sh
  end.

(** *** atleast_2d and argmax *)

(** [np.atleast_2d(a)] *)
Definition atleast_2d {A} (a : ndarray A) : ndarray A :=
  match shape a with
  | [] => NDArray [1; 1] (data a)
  | [k] => NDArray [1; k] (data a)
  | _ => a
  end.

(** The position of the first maximum of [x :: l], scanning left to right:
    [best_i] holds the position of [best], the largest element so far. *)
Fixpoint argmax_from (best_i : nat) (best : Qc) (i : nat) (l : list Qc) : nat :=
  match l with
  | [] => best_i
  | x :: l' =>
      if decide (best < x)%Qc then argmax_from i x (S i) l'
      else argmax_from best_i best (S i) l'
  end.

Definition argmax_list (l : list Qc) : nat :=
  match l with
  | [] => 0
  | x :: l' => argmax_from 0 x 1 l'
  end.

(** [np.argmax(a, axis=1)]: for every position outside axis 1, the index of
    the first maximum along axis 1.  An axis of length 0 has no maximum. *)
Definition argmax_axis1 (a : ndarray Qc) : result (ndarray nat) :=
  match shape a with
  | n :: k :: sh =>
      if decide (k = 0) then Raise ValueError
      else
        let inner := size_of sh in
        Ok (NDArray (n :: sh)
              (mjoin ((fun blk =>
                         (fun p => argmax_list (omap (fun j => blk !! (j * inner + p)) (seq 0 k)))
                         <$> seq 0 inner)
                      <$> chunks n (k * inner) (data a))))
  | _ => Raise ValueError
  end.

End NP.

(** ** [gradients.py]: perturbation and batched central differences *)

Module Gradients.
Import NP.

(** The step [eps : Union[float, np.ndarray]]: a Python float, or an array
    with one step per feature ("can be a single float or one for each
    feature"). *)
Inductive step : Type :=
  | Scalar (e : Qc)
  | PerFeature (v : list Qc).

Definition as_array (eps : step) : ndarray Qc :=
  match eps with
  | Scalar e => scalar e
  | PerFeature v => NDArray [length v] v
  end.

Definition of_int (k : Z) : Qc := Q2Qc (inject_Z k).

(** [eps / k] for a Python int [k]: a float divided by zero raises
    [ZeroDivisionError]; an array is divided elementwise by numpy. *)
Definition step_div (eps : step) (k : Z) : result step :=
  match eps with
  | Scalar e =>
      if decide (k = 0%Z) then Raise ZeroDivisionError
      else Ok (Scalar (e / of_int k)%Qc)
  | PerFeature v =>
      r ← div (as_array eps) (scalar (of_int k));
      mret (PerFeature (data r))
  end.

(** [2 * eps] *)
Definition step_double (eps : step) : step :=
  match eps with
  | Scalar e => Scalar (2 * e)%Qc
  | PerFeature v => PerFeature ((fun e => 2 * e)%Qc <$> v)
  end.

(** [a += b]: the sum is written into [a], whose shape it must have. *)
Definition iadd (a b : ndarray Qc) : result (ndarray Qc) :=
  r ← add a b;
  if decide (shape r = shape a) then Ok r else Raise ValueError.

(** [perturb(X, eps, proba)] *)
Definition perturb (X : ndarray Qc) (eps : step) (proba : bool)
  : result (ndarray Qc * ndarray Qc) :=
  let shape0 := shape X in
  n ← shape_getitem shape0 0;
  X ← reshape X [Dim n; Infer];
  dim ← shape_getitem (shape X) 1;
  e ← mul (eye dim) (as_array eps);
  let pert := tile e n in
  pert ← (if proba then
            eps_n ← step_div eps (Z.of_nat dim - 1);
            d ← sub (eye dim) (ones dim dim);
            c ← mul d (as_array eps_n);
            iadd pert (tile c n)
          else Ok pert);
  X_rep ← repeat X dim;
  X_pert_pos ← add X_rep pert;
  X_pert_neg ← sub X_rep pert;
  let shape1 := dim * n :: tail shape0 in
  X_pert_pos ← reshape X_pert_pos (Dim <$> shape1);
  X_pert_neg ← reshape X_pert_neg (Dim <$> shape1);
  mret (X_pert_pos, X_pert_neg).

(** A black-box prediction function: called with a batch and the extra
    arguments, it returns a tensor or raises. *)
Definition blackbox (Args : Type) : Type := ndarray Qc → Args → result (ndarray Qc).

(** [num_grad_batch(func, X, args, eps)] *)
Definition num_grad_batch {Args} (func : blackbox Args) (X : ndarray Qc) (args : Args)
    (eps : step) : result (ndarray Qc) :=
  batch_size ← shape_getitem (shape X) 0;
  data_shape ← first_shape X;
  preds ← func X args;
  preds ← reshape preds [Infer; Dim 1];
  pp ← perturb X eps false;
  let X_pert_pos := pp.1 in
  let X_pert_neg := pp.2 in
  X_pert ← concatenate X_pert_pos X_pert_neg;
  preds_concat ← func X_pert args;
  preds_concat ← reshape preds_concat [Infer; Dim 1];
  n_pert ← shape_getitem (shape X_pert_pos) 0;
  upper ← slice_to preds_concat n_pert;
  lower ← slice_from preds_concat n_pert;
  grad_numerator ← sub upper lower;
  grad_numerator ← reshape grad_numerator [Dim batch_size; Infer];
  n_classes ← shape_getitem (shape preds) 1;
  grad_numerator ← reshape_F grad_numerator [Dim batch_size; Dim n_classes; Infer];
  grad ← div grad_numerator (as_array (step_double eps));
  reshape grad (Dim <$> (shape preds ++ data_shape)).

End Gradients.

(** ** [perturb] on numpy buffers

    The same function with arrays as objects: an array is a view of a buffer
    of the heap.  [np.reshape] of a contiguous array returns a view on the same
    buffer, [np.eye], [np.ones], [np.tile], [np.repeat] and the arithmetic
    operators allocate the buffer of their result, and [+=] writes into the
    buffer of its left operand. *)

Module Buffers.
Import NP Gradients.

Definition loc : Set := positive.

Record array : Set := Array {
  buf : loc;
  dims : list nat
}.

Definition value_of (h : gmap loc (list Qc)) (a : array) : ndarray Qc :=
  NDArray (dims a) (default [] (h !! buf a)).

Definition read (a : array) : prog (gmap loc (list Qc)) (ndarray Qc) :=
  gets (fun h => value_of h a).

Definition new (v : ndarray Qc) : prog (gmap loc (list Qc)) array :=
  fun h => let l := fresh (dom h) in (<[l := data v]> h, Ok (Array l (shape v))).

Definition write (a : array) (d : list Qc) : prog (gmap loc (list Qc)) unit :=
  modify (fun h => <[buf a := d]> h).

(** [np.reshape(a, newshape)]: no copy, the result shares the buffer of [a]. *)
Definition view (a : array) (newshape : list dim) : prog (gmap loc (list Qc)) array :=
  sh ← lift (infer_shape (size_of (dims a)) newshape);
  mret (Array (buf a) sh).

(** An operator that reads its operands and returns a newly allocated array. *)
Definition op1 (f : ndarray Qc → result (ndarray Qc)) (a : array)
  : prog (gmap loc (list Qc)) array :=
  v ← read a;
  r ← lift (f v);
  new r.

Definition op2 (f : ndarray Qc → ndarray Qc → result (ndarray Qc)) (a b : array)
  : prog (gmap loc (list Qc)) array :=
  v ← read a;
  w ← read b;
  r ← lift (f v w);
  new r.

(** [a += b] *)
Definition iadd_inplace (a b : array) : prog (gmap loc (list Qc)) array :=
  v ← read a;
  w ← read b;
  r ← lift (iadd v w);
  _ ← write a (data r);
  mret a.

(** [perturb(X, eps, proba)], statement by statement *)
Definition perturb (X : array) (eps : step) (proba : bool)
  : prog (gmap loc (list Qc)) (array * array) :=
  let shape0 := dims X in
  n ← lift (shape_getitem shape0 0);
  X ← view X [Dim n; Infer];
  dim ← lift (shape_getitem (dims X) 1);
  i ← new (eye dim);
  e ← op1 (fun v => mul v (as_array eps)) i;
  pert ← op1 (fun v => Ok (tile v n)) e;
  pert ← (if proba then
            eps_n ← lift (step_div eps (Z.of_nat dim - 1));
            i' ← new (eye dim);
            o ← new (ones dim dim);
            d ← op2 sub i' o;
            c ← op1 (fun v => mul v (as_array eps_n)) d;
            t ← op1 (fun v => Ok (tile v n)) c;
            iadd_inplace pert t
          else mret pert);
  X_rep ← op1 (fun v => repeat v dim) X;
  X_pert_pos ← op2 add X_rep pert;
  X_pert_neg ← op2 sub X_rep pert;
  let shape1 := dim * n :: tail shape0 in
  X_pert_pos ← view X_pert_pos (Dim <$> shape1);
  X_pert_neg ← view X_pert_neg (Dim <$> shape1);
  mret (X_pert_pos, X_pert_neg).

(** What a call may do to the buffers that existed before it, in the heap
    [h0]: [h] still holds them all with their contents. *)
Definition preserves (h0 h : gmap loc (list Qc)) : Prop :=
  ∀ l, l ∈ dom h0 → h !! l = h0 !! l.

(** An array whose buffer did not exist in [h0]. *)
Definition fresh_for (h0 : gmap loc (list Qc)) (a : array) : Prop := buf a ∉ dom h0.

(** From any heap that preserves [h0], the program ends in a heap that
    preserves [h0], whether it returns or raises, and a returned value
    satisfies [Q]. *)
Definition triple {A} (h0 : gmap loc (list Qc)) (m : prog (gmap loc (list Qc)) A)
    (Q : A → Prop) : Prop :=
  ∀ h, preserves h0 h → preserves h0 (m h).1 ∧ ∀ a, (m h).2 = Ok a → Q a.

(** The array [a] is allocated in [h] and holds the value [v]. *)
Definition live (h : gmap loc (list Qc)) (a : array) (v : ndarray Qc) : Prop :=
  h !! buf a = Some (data v) ∧ dims a = shape v.

(** A property of heaps that an allocation does not invalidate. *)
Definition stable (I : gmap loc (list Qc) → Prop) : Prop :=
  ∀ h l d, l ∉ dom h → I h → I (<[l := d]> h).

(** From every heap that satisfies [I], the program on buffers [m] and the
    computation on values [p] have the same outcome: both raise the same
    exception, or both return and the results are related by [R] in the final
    heap. *)
Definition refines {A B} (I : gmap loc (list Qc) → Prop)
    (m : prog (gmap loc (list Qc)) A) (p : result B)
    (R : A → B → gmap loc (list Qc) → Prop) : Prop :=
  ∀ h, I h →
    match m h, p with
    | (h', Ok a), Ok b => R a b h'
    | (_, Raise e), Raise e' => e = e'
    | _, _ => False
    end.

End Buffers.

(** ** [wrappers.py]: [Predictor] and [ArgmaxTransformer] *)

Module Wrappers.
Import NP.

(** What the wrappers look at in an object handed to them: its truth value
    ([bool(obj)]) and its [predict] and [transform] attributes, when it has
    them. *)
Record pyobject : Type := PyObject {
  truth : bool;
  predict : option (ndarray Qc → result (ndarray Qc));
  transform : option (ndarray Qc → result (ndarray Qc))
}.

Module Predictor.

Record t : Type := Make {
  clf : pyobject;
  predict_fcn : ndarray Qc → result (ndarray Qc);
  preprocessor : option pyobject
}.

(** [Predictor(clf, preprocessor)]; [preprocessor] is [None] by default. *)
Definition __init__ (clf : pyobject) (preprocessor : option pyobject) : result t :=
  match predict clf with
  | None => Raise AttributeError
  | Some p => Ok (Make clf p preprocessor)
  end.

(** [if self.preprocessor:] tests the truth value: [None] is false. *)
Definition truthy (o : option pyobject) : bool :=
  match o with
  | None => false
  | Some p => truth p
  end.

(** [self.preprocessor.transform] *)
Definition getattr_transform (o : option pyobject)
  : result (ndarray Qc → result (ndarray Qc)) :=
  match o ≫= transform with
  | Some f => Ok f
  | None => Raise AttributeError
  end.

Definition __call__ (self : t) (x : ndarray Qc) : result (ndarray Qc) :=
  if truthy (preprocessor self) then
    f ← getattr_transform (preprocessor self);
    y ← f x;
    predict_fcn self y
  else predict_fcn self x.

End Predictor.

Module ArgmaxTransformer.

Record t : Type := Make {
  predictor : ndarray Qc → result (ndarray Qc)
}.

Definition __init__ (predictor : ndarray Qc → result (ndarray Qc)) : t := Make predictor.

Definition __call__ (self : t) (x : ndarray Qc) : result (ndarray nat) :=
  out ← predictor self x;
  let pred := atleast_2d out in
  argmax_axis1 pred.

End ArgmaxTransformer.

End Wrappers.

(** ** Notions used to state the properties *)

Module Spec.

(** The instance [x] with feature [j] increased by [e], the others unchanged. *)
Definition bump (j : nat) (e : Qc) (x : list Qc) : list Qc :=
  imap (fun c q => if decide (c = j) then (q + e)%Qc else q) x.

(** The instance [x] with feature [j] increased by [e] and every other
    feature decreased by [r]. *)
Definition shift (j : nat) (e r : Qc) (x : list Qc) : list Qc :=
  imap (fun c q => if decide (c = j) then (q + e)%Qc else (q - r)%Qc) x.

(** The vector of length [d] that is [e] at index [j] and 0 elsewhere. *)
Definition spike (d j : nat) (e : Qc) : list Qc :=
  (fun c => if decide (c = j) then e else 0%Qc) <$> seq 0 d.

(** The total of a row. *)
Definition total (x : list Qc) : Qc := foldr Qcplus 0%Qc x.

(** A natural number as a rational. *)
Definition of_nat (n : nat) : Qc := Gradients.of_int (Z.of_nat n).

(** The inner product [w . x]. *)
Definition dot (w x : list Qc) : Qc := foldr Qcplus 0%Qc (zip_with Qcmult w x).

(** A step that [perturb] accepts for [d] features: a scalar, one entry per
    feature, or a one-element array, which numpy broadcasts like a scalar. *)
Definition step_fits (eps : Gradients.step) (d : nat) : Prop :=
  match eps with
  | Gradients.Scalar _ => True
  | Gradients.PerFeature v => length v = d ∨ length v = 1
  end.

(** The step applied to feature [j] of [d]. *)
Definition step_at (eps : Gradients.step) (d j : nat) : Qc :=
  match eps with
  | Gradients.Scalar e => e
  | Gradients.PerFeature v =>
      if decide (length v = d) then default 0%Qc (v !! j) else default 0%Qc (v !! 0)
  end.

(** The steps of the features [0 .. d-1]. *)
Definition steps (eps : Gradients.step) (d : nat) : list Qc := step_at eps d <$> seq 0 d.

(** The instance [x] with feature [j] increased by [st j] and every other
    feature [c] decreased by [r c]. *)
Definition shift_each (j : nat) (st r : nat → Qc) (x : list Qc) : list Qc :=
  imap (fun c q => if decide (c = j) then (q + st j)%Qc else (q - r c)%Qc) x.

End Spec.

(** ** Concrete inputs used in the examples below *)

Module Examples.
Import NP Wrappers.

(** A classifier whose [predict] returns its input unchanged. *)
Definition identity_clf : pyobject :=
  PyObject true (Some (fun x => Ok x)) None.

Definition doubled (x : ndarray Qc) : ndarray Qc :=
  NDArray (shape x) ((fun q => 2 * q)%Qc <$> data x).

(** A preprocessor whose [transform] doubles its input. *)
Definition doubling : pyobject :=
  PyObject true None (Some (fun x => Ok (doubled x))).

(** The same preprocessor with a false truth value, as an object gets from
    [__bool__] returning [False] or [__len__] returning 0. *)
Definition falsy_doubling : pyobject :=
  PyObject false None (Some (fun x => Ok (doubled x))).

Definition two : ndarray Qc := NDArray [1] [2%Qc].

Definition scores : list Qc := [Q2Qc (1 # 10); Q2Qc (9 # 10); Q2Qc (9 # 10)].

(** A batch of two instances with two features each, and a step. *)
Definition batch : ndarray Qc :=
  NDArray [2; 2] (Gradients.of_int <$> [1; 2; 3; 4]%Z).

Definition tenth : Qc := Q2Qc (1 # 10).

(** The linear function [f(x) = w . x] as a black box: one output per
    instance, predictions of shape [(N, 1)]. *)
Definition linear (w : list Qc) : Gradients.blackbox unit := fun X _ =>
  match shape X with
  | [] => Raise IndexError
  | n :: _ => Ok (NDArray [n; 1] (Spec.dot w <$> rows X))
  end.

(** A function with one output per weight vector: instance [x] is mapped to
    the outputs [w . x], for [w] in [ws]; predictions have shape
    [(N, len(ws))]. *)
Definition stacked (ws : list (list Qc)) : Gradients.blackbox unit := fun X _ =>
  match shape X with
  | [] => Raise IndexError
  | n :: _ =>
      Ok (NDArray [n; length ws] (rows X ≫= fun x => (fun w => Spec.dot w x) <$> ws))
  end.

(** A function [f] applied to every instance on its own: predictions of
    shape [(N,)]. *)
Definition pointwise (f : list Qc → Qc) : Gradients.blackbox unit := fun X _ =>
  match shape X with
  | [] => Raise IndexError
  | n :: _ => Ok (NDArray [n] (f <$> rows X))
  end.

(** A function that raises whatever it is given. *)
Definition failing (e : exn) : Gradients.blackbox unit := fun _ _ => Raise e.

Definition two_classes : Gradients.blackbox unit :=
  stacked [Gradients.of_int <$> [1; 1]%Z; Gradients.of_int <$> [1; -1]%Z].

(** The batch as an array object: its buffer at location 1 of a heap. *)
Definition batch_heap : gmap Buffers.loc (list Qc) := {[ 1%positive := data batch ]}.

Definition batch_array : Buffers.array := Buffers.Array 1%positive (shape batch).

End Examples.

(** * Properties *)

(** ** The registries *)

Section registry_facts.
Import Registry.

Lemma numerical_gradient_known w s f l :
  numerical_gradients w !! s = Some l →
  (numerical_gradient s f w).2 = Ok f ∧
  numerical_gradients (numerical_gradient s f w).1 = <[s := l ++ [f]]> (numerical_gradients w) ∧
  blackbox_wrappers (numerical_gradient s f w).1 = blackbox_wrappers w.
Proof.
  intros Hl. unfold numerical_gradient, mbind, prog_bind, numerical_gradients_getitem.
  simpl. rewrite Hl. done.
Qed.

Lemma numerical_gradient_unknown w s f :
  numerical_gradients w !! s = None →
  (numerical_gradient s f w).2 = Raise KeyError ∧
  numerical_gradients (numerical_gradient s f w).1 = numerical_gradients w ∧
  blackbox_wrappers (numerical_gradient s f w).1 = blackbox_wrappers w.
Proof.
  intros Hl. unfold numerical_gradient, mbind, prog_bind, numerical_gradients_getitem.
  simpl. rewrite Hl. done.
Qed.

Lemma blackbox_wrapper_world w s f :
  numerical_gradients (blackbox_wrapper s f w).1 = numerical_gradients w ∧
  blackbox_wrappers (blackbox_wrapper s f w).1 = <[s := Some f]> (blackbox_wrappers w).
Proof.
  unfold blackbox_wrapper, mbind, prog_bind. simpl.
  by destruct (bool_decide (s ∉ known_frameworks)).
Qed.

Lemma blackbox_wrapper_result w s f :
  (blackbox_wrapper s f w).2 = if decide (s ∈ known_frameworks) then Ok f else Raise ValueError.
Proof.
  unfold blackbox_wrapper, mbind, prog_bind. simpl.
  destruct (decide (s ∈ known_frameworks)) as [Hin|Hout].
  - rewrite bool_decide_eq_false_2; [done | by intros ?].
  - by rewrite bool_decide_eq_true_2.
Qed.

(** The gradient registry never gains or loses a key. *)
Lemma reachable_gradient_keys w s :
  reachable w → is_Some (numerical_gradients w !! s) ↔ s ∈ known_frameworks.
Proof.
  induction 1 as [|s' f w Hw IH|s' f w Hw IH].
  - unfold initial, known_frameworks; simpl.
    rewrite !lookup_insert_is_Some, lookup_empty, !elem_of_cons, elem_of_nil.
    split.
    + intros [->|[_ [->|[_ []%is_Some_None]]]]; [by left | by right; left].
    + intros [->|[->|[]]]; [by left | right; split; [done | by left]].
  - destruct (numerical_gradients w !! s') as [l|] eqn:Hl.
    + destruct (numerical_gradient_known w s' f l Hl) as (_ & -> & _).
      rewrite lookup_insert_is_Some. rewrite <- IH.
      split; [intros [->|[_ ?]]; [by rewrite Hl | done] | intros ?].
      destruct (decide (s' = s)); [by left | by right].
    + by destruct (numerical_gradient_unknown w s' f Hl) as (_ & -> & _).
  - by destruct (blackbox_wrapper_world w s' f) as [-> _].
Qed.

Lemma reachable_run calls : reachable (run calls initial).
Proof.
  induction calls as [|c calls IH] using rev_ind; [apply reach_initial|].
  unfold run. rewrite foldl_app. simpl. destruct c; by constructor.
Qed.

Lemma run_snoc calls c w : run (calls ++ [c]) w = apply_call (run calls w) c.
Proof. unfold run. by rewrite foldl_app. Qed.

Lemma last_registered_snoc s calls c :
  last_registered s (calls ++ [c]) =
  match registers s c with
  | Some f => Some f
  | None => last_registered s calls
  end.
Proof.
  unfold last_registered. rewrite omap_app. cbn [omap list_omap].
  destruct (registers s c); [by rewrite last_snoc | by rewrite app_nil_r].
Qed.

(** What [last_registered] is: nothing when no call registers a wrapper
    under the name, and the function of a registration that no later one
    under the same name follows. *)
Lemma last_registered_none s calls :
  Forall (fun c => registers s c = None) calls → last_registered s calls = None.
Proof.
  unfold last_registered. induction 1 as [|c calls Hc _ IH]; [done|].
  cbn [omap list_omap]. by rewrite Hc.
Qed.

Lemma last_registered_last s f calls later :
  Forall (fun c => registers s c = None) later →
  last_registered s (calls ++ BlackboxWrapper s f :: later) = Some f.
Proof.
  intros Hlater. unfold last_registered. rewrite omap_app. cbn [omap list_omap registers].
  rewrite decide_True by done.
  fold (omap (registers s) later).
  pose proof (last_registered_none s later Hlater) as Hn. unfold last_registered in Hn.
  destruct (omap (registers s) later) as [|g gs] eqn:E.
  - change (f :: []) with ([] ++ [f]). by rewrite app_assoc, last_snoc.
  - rewrite last_app. rewrite last_cons. by rewrite Hn.
Qed.

Lemma get_blackbox_wrapper_result s w :
  (get_blackbox_wrapper s w).2 =
  match blackbox_wrappers w !! s with
  | Some v => Ok v
  | None => Raise KeyError
  end.
Proof. unfold get_blackbox_wrapper. by destruct (blackbox_wrappers w !! s). Qed.

Lemma numerical_gradient_wrappers w s f :
  blackbox_wrappers (numerical_gradient s f w).1 = blackbox_wrappers w.
Proof.
  destruct (numerical_gradients w !! s) as [l|] eqn:Hl.
  - by destruct (numerical_gradient_known w s f l Hl) as (_ & _ & ->).
  - by destruct (numerical_gradient_unknown w s f Hl) as (_ & _ & ->).
Qed.

Lemma get_blackbox_wrapper_run s calls w :
  (get_blackbox_wrapper s (run calls w)).2 =
  match last_registered s calls with
  | Some f => Ok (Some f)
  | None => (get_blackbox_wrapper s w).2
  end.
Proof.
  induction calls as [|c calls IH] using rev_ind; [done|].
  rewrite run_snoc, last_registered_snoc, get_blackbox_wrapper_result.
  destruct c as [s' f|s' f]; cbn [apply_call registers].
  - rewrite numerical_gradient_wrappers. by rewrite <- get_blackbox_wrapper_result.
  - destruct (blackbox_wrapper_world (run calls w) s' f) as [_ ->].
    destruct (decide (s' = s)) as [<-|Hne].
    + by rewrite lookup_insert_eq.
    + rewrite lookup_insert_ne by done. by rewrite <- get_blackbox_wrapper_result.
Qed.

(** A wrapper registered under a name that is not a known framework: the
    call raises, and the registry has the new entry all the same. *)
Lemma blackbox_wrapper_unknown w s f :
  s ∉ known_frameworks →
  (blackbox_wrapper s f w).2 = Raise ValueError ∧
  blackbox_wrappers (blackbox_wrapper s f w).1 !! s = Some (Some f).
Proof.
  intros Hs. rewrite blackbox_wrapper_result, decide_False by done.
  destruct (blackbox_wrapper_world w s f) as [_ ->]. by rewrite lookup_insert_eq.
Qed.

Example get_blackbox_wrapper_before_registration :
  (get_blackbox_wrapper "tensorflow" initial).2 = Ok None.
Proof. reflexivity. Qed.

Example get_blackbox_wrapper_after_two_registrations :
  (get_blackbox_wrapper "tensorflow"
     (run [BlackboxWrapper "tensorflow" 5%positive; BlackboxWrapper "pytorch" 6%positive;
           BlackboxWrapper "tensorflow" 7%positive] initial)).2 = Ok (Some 7%positive).
Proof. reflexivity. Qed.

End registry_facts.

(** C2, as amended.  In every reachable world: for a framework name that is
    a key of the gradient registry (['pytorch'] or ['tensorflow'])
    [numerical_gradient(s)(f)] returns [f] and appends it to the list stored
    under [s]; for any other name it raises [KeyError] and the registry is
    left as it was, no entry is created. *)
Theorem numerical_gradient_appends_or_raises w s f :
  Registry.reachable w →
  (s ∈ Registry.known_frameworks →
     ∃ l, Registry.numerical_gradients w !! s = Some l ∧
          (Registry.numerical_gradient s f w).2 = Ok f ∧
          Registry.numerical_gradients (Registry.numerical_gradient s f w).1
            = <[s := l ++ [f]]> (Registry.numerical_gradients w)) ∧
  (s ∉ Registry.known_frameworks →
     (Registry.numerical_gradient s f w).2 = Raise KeyError ∧
     Registry.numerical_gradients (Registry.numerical_gradient s f w).1
       = Registry.numerical_gradients w).
Proof.
  intros Hw. split; intros Hs.
  - apply (reachable_gradient_keys w s Hw) in Hs as [l Hl].
    exists l. split; [done|].
    by destruct (numerical_gradient_known w s f l Hl) as (? & ? & _).
  - assert (Registry.numerical_gradients w !! s = None) as Hl.
    { apply eq_None_not_Some. by rewrite reachable_gradient_keys. }
    by destruct (numerical_gradient_unknown w s f Hl) as (? & ? & _).
Qed.

(** In the initial world: ['pytorch'] is a key and the function is appended,
    ['keras'] is not and the call raises. *)
Lemma numerical_gradient_appends_or_raises_witness :
  (∃ l, Registry.numerical_gradients Registry.initial !! "pytorch" = Some l ∧
        (Registry.numerical_gradient "pytorch" 1%positive Registry.initial).2 = Ok 1%positive ∧
        Registry.numerical_gradients
          (Registry.numerical_gradient "pytorch" 1%positive Registry.initial).1
          = <["pytorch" := l ++ [1%positive]]> (Registry.numerical_gradients Registry.initial)) ∧
  (Registry.numerical_gradient "keras" 1%positive Registry.initial).2 = Raise KeyError.
Proof.
  destruct (numerical_gradient_appends_or_raises Registry.initial "pytorch" 1%positive
              Registry.reach_initial) as [Hk _].
  destruct (numerical_gradient_appends_or_raises Registry.initial "keras" 1%positive
              Registry.reach_initial) as [_ Hu].
  split.
  - apply Hk. unfold Registry.known_frameworks. apply elem_of_cons. by left.
  - apply Hu. unfold Registry.known_frameworks.
    rewrite !elem_of_cons, elem_of_nil. intros [?|[?|[]]]; discriminate.
Defined.

(** C2 as stated fails: under the misspelt name ['keras'] the decorator
    raises [KeyError], and the registry has no entry for it afterwards. *)
Lemma numerical_gradient_keras_raises :
  (Registry.numerical_gradient "keras" 1%positive Registry.initial).2 = Raise KeyError ∧
  Registry.numerical_gradients
    (Registry.numerical_gradient "keras" 1%positive Registry.initial).1 !! "keras" = None.
Proof. split; reflexivity. Qed.

(** C3 fails on the code: [blackbox_wrapper('keras')(f)] raises [ValueError]
    only after the assignment [blackbox_wrappers[framework] = func], so the
    registry holds [f] under the new key ['keras'] and
    [get_blackbox_wrapper('keras')] returns it. *)
Theorem blackbox_wrapper_keras_registered :
  (Registry.blackbox_wrapper "keras" 1%positive Registry.initial).2 = Raise ValueError ∧
  Registry.blackbox_wrappers
    (Registry.blackbox_wrapper "keras" 1%positive Registry.initial).1 !! "keras"
    = Some (Some 1%positive) ∧
  Registry.blackbox_wrappers Registry.initial !! "keras" = None ∧
  (Registry.get_blackbox_wrapper "keras"
     (Registry.blackbox_wrapper "keras" 1%positive Registry.initial).1).2
    = Ok (Some 1%positive).
Proof. repeat split; reflexivity. Qed.

(** C7.  After any run of decorator applications from the freshly imported
    modules, [get_blackbox_wrapper('tensorflow')] returns the function of the
    last wrapper registration under ['tensorflow'], and [None] when there
    was none. *)
Theorem get_blackbox_wrapper_tensorflow calls :
  (Registry.get_blackbox_wrapper "tensorflow" (Registry.run calls Registry.initial)).2
  = Ok (Registry.last_registered "tensorflow" calls).
Proof.
  rewrite get_blackbox_wrapper_run.
  by destruct (Registry.last_registered "tensorflow" calls).
Qed.

(** ** Lists *)

Section list_facts.
Context {A : Type}.
Implicit Types l d : list A.

Lemma omap_ext_all {B C} (f g : B → option C) (l : list B) :
  (∀ x, f x = g x) → omap f l = omap g l.
Proof.
  intros E. induction l as [|x l IH]; [done|].
  cbn [omap list_omap]. rewrite E. fold (omap f l) (omap g l). by rewrite IH.
Qed.

Lemma omap_lookup_seq_from pre l :
  omap (fun j => (pre ++ l) !! j) (seq (length pre) (length l)) = l.
Proof.
  revert pre. induction l as [|a l IH]; intros pre; [done|].
  simpl. rewrite list_lookup_middle by done. f_equal.
  specialize (IH (pre ++ [a])).
  rewrite <- app_assoc, length_app, Nat.add_1_r in IH. apply IH.
Qed.

Lemma omap_lookup_seq l : omap (fun j => l !! j) (seq 0 (length l)) = l.
Proof. apply (omap_lookup_seq_from [] l). Qed.

End list_facts.

(** ** [Predictor] and [ArgmaxTransformer] *)

Section wrappers_facts.
Import NP Wrappers.

(** The scan keeps the position of the first largest element seen. *)
Lemma argmax_from_spec l : ∀ pre best_i best,
  pre !! best_i = Some best →
  (∀ j q, pre !! j = Some q → (q ≤ best)%Qc ∧ (j < best_i → (q < best)%Qc)) →
  ∃ m, (pre ++ l) !! argmax_from best_i best (length pre) l = Some m ∧
       ∀ j q, (pre ++ l) !! j = Some q →
              (q ≤ m)%Qc ∧ (j < argmax_from best_i best (length pre) l → (q < m)%Qc).
Proof.
  induction l as [|x l IH]; intros pre best_i best Hb Hinv; simpl.
  - rewrite app_nil_r. eauto.
  - assert (best_i < length pre) as Hlt by (by eapply lookup_lt_Some).
    replace (pre ++ x :: l) with ((pre ++ [x]) ++ l) by (by rewrite <- app_assoc).
    replace (S (length pre)) with (length (pre ++ [x]))
      by (rewrite length_app; simpl; lia).
    destruct (decide (best < x)%Qc) as [Hx|Hx].
    + apply IH.
      * replace (length pre) with (length pre + 0) by lia.
        by rewrite lookup_app_r, Nat.add_comm, Nat.add_sub by lia.
      * intros j q Hj. apply lookup_app_Some in Hj as [Hj|[Hge Hj]].
        -- destruct (Hinv j q Hj) as [Hle _].
           assert (q < x)%Qc by (by eapply Qcle_lt_trans).
           split; [by apply Qclt_le_weak | done].
        -- apply list_lookup_singleton_Some in Hj as [Hj <-].
           split; [apply Qcle_refl | lia].
    + apply IH.
      * by apply lookup_app_l_Some.
      * intros j q Hj. apply lookup_app_Some in Hj as [Hj|[Hge Hj]].
        -- by apply Hinv.
        -- apply list_lookup_singleton_Some in Hj as [Hj <-].
           split; [by apply Qcnot_lt_le | lia].
Qed.

Lemma argmax_list_spec x l :
  ∃ m, (x :: l) !! argmax_list (x :: l) = Some m ∧
       ∀ j q, (x :: l) !! j = Some q →
              (q ≤ m)%Qc ∧ (j < argmax_list (x :: l) → (q < m)%Qc).
Proof.
  apply (argmax_from_spec l [x] 0 x); [done|].
  intros j q Hj. apply list_lookup_singleton_Some in Hj as [-> <-].
  split; [apply Qcle_refl | lia].
Qed.

Lemma argmax_axis1_single_row v :
  v ≠ [] → argmax_axis1 (NDArray [1; length v] v) = Ok (NDArray [1] [argmax_list v]).
Proof.
  intros Hv. unfold argmax_axis1; simpl.
  destruct (decide (length v = 0)) as [E|_].
  { by apply length_zero_iff_nil in E. }
  rewrite Nat.mul_1_r, firstn_all.
  do 4 f_equal.
  rewrite (omap_ext_all _ (fun j => v !! j)); [apply omap_lookup_seq|].
  intros j. f_equal. lia.
Qed.

Example argmax_two_instances :
  argmax_axis1 (atleast_2d (NDArray [2; 2]
    [Q2Qc (1 # 10); Q2Qc (9 # 10); Q2Qc (7 # 10); Q2Qc (3 # 10)]))
  = Ok (NDArray [2] [1; 0]).
Proof. reflexivity. Qed.

Example Predictor_doubling_preprocessor :
  ∃ self, Predictor.__init__ Examples.identity_clf (Some Examples.doubling) = Ok self ∧
          Predictor.__call__ self Examples.two = Ok (Examples.doubled Examples.two).
Proof. eexists. split; reflexivity. Qed.

End wrappers_facts.

(** C8, as amended.  Construction raises [AttributeError] exactly when [clf]
    has no [predict] attribute.  When it succeeds, a call applies [transform]
    of the preprocessor and then [predict] of [clf] if the truth value of the
    preprocessor is true; a preprocessor that is [None] or has a false truth
    value is skipped and [predict] is applied to the input itself; a true
    preprocessor without [transform] makes the call raise [AttributeError]. *)
Theorem Predictor_init_and_call clf pre :
  (Wrappers.Predictor.__init__ clf pre = Raise AttributeError ↔ Wrappers.predict clf = None) ∧
  (is_Ok (Wrappers.Predictor.__init__ clf pre) ↔ is_Some (Wrappers.predict clf)) ∧
  match Wrappers.predict clf with
  | None => Wrappers.Predictor.__init__ clf pre = Raise AttributeError
  | Some f =>
      ∃ self, Wrappers.Predictor.__init__ clf pre = Ok self ∧
        ∀ x, Wrappers.Predictor.__call__ self x =
             match pre with
             | None => f x
             | Some o =>
                 if Wrappers.truth o then
                   match Wrappers.transform o with
                   | Some t => y ← t x; f y
                   | None => Raise AttributeError
                   end
                 else f x
             end
  end.
Proof.
  unfold Wrappers.Predictor.__init__.
  destruct (Wrappers.predict clf) as [f|] eqn:Hp; simpl.
  - split; [split; intros; discriminate|].
    split; [split; eauto|].
    eexists. split; [done|]. intros x.
    unfold Wrappers.Predictor.__call__; simpl.
    destruct pre as [o|]; simpl; [|done].
    destruct (Wrappers.truth o); [|done].
    unfold Wrappers.Predictor.getattr_transform; simpl.
    by destruct (Wrappers.transform o).
  - split; [done|]. split; [|done].
    split; [intros [] | intros [? [=]]].
Qed.

(** C8 as stated fails: a preprocessor that was given but has a false truth
    value is not applied.  [Predictor(clf, pre)([2])] is [[2]], not [[4]]. *)
Lemma Predictor_falsy_preprocessor_skipped :
  ∃ self, Wrappers.Predictor.__init__ Examples.identity_clf (Some Examples.falsy_doubling) = Ok self ∧
    Wrappers.Predictor.__call__ self Examples.two = Ok Examples.two ∧
    Wrappers.Predictor.__call__ self Examples.two ≠ Ok (Examples.doubled Examples.two).
Proof.
  eexists. split; [reflexivity|]. split; [reflexivity|].
  intros H. vm_compute in H. discriminate H.
Qed.

(** C10.  When the predictor returns a one-dimensional array of [k ≥ 1]
    scores, [np.atleast_2d] makes it one instance of shape [(1, k)] and the
    transformer returns a one-element array: the position of the first
    largest score among all [k]. *)
Theorem ArgmaxTransformer_one_dimensional predictor x (v : list Qc) :
  predictor x = Ok (NP.NDArray [length v] v) →
  v ≠ [] →
  NP.atleast_2d (NP.NDArray [length v] v) = NP.NDArray [1; length v] v ∧
  ∃ i m,
    Wrappers.ArgmaxTransformer.__call__ (Wrappers.ArgmaxTransformer.__init__ predictor) x
      = Ok (NP.NDArray [1] [i]) ∧
    v !! i = Some m ∧
    ∀ j q, v !! j = Some q → (q ≤ m)%Qc ∧ (j < i → (q < m)%Qc).
Proof.
  intros Hp Hv. split; [done|].
  destruct v as [|a v]; [done|].
  destruct (argmax_list_spec a v) as (m & Hm & Hmax).
  exists (NP.argmax_list (a :: v)), m. split; [|done].
  unfold Wrappers.ArgmaxTransformer.__call__, Wrappers.ArgmaxTransformer.__init__; simpl.
  rewrite Hp. simpl.
  change (NP.atleast_2d _) with (NP.NDArray [1; length (a :: v)] (a :: v)).
  by rewrite argmax_axis1_single_row.
Qed.

(** A predictor that returns three scores. *)
Lemma ArgmaxTransformer_one_dimensional_witness :
  ∃ i m,
    Wrappers.ArgmaxTransformer.__call__
      (Wrappers.ArgmaxTransformer.__init__ (fun _ => Ok (NP.NDArray [3] Examples.scores)))
      Examples.two = Ok (NP.NDArray [1] [i]) ∧
    Examples.scores !! i = Some m ∧
    ∀ j q, Examples.scores !! j = Some q → (q ≤ m)%Qc ∧ (j < i → (q < m)%Qc).
Proof.
  apply (ArgmaxTransformer_one_dimensional
           (fun _ => Ok (NP.NDArray [3] Examples.scores)) Examples.two Examples.scores).
  - reflexivity.
  - discriminate.
Defined.

(** ** Matrices as lists of rows *)

Section matrix_facts.
Context {A : Type}.
Implicit Types (d : list A) (L : list (list A)).

Lemma length_chunks n c d : length (NP.chunks n c d) = n.
Proof. revert d. induction n as [|n IH]; intros d; simpl; [done|]. by rewrite IH. Qed.

Lemma chunks_mjoin c L :
  Forall (fun r => length r = c) L → NP.chunks (length L) c (mjoin L) = L.
Proof.
  induction 1 as [|r L Hr _ IH]; simpl; [done|].
  rewrite take_app_length', drop_app_length' by done. by rewrite IH.
Qed.

Lemma mjoin_chunks n c d : length d = n * c → mjoin (NP.chunks n c d) = d.
Proof.
  revert d. induction n as [|n IH]; intros d Hd; simpl.
  - by destruct d.
  - rewrite IH; [apply take_drop|]. rewrite length_drop. lia.
Qed.

Lemma Forall_length_chunks n c d :
  length d = n * c → Forall (fun r => length r = c) (NP.chunks n c d).
Proof.
  revert d. induction n as [|n IH]; intros d Hd; simpl; constructor.
  - rewrite length_take. lia.
  - apply IH. rewrite length_drop. lia.
Qed.

Lemma length_mjoin_uniform c L :
  Forall (fun r => length r = c) L → length (mjoin L) = length L * c.
Proof.
  induction 1 as [|r L Hr _ IH]; simpl; [done|]. rewrite length_app. lia.
Qed.

(** Row [i], column [j] of a matrix stored row after row. *)
Lemma lookup_mjoin_uniform c L i j :
  Forall (fun r => length r = c) L → j < c →
  mjoin L !! (i * c + j) = L !! i ≫= fun r => r !! j.
Proof.
  intros HL Hj. revert i. induction HL as [|r L Hr _ IH]; intros i; simpl; [done|].
  destruct i as [|i]; simpl.
  - rewrite lookup_app_l by lia. done.
  - rewrite lookup_app_r by lia. rewrite <- IH. f_equal. lia.
Qed.

Lemma zip_with_mjoin {B C} (f : A → B → C) L (K : list (list B)) :
  Forall2 (fun r s => length r = length s) L K →
  zip_with f (mjoin L) (mjoin K) = mjoin (zip_with (zip_with f) L K).
Proof.
  induction 1 as [|r s L K Hrs _ IH]; simpl; [done|].
  rewrite zip_with_app by done. by rewrite IH.
Qed.

Lemma bind_fmap_mjoin {B} (f : A → list B) (xs : list A) : mjoin (f <$> xs) = xs ≫= f.
Proof. by rewrite list_join_bind, list_fmap_bind. Qed.

End matrix_facts.

Lemma lookup_bind_uniform {A B} (f : A → list B) (xs : list A) c i j :
  (∀ x, length (f x) = c) → j < c →
  (xs ≫= f) !! (i * c + j) = xs !! i ≫= fun x => f x !! j.
Proof.
  intros Hf Hj. rewrite <- bind_fmap_mjoin.
  rewrite (lookup_mjoin_uniform c).
  - rewrite list_lookup_fmap. by destruct (xs !! i).
  - apply Forall_fmap, Forall_forall. intros x _. apply Hf.
  - done.
Qed.

(** ** Shapes, reshaping and broadcasting *)

Section numpy_facts.
Import NP.

Lemma known_dims_Dim sh : known_dims (Dim <$> sh) = sh.
Proof.
  unfold known_dims. induction sh as [|n sh IH]; [done|].
  rewrite fmap_cons. cbn [omap list_omap]. f_equal. apply IH.
Qed.

Lemma infer_shape_exact total sh :
  size_of sh = total → infer_shape total (Dim <$> sh) = Ok sh.
Proof.
  intros Hs. unfold infer_shape. rewrite known_dims_Dim, length_fmap, Nat.sub_diag.
  by rewrite decide_True.
Qed.

Lemma infer_shape_rows n d : 0 < n → infer_shape (n * d) [Dim n; Infer] = Ok [n; d].
Proof.
  intros Hn. unfold infer_shape; simpl. rewrite Nat.mul_1_r.
  rewrite decide_False.
  - simpl. by rewrite Nat.mul_comm, Nat.div_mul by lia.
  - rewrite Nat.mul_comm, Nat.Div0.mod_mul. lia.
Qed.

Lemma infer_shape_column total : infer_shape total [Infer; Dim 1] = Ok [total; 1].
Proof.
  unfold infer_shape; simpl.
  change (Ok [total `div` 1; 1] = Ok [total; 1]). by rewrite Nat.div_1_r.
Qed.

Lemma infer_shape_classes n d :
  0 < n → infer_shape (n * d) [Dim n; Dim 1; Infer] = Ok [n; 1; d].
Proof.
  intros Hn. unfold infer_shape; simpl. rewrite Nat.mul_1_r.
  rewrite decide_False.
  - simpl. by rewrite Nat.mul_comm, Nat.div_mul by lia.
  - rewrite Nat.mul_comm, Nat.Div0.mod_mul. lia.
Qed.

Lemma broadcast_shapes_rev_same s : broadcast_shapes_rev s s = Ok s.
Proof.
  induction s as [|n s IH]; [done|]. simpl. rewrite IH. simpl.
  by rewrite decide_True.
Qed.

Lemma broadcast_shapes_same s : broadcast_shapes s s = Ok s.
Proof.
  unfold broadcast_shapes. rewrite broadcast_shapes_rev_same. simpl.
  by rewrite reverse_involutive.
Qed.

Lemma broadcast_shapes_scalar s : broadcast_shapes s [] = Ok s.
Proof.
  unfold broadcast_shapes. rewrite reverse_nil.
  destruct (reverse s) as [|n r] eqn:E; simpl.
  - apply (f_equal reverse) in E. rewrite reverse_involutive in E. by subst.
  - by rewrite <- E, reverse_involutive.
Qed.

Lemma broadcast_data_same {A} s (d : list A) :
  length d = size_of s → broadcast_data s s d = d.
Proof.
  revert d. induction s as [|n s IH]; intros d Hd; [done|].
  cbn [broadcast_data]. rewrite decide_False by lia. rewrite decide_True by done.
  simpl in Hd.
  rewrite <- (mjoin_chunks n (size_of s) d) at 2 by done.
  f_equal. apply list_eq. intros i. rewrite list_lookup_fmap.
  pose proof (Forall_length_chunks n (size_of s) d Hd) as Hall.
  destruct (chunks n (size_of s) d !! i) as [r|] eqn:Hr; simpl; [|done].
  f_equal. apply IH. by eapply (Forall_lookup_1 _ _ _ _ Hall).
Qed.

Lemma mjoin_replicate_replicate {A} n m (x : A) :
  mjoin (replicate n (replicate m x)) = replicate (n * m) x.
Proof.
  induction n as [|n IH]; simpl; [done|]. by rewrite IH, replicate_add.
Qed.

Lemma broadcast_data_scalar {A} t (x : A) :
  broadcast_data [] t [x] = replicate (size_of t) x.
Proof.
  induction t as [|m t IH]; [done|].
  cbn [broadcast_data]. rewrite decide_True by (simpl; lia).
  by rewrite IH, mjoin_replicate_replicate.
Qed.

Lemma broadcast_data_lead {A} s m t (d : list A) :
  length s ≤ length t →
  broadcast_data s (m :: t) d = mjoin (replicate m (broadcast_data s t d)).
Proof. intros Hl. cbn [broadcast_data]. by rewrite decide_True by (simpl; lia). Qed.

Lemma broadcast_data_one {A} m (x : A) : broadcast_data [1] [m] [x] = replicate m x.
Proof.
  cbn [broadcast_data]. rewrite decide_False by (simpl; lia).
  destruct (decide (1 = m)) as [<-|Hm]; [done|].
  change (mjoin (replicate m [x])) with (mjoin (replicate m (replicate 1 x))).
  by rewrite mjoin_replicate_replicate, Nat.mul_1_r.
Qed.

Lemma broadcast_shapes_row d : broadcast_shapes [d; d] [d] = Ok [d; d].
Proof.
  unfold broadcast_shapes. cbn [reverse rev_append broadcast_shapes_rev mbind result_bind].
  by rewrite decide_True.
Qed.

Lemma broadcast_shapes_one d : broadcast_shapes [d; d] [1] = Ok [d; d].
Proof.
  unfold broadcast_shapes. cbn [reverse rev_append broadcast_shapes_rev mbind result_bind].
  destruct (decide (d = 1)) as [->|?]; [done|].
  by rewrite decide_True.
Qed.

Lemma binop_same {A B C} (f : A → B → C) (a : ndarray A) (b : ndarray B) :
  shape a = shape b → wf a → wf b →
  binop f a b = Ok (NDArray (shape a) (zip_with f (data a) (data b))).
Proof.
  unfold wf, binop. intros E Ha Hb. rewrite <- E, broadcast_shapes_same. simpl.
  rewrite !broadcast_data_same by congruence. done.
Qed.

Lemma binop_scalar {A B C} (f : A → B → C) (a : ndarray A) (y : B) :
  wf a →
  binop f a (scalar y) = Ok (NDArray (shape a) ((fun x => f x y) <$> data a)).
Proof.
  unfold wf, binop. intros Ha. simpl. rewrite broadcast_shapes_scalar. simpl.
  rewrite broadcast_data_same, broadcast_data_scalar by done.
  by rewrite zip_with_replicate_r by lia.
Qed.

Lemma div_scalar (a : ndarray Qc) (y : Qc) :
  wf a → y ≠ 0%Qc →
  div a (scalar y) = Ok (NDArray (shape a) ((fun x => x / y)%Qc <$> data a)).
Proof.
  unfold wf, div. intros Ha Hy. simpl. rewrite broadcast_shapes_scalar. simpl.
  rewrite broadcast_data_same, broadcast_data_scalar by done.
  rewrite decide_False.
  - by rewrite zip_with_replicate_r by lia.
  - rewrite Exists_exists. intros (q & Hq%elem_of_replicate & ->). by destruct Hq.
Qed.

Lemma reshape_exact {A} (a : ndarray A) sh :
  size_of sh = size_of (shape a) → reshape a (Dim <$> sh) = Ok (NDArray sh (data a)).
Proof. intros E. unfold reshape. by rewrite infer_shape_exact. Qed.

Lemma reshape_rows {A} n F (d : list A) :
  0 < n → reshape (NDArray (n :: F) d) [Dim n; Infer] = Ok (NDArray [n; size_of F] d).
Proof.
  intros Hn. unfold reshape. cbn [shape data].
  change (size_of (n :: F)) with (n * size_of F). by rewrite infer_shape_rows.
Qed.

Lemma reshape_to_rows {A} (a : ndarray A) n d :
  0 < n → size_of (shape a) = n * d →
  reshape a [Dim n; Infer] = Ok (NDArray [n; d] (data a)).
Proof. intros Hn E. unfold reshape. by rewrite E, infer_shape_rows. Qed.

Lemma reshape_column {A} (a : ndarray A) :
  reshape a [Infer; Dim 1] = Ok (NDArray [size_of (shape a); 1] (data a)).
Proof. unfold reshape. by rewrite infer_shape_column. Qed.

End numpy_facts.

(** ** Square matrices given by their entries *)

Section square_facts.
Import NP.
Context {A : Type}.
Implicit Types p q : nat → nat → A.

Lemma length_matrix n p : length (matrix n p) = n.
Proof. unfold matrix. by rewrite length_fmap, length_seq. Qed.

Lemma Forall_length_matrix n p : Forall (fun r => length r = n) (matrix n p).
Proof.
  unfold matrix. apply Forall_fmap, Forall_forall. intros i _. simpl.
  by rewrite length_fmap, length_seq.
Qed.

Lemma length_mjoin_matrix n p : length (mjoin (matrix n p)) = n * n.
Proof.
  rewrite (length_mjoin_uniform n) by apply Forall_length_matrix.
  by rewrite length_matrix.
Qed.

Lemma lookup_matrix n p i : i < n → matrix n p !! i = Some (p i <$> seq 0 n).
Proof.
  intros Hi. unfold matrix. rewrite list_lookup_fmap, lookup_seq_lt by done. done.
Qed.

End square_facts.

Lemma fmap_mjoin {A B} (g : A → B) (L : list (list A)) :
  g <$> mjoin L = mjoin (fmap g <$> L).
Proof. induction L as [|r L IH]; simpl; [done|]. by rewrite fmap_app, IH. Qed.

Lemma fmap_matrix {A B} (g : A → B) n (p : nat → nat → A) :
  g <$> mjoin (NP.matrix n p) = mjoin (NP.matrix n (fun i j => g (p i j))).
Proof.
  rewrite fmap_mjoin. f_equal. unfold NP.matrix.
  rewrite <- list_fmap_compose. apply list_fmap_ext. intros _ i _. simpl.
  by rewrite <- list_fmap_compose.
Qed.

Lemma zip_with_matrix {A B C} (g : A → B → C) n (p : nat → nat → A) (q : nat → nat → B) :
  zip_with g (mjoin (NP.matrix n p)) (mjoin (NP.matrix n q))
  = mjoin (NP.matrix n (fun i j => g (p i j) (q i j))).
Proof.
  rewrite zip_with_mjoin.
  - f_equal. unfold NP.matrix.
    rewrite zip_with_fmap_l, zip_with_fmap_r, zip_with_diag.
    apply list_fmap_ext. intros _ i _.
    by rewrite zip_with_fmap_l, zip_with_fmap_r, zip_with_diag.
  - apply Forall2_same_length_lookup. split.
    + by rewrite !length_matrix.
    + intros i r s Hr Hs.
      pose proof (Forall_length_matrix n p) as Hp.
      pose proof (Forall_length_matrix n q) as Hq.
      rewrite (Forall_lookup_1 _ _ _ _ Hp Hr), (Forall_lookup_1 _ _ _ _ Hq Hs). done.
Qed.

Lemma ones_matrix n : replicate (n * n) 1%Qc = mjoin (NP.matrix n (fun _ _ => 1%Qc)).
Proof.
  rewrite <- mjoin_replicate_replicate. f_equal. unfold NP.matrix.
  apply list_eq. intros i.
  destruct (decide (i < n)) as [Hi|Hi].
  - rewrite lookup_replicate_2, list_lookup_fmap, lookup_seq_lt by done. simpl.
    f_equal. apply list_eq. intros j.
    destruct (decide (j < n)) as [Hj|Hj].
    + by rewrite lookup_replicate_2, list_lookup_fmap, lookup_seq_lt by done.
    + rewrite !lookup_ge_None_2; [done| |]; rewrite ?length_fmap, ?length_seq, ?length_replicate; lia.
  - rewrite !lookup_ge_None_2; [done| |]; rewrite ?length_fmap, ?length_seq, ?length_replicate; lia.
Qed.

(** ** [perturb] *)

Section perturb_facts.
Import NP Gradients.

Lemma repeat_tile_lengths {A B} d (xs : list (list A)) (M : list (list B)) :
  Forall (fun x => length x = d) xs →
  Forall (fun r => length r = d) M →
  length M = d →
  Forall2 (fun r s => length r = length s)
    ((fun x => mjoin (replicate d x)) <$> xs) (replicate (length xs) (mjoin M)).
Proof.
  intros Hxs HM HlM.
  apply Forall2_same_length_lookup. split.
  - by rewrite length_fmap, length_replicate.
  - intros i r s Hr Hs.
    apply lookup_replicate in Hs as [-> _].
    rewrite list_lookup_fmap in Hr.
    destruct (xs !! i) as [x|] eqn:Hx; [|done].
    injection Hr as <-.
    rewrite (length_mjoin_uniform d)
      by (by apply Forall_replicate, (Forall_lookup_1 _ _ _ _ Hxs Hx)).
    rewrite (length_mjoin_uniform d) by done.
    by rewrite length_replicate, HlM.
Qed.

(** The rows of [X] repeated [d] times each, against the matrix [M] tiled
    once per row: block [i] pairs row [i] of [X] with every row of [M]. *)
Lemma repeat_tile_rows (g : Qc → Qc → Qc) d (xs M : list (list Qc)) :
  Forall (fun x => length x = d) xs →
  Forall (fun r => length r = d) M →
  length M = d →
  zip_with g (mjoin ((fun x => mjoin (replicate d x)) <$> xs))
             (mjoin (replicate (length xs) (mjoin M)))
  = mjoin (xs ≫= fun x => zip_with g x <$> M).
Proof.
  intros Hxs HM HlM.
  rewrite zip_with_mjoin by (by apply repeat_tile_lengths).
  induction Hxs as [|x xs Hx Hxs IH]; [done|].
  rewrite fmap_cons, bind_cons, join_app. cbn [length replicate zip_with].
  cbn [mjoin list_join]. f_equal; [|apply IH].
  rewrite zip_with_mjoin.
  - f_equal. rewrite <- HlM. by rewrite zip_with_replicate_l.
  - apply Forall2_replicate_l; [done|].
    eapply Forall_impl; [apply HM|]. simpl. intros r Hr. congruence.
Qed.

Lemma Forall_length_perturbed (g : Qc → Qc → Qc) d (xs M : list (list Qc)) :
  Forall (fun x => length x = d) xs →
  Forall (fun r => length r = d) M →
  Forall (fun r => length r = d) (xs ≫= fun x => zip_with g x <$> M).
Proof.
  intros Hxs HM. apply Forall_bind. eapply Forall_impl; [apply Hxs|].
  simpl. intros x Hx. apply Forall_fmap. eapply Forall_impl; [apply HM|].
  simpl. intros r Hr. rewrite length_zip_with. lia.
Qed.

Lemma length_perturbed {A B} (f : A → B → B) (xs : list A) (M : list B) :
  length (xs ≫= fun x => f x <$> M) = length xs * length M.
Proof.
  induction xs as [|x xs IH]; [done|].
  rewrite bind_cons, length_app, length_fmap, IH. simpl. lia.
Qed.

(** From [X_rep = np.repeat(X, dim, axis=0)] to the end of [perturb], for a
    perturbation matrix [M] tiled over the batch. *)
Lemma perturb_tail n d F (dX : list Qc) (M : list (list Qc)) :
  size_of F = d →
  length dX = n * d →
  Forall (fun r => length r = d) M →
  length M = d →
  (X_rep ← repeat (NDArray [n; d] dX) d;
   X_pert_pos ← add X_rep (NDArray [n * d; d] (mjoin (replicate n (mjoin M))));
   X_pert_neg ← sub X_rep (NDArray [n * d; d] (mjoin (replicate n (mjoin M))));
   X_pert_pos ← reshape X_pert_pos (Dim <$> (d * n :: F));
   X_pert_neg ← reshape X_pert_neg (Dim <$> (d * n :: F));
   mret (X_pert_pos, X_pert_neg))
  = Ok (NDArray (d * n :: F) (mjoin (chunks n d dX ≫= fun x => zip_with Qcplus x <$> M)),
        NDArray (d * n :: F) (mjoin (chunks n d dX ≫= fun x => zip_with Qcminus x <$> M))).
Proof.
  intros HF HdX HM HlM.
  pose proof (Forall_length_chunks n d dX HdX) as Hxs.
  pose proof (length_chunks n d dX) as Hn.
  unfold repeat. cbn [shape data size_of foldr]. rewrite Nat.mul_1_r.
  cbn [mbind result_bind].
  assert (∀ g : Qc → Qc → Qc, binop g
      (NDArray [n * d; d] (mjoin ((fun r => mjoin (replicate d r)) <$> chunks n d dX)))
      (NDArray [n * d; d] (mjoin (replicate n (mjoin M))))
    = Ok (NDArray [n * d; d] (mjoin (chunks n d dX ≫= fun x => zip_with g x <$> M)))) as Hop.
  { intros g. rewrite binop_same; [| done | |].
    - cbn [shape data]. do 2 f_equal.
      rewrite <- Hn at 2. by apply repeat_tile_rows.
    - unfold wf. cbn [shape data size_of foldr].
      rewrite (length_mjoin_uniform (d * d)).
      + rewrite length_fmap, Hn. lia.
      + apply Forall_fmap. eapply Forall_impl; [apply Hxs|]. simpl. intros x Hx.
        rewrite (length_mjoin_uniform d) by (by apply Forall_replicate).
        by rewrite length_replicate.
    - unfold wf. cbn [shape data size_of foldr].
      rewrite (length_mjoin_uniform (d * d)).
      + rewrite length_replicate. lia.
      + apply Forall_replicate. rewrite (length_mjoin_uniform d) by done. by rewrite HlM. }
  unfold add, sub. rewrite !Hop. cbn [mbind result_bind].
  unfold reshape. cbn [shape data].
  rewrite infer_shape_exact by (simpl; rewrite HF; lia).
  done.
Qed.

Lemma wf_eye d : wf (eye d).
Proof. unfold wf, eye. cbn [shape data size_of foldr]. rewrite length_mjoin_matrix. lia. Qed.

Lemma zip_with_tiled {A B C} (g : A → B → C) n (a : list A) (b : list B) :
  length a = length b →
  zip_with g (mjoin (replicate n a)) (mjoin (replicate n b))
  = mjoin (replicate n (zip_with g a b)).
Proof.
  intros E. induction n as [|n IH]; [done|].
  cbn [replicate mjoin list_join]. rewrite zip_with_app by done. f_equal. apply IH.
Qed.

(** The perturbation matrix [np.eye(dim) * eps] for a scalar step. *)
Lemma mul_eye_scalar d e :
  mul (eye d) (as_array (Scalar e))
  = Ok (NDArray [d; d] (mjoin (matrix d (fun i j => delta i j * e)%Qc))).
Proof.
  unfold mul. cbn [as_array]. rewrite binop_scalar by apply wf_eye.
  cbn [eye shape data]. by rewrite fmap_matrix.
Qed.

Lemma replicate_rows_matrix d (v : list Qc) :
  length v = d → replicate d v = matrix d (fun _ j => default 0%Qc (v !! j)).
Proof.
  intros Hv. apply list_eq. intros i.
  destruct (decide (i < d)) as [Hi|Hi].
  - rewrite lookup_replicate_2, lookup_matrix by done. f_equal.
    apply list_eq. intros j. rewrite list_lookup_fmap.
    destruct (decide (j < d)) as [Hj|Hj].
    + rewrite lookup_seq_lt by done. simpl.
      destruct (lookup_lt_is_Some_2 v j) as [q Hq]; [lia|]. by rewrite Hq.
    + rewrite lookup_seq_ge by lia. apply lookup_ge_None_2. lia.
  - rewrite !lookup_ge_None_2; [done| |]; rewrite ?length_matrix, ?length_replicate; lia.
Qed.

(** The same for every step that fits: column [j] of the identity is scaled
    by the step of feature [j]. *)
Lemma mul_eye_step d eps :
  Spec.step_fits eps d →
  mul (eye d) (as_array eps)
  = Ok (NDArray [d; d] (mjoin (matrix d (fun i j => delta i j * Spec.step_at eps d j)%Qc))).
Proof.
  destruct eps as [e|v]; [intros _; apply mul_eye_scalar|].
  cbn [Spec.step_fits Spec.step_at as_array]. intros Hv.
  unfold mul, binop. cbn [eye shape data].
  destruct (decide (length v = d)) as [E|E].
  - rewrite E, broadcast_shapes_row. cbn [mbind result_bind mret result_ret].
    rewrite broadcast_data_same
      by (rewrite length_mjoin_matrix; cbn [size_of foldr]; lia).
    rewrite broadcast_data_lead by done.
    rewrite broadcast_data_same by (cbn [size_of foldr]; lia).
    by rewrite (replicate_rows_matrix d v E), zip_with_matrix.
  - destruct Hv as [Hv|Hv]; [done|].
    destruct v as [|e [|? ?]]; try discriminate Hv. cbn [length] in E |- *.
    rewrite broadcast_shapes_one. cbn [mbind result_bind mret result_ret].
    rewrite broadcast_data_same
      by (rewrite length_mjoin_matrix; cbn [size_of foldr]; lia).
    rewrite broadcast_data_lead by done.
    rewrite broadcast_data_one, mjoin_replicate_replicate.
    rewrite zip_with_replicate_r by (rewrite length_mjoin_matrix; lia).
    cbn [lookup list_lookup default]. by rewrite fmap_matrix.
Qed.

(** The correction [(np.eye(dim) - np.ones((dim, dim))) * eps_n]. *)
Lemma correction_scalar d e :
  (c ← sub (eye d) (ones d d); mul c (as_array (Scalar e)))
  = Ok (NDArray [d; d] (mjoin (matrix d (fun i j => (delta i j - 1) * e)%Qc))).
Proof.
  unfold sub. rewrite binop_same; [|done|apply wf_eye|].
  - cbn [eye ones shape data mbind result_bind].
    rewrite ones_matrix, zip_with_matrix.
    unfold mul. cbn [as_array]. rewrite binop_scalar.
    + cbn [shape data]. by rewrite fmap_matrix.
    + unfold wf. cbn [shape data size_of foldr]. rewrite length_mjoin_matrix. lia.
  - unfold wf, ones. cbn [shape data size_of foldr]. rewrite length_replicate. lia.
Qed.

(** What [perturb] returns without and with the probability correction:
    instance [x] gives the rows [x + m] and [x - m] for every row [m] of the
    perturbation matrix. *)
Lemma perturb_step n F (dX : list Qc) eps :
  0 < n → length dX = n * size_of F → Spec.step_fits eps (size_of F) →
  perturb (NDArray (n :: F) dX) eps false
  = Ok (NDArray (size_of F * n :: F)
          (mjoin (chunks n (size_of F) dX ≫= fun x =>
                    zip_with Qcplus x <$> matrix (size_of F) (fun i j =>
                      delta i j * Spec.step_at eps (size_of F) j)%Qc)),
        NDArray (size_of F * n :: F)
          (mjoin (chunks n (size_of F) dX ≫= fun x =>
                    zip_with Qcminus x <$> matrix (size_of F) (fun i j =>
                      delta i j * Spec.step_at eps (size_of F) j)%Qc))).
Proof.
  intros Hn HdX Heps. set (d := size_of F) in *.
  unfold perturb. cbn [shape shape_getitem lookup list_lookup mbind result_bind].
  rewrite reshape_rows by done. fold d.
  cbn [mbind result_bind mret result_ret shape shape_getitem lookup list_lookup].
  rewrite mul_eye_step by done. cbn [mbind result_bind tail].
  apply perturb_tail; [done | done | apply Forall_length_matrix | apply length_matrix].
Qed.

Lemma perturb_scalar n F (dX : list Qc) e :
  0 < n → length dX = n * size_of F →
  perturb (NDArray (n :: F) dX) (Scalar e) false
  = Ok (NDArray (size_of F * n :: F)
          (mjoin (chunks n (size_of F) dX ≫= fun x =>
                    zip_with Qcplus x <$> matrix (size_of F) (fun i j => delta i j * e)%Qc)),
        NDArray (size_of F * n :: F)
          (mjoin (chunks n (size_of F) dX ≫= fun x =>
                    zip_with Qcminus x <$> matrix (size_of F) (fun i j => delta i j * e)%Qc))).
Proof. intros Hn HdX. by apply (perturb_step n F dX (Scalar e)). Qed.

Lemma perturb_scalar_proba n F (dX : list Qc) e :
  0 < n → length dX = n * size_of F → size_of F ≠ 1 →
  perturb (NDArray (n :: F) dX) (Scalar e) true
  = Ok (NDArray (size_of F * n :: F)
          (mjoin (chunks n (size_of F) dX ≫= fun x =>
                    zip_with Qcplus x <$> matrix (size_of F) (fun i j =>
                      delta i j * e + (delta i j - 1) * (e / of_int (Z.of_nat (size_of F) - 1)))%Qc)),
        NDArray (size_of F * n :: F)
          (mjoin (chunks n (size_of F) dX ≫= fun x =>
                    zip_with Qcminus x <$> matrix (size_of F) (fun i j =>
                      delta i j * e + (delta i j - 1) * (e / of_int (Z.of_nat (size_of F) - 1)))%Qc))).
Proof.
  intros Hn HdX Hd. set (d := size_of F) in *.
  unfold perturb. cbn [shape shape_getitem lookup list_lookup mbind result_bind].
  rewrite reshape_rows by done. fold d.
  cbn [mbind result_bind mret result_ret shape shape_getitem lookup list_lookup].
  rewrite mul_eye_scalar. cbn [mbind result_bind tail].
  unfold step_div. rewrite decide_False by lia. cbn [mbind result_bind].
  pose proof (correction_scalar d (e / of_int (Z.of_nat d - 1))%Qc) as Hc.
  destruct (sub (eye d) (ones d d)) as [c|]; [|done].
  cbn [mbind result_bind] in Hc |- *. rewrite Hc. cbn [mbind result_bind].
  unfold iadd, add, tile. cbn [shape data tile_shape tile_data].
  rewrite binop_same; [|done| |].
  - cbn [shape data mbind result_bind]. rewrite decide_True by done.
    cbn [mbind result_bind].
    rewrite zip_with_tiled by (by rewrite !length_mjoin_matrix).
    rewrite zip_with_matrix.
    apply perturb_tail; [done | done | apply Forall_length_matrix | apply length_matrix].
  - unfold wf. cbn [shape data size_of foldr].
    rewrite (length_mjoin_uniform (d * d)) by (apply Forall_replicate, length_mjoin_matrix).
    rewrite length_replicate. lia.
  - unfold wf. cbn [shape data size_of foldr].
    rewrite (length_mjoin_uniform (d * d)) by (apply Forall_replicate, length_mjoin_matrix).
    rewrite length_replicate. lia.
Qed.

End perturb_facts.

(** ** Rows of the perturbed batches *)

Section perturbed_rows.
Import NP Gradients Spec.

Lemma zip_with_entries (g : Qc → Qc → Qc) (x : list Qc) d (p : nat → Qc) :
  length x = d → zip_with g x (p <$> seq 0 d) = imap (fun c q => g q (p c)) x.
Proof.
  intros Hx. apply list_eq. intros c.
  rewrite lookup_zip_with, list_lookup_imap, list_lookup_fmap.
  destruct (x !! c) as [q|] eqn:Hq; simpl; [|done].
  apply lookup_lt_Some in Hq. by rewrite lookup_seq_lt by lia.
Qed.

Lemma bump_plus j (st : nat → Qc) (x : list Qc) :
  zip_with Qcplus x ((fun c => delta j c * st c)%Qc <$> seq 0 (length x)) = bump j (st j) x.
Proof.
  rewrite zip_with_entries by done. unfold bump. apply imap_ext.
  intros c q _. simpl. unfold delta.
  destruct (decide (j = c)) as [->|Hne].
  - rewrite decide_True by done. ring.
  - rewrite decide_False by done. ring.
Qed.

Lemma bump_minus j (st : nat → Qc) (x : list Qc) :
  zip_with Qcminus x ((fun c => delta j c * st c)%Qc <$> seq 0 (length x))
  = bump j (- st j) x.
Proof.
  rewrite zip_with_entries by done. unfold bump. apply imap_ext.
  intros c q _. simpl. unfold delta.
  destruct (decide (j = c)) as [->|Hne].
  - rewrite decide_True by done. ring.
  - rewrite decide_False by done. ring.
Qed.

Lemma bump_difference j e (x : list Qc) :
  zip_with Qcminus (bump j e x) (bump j (- e) x) = spike (length x) j (2 * e).
Proof.
  unfold bump, spike. apply list_eq. intros c.
  rewrite lookup_zip_with, !list_lookup_imap, list_lookup_fmap.
  destruct (x !! c) as [q|] eqn:Hq; simpl.
  - apply lookup_lt_Some in Hq. rewrite lookup_seq_lt by lia. simpl. f_equal.
    destruct (decide (c = j)); ring.
  - apply lookup_ge_None in Hq. by rewrite lookup_seq_ge by lia.
Qed.

(** The rows of an array made of [n * d] rows of length [d]. *)
Lemma rows_mjoin (L : list (list Qc)) m F :
  length L = m → Forall (fun r => length r = size_of F) L →
  rows (NDArray (m :: F) (mjoin L)) = L.
Proof.
  intros <- HL. unfold rows. cbn [shape data]. by apply chunks_mjoin.
Qed.

(** Row [i * d + j] of a perturbed batch: instance [i] combined with row [j]
    of the perturbation matrix. *)
Lemma lookup_perturbed (g : Qc → Qc → Qc) (xs : list (list Qc)) d p i j x :
  xs !! i = Some x → j < d →
  (xs ≫= fun x => zip_with g x <$> matrix d p) !! (i * d + j)
  = Some (zip_with g x (p j <$> seq 0 d)).
Proof.
  intros Hx Hj.
  rewrite (lookup_bind_uniform _ xs d)
    by (done || (intros; by rewrite length_fmap, length_matrix)).
  rewrite Hx. simpl. by rewrite list_lookup_fmap, lookup_matrix.
Qed.

End perturbed_rows.

(** C4.  For a batch [X] of shape [(N, *F)] with [N ≥ 1] instances and [D]
    features each, and a step [eps] (a scalar, or an array with one step per
    feature), [perturb(X, eps, proba=False)] returns two arrays of shape
    [(N·D, *F)]; row [i·D + j] of the first is instance [i] with feature [j]
    increased by the step, row [i·D + j] of the second is instance [i] with
    feature [j] decreased by the step, all other features unchanged, and
    their difference is twice the step at index [j] and 0 elsewhere. *)
Theorem perturb_rows (X : NP.ndarray Qc) n F (eps : Gradients.step) :
  NP.shape X = n :: F → NP.wf X → 0 < n →
  Spec.step_fits eps (NP.size_of F) →
  ∃ X_pert_pos X_pert_neg,
    Gradients.perturb X eps false = Ok (X_pert_pos, X_pert_neg) ∧
    NP.shape X_pert_pos = n * NP.size_of F :: F ∧
    NP.shape X_pert_neg = n * NP.size_of F :: F ∧
    NP.wf X_pert_pos ∧ NP.wf X_pert_neg ∧
    ∀ i j x, NP.rows X !! i = Some x → j < NP.size_of F →
      NP.rows X_pert_pos !! (i * NP.size_of F + j)
        = Some (Spec.bump j (Spec.step_at eps (NP.size_of F) j) x) ∧
      NP.rows X_pert_neg !! (i * NP.size_of F + j)
        = Some (Spec.bump j (- Spec.step_at eps (NP.size_of F) j) x) ∧
      zip_with Qcminus (Spec.bump j (Spec.step_at eps (NP.size_of F) j) x)
                       (Spec.bump j (- Spec.step_at eps (NP.size_of F) j) x)
        = Spec.spike (NP.size_of F) j (2 * Spec.step_at eps (NP.size_of F) j).
Proof.
  destruct X as [sh dX]. unfold NP.wf. cbn [NP.shape NP.data]. intros -> HdX Hn Heps.
  change (NP.size_of (n :: F)) with (n * NP.size_of F) in HdX.
  set (d := NP.size_of F) in *.
  pose proof (Forall_length_chunks n d dX HdX) as Hxs.
  pose proof (length_chunks n d dX) as Hlen.
  eexists _, _. split; [by apply perturb_step|].
  cbn [NP.shape NP.data]. fold d.
  assert (∀ g : Qc → Qc → Qc, ∀ p,
    length (NP.chunks n d dX ≫= fun x => zip_with g x <$> NP.matrix d p) = d * n) as Hl.
  { intros g p. rewrite length_perturbed, Hlen, length_matrix. lia. }
  assert (∀ g : Qc → Qc → Qc, ∀ p,
    Forall (fun r => length r = d)
      (NP.chunks n d dX ≫= fun x => zip_with g x <$> NP.matrix d p)) as Hf.
  { intros g p. apply Forall_length_perturbed; [done | apply Forall_length_matrix]. }
  split; [f_equal; lia|]. split; [f_equal; lia|].
  split; [|split].
  - unfold NP.wf. cbn [NP.shape NP.data].
    rewrite (length_mjoin_uniform d), Hl by apply Hf.
    change (NP.size_of (d * n :: F)) with (d * n * d). done.
  - unfold NP.wf. cbn [NP.shape NP.data].
    rewrite (length_mjoin_uniform d), Hl by apply Hf.
    change (NP.size_of (d * n :: F)) with (d * n * d). done.
  - intros i j x Hx Hj. unfold NP.rows in Hx. cbn [NP.shape NP.data] in Hx. fold d in Hx.
    assert (length x = d) as Hlx by (by eapply (Forall_lookup_1 _ _ _ _ Hxs)).
    rewrite !rows_mjoin by (apply Hl || apply Hf).
    rewrite !(lookup_perturbed _ _ d _ i j x Hx Hj).
    rewrite <- Hlx.
    rewrite (bump_plus j (Spec.step_at eps (length x))).
    rewrite (bump_minus j (Spec.step_at eps (length x))).
    by rewrite bump_difference.
Qed.

(** ** Row totals *)

Section totals.
Import NP Gradients Spec.

Lemma of_int_add a b : of_int (a + b) = (of_int a + of_int b)%Qc.
Proof.
  unfold of_int. apply Qc_is_canon. simpl.
  rewrite !Qred_correct, inject_Z_plus. apply Qeq_refl.
Qed.

Lemma of_int_nonzero z : z ≠ 0%Z → of_int z ≠ 0%Qc.
Proof.
  intros Hz E. unfold of_int in E. apply (f_equal this) in E. simpl in E.
  assert (Qred (inject_Z z) == Qred 0)%Q as E' by (by rewrite E).
  rewrite !Qred_correct in E'. unfold Qeq in E'. simpl in E'. lia.
Qed.

Lemma of_nat_S n : of_nat (S n) = (of_nat n + 1)%Qc.
Proof. unfold of_nat. rewrite Nat2Z.inj_succ. unfold Z.succ. by rewrite of_int_add. Qed.

Lemma of_nat_0 : of_nat 0 = 0%Qc.
Proof. by apply Qc_is_canon. Qed.

Lemma total_zip_plus (x m : list Qc) :
  length x = length m → total (zip_with Qcplus x m) = (total x + total m)%Qc.
Proof.
  revert m. induction x as [|q x IH]; intros [|r m] Hl; simplify_eq/=; [ring|].
  change (foldr Qcplus 0%Qc (zip_with Qcplus x m)) with (total (zip_with Qcplus x m)).
  rewrite IH by done. unfold total. ring.
Qed.

Lemma total_zip_minus (x m : list Qc) :
  length x = length m → total (zip_with Qcminus x m) = (total x - total m)%Qc.
Proof.
  revert m. induction x as [|q x IH]; intros [|r m] Hl; simplify_eq/=; [ring|].
  change (foldr Qcplus 0%Qc (zip_with Qcminus x m)) with (total (zip_with Qcminus x m)).
  rewrite IH by done. unfold total. ring.
Qed.

(** A stretch of a row away from index [j]: [b] everywhere. *)
Lemma total_constant (b : Qc) j s d :
  ¬ (s ≤ j < s + d) →
  total ((fun c => if decide (j = c) then 0%Qc else b) <$> seq s d) = (of_nat d * b)%Qc.
Proof.
  revert s. induction d as [|d IH]; intros s Hj.
  - simpl. rewrite of_nat_0. ring.
  - cbn [seq fmap list_fmap total foldr].
    change (foldr Qcplus 0%Qc ?l) with (total l).
    rewrite decide_False by lia.
    fold (fmap (M:=list) (fun c => if decide (j = c) then 0%Qc else b)).
    rewrite IH by lia. rewrite of_nat_S. ring.
Qed.

(** A row that is [a] at index [j] and [b] elsewhere. *)
Lemma total_one_off (a b : Qc) j s d :
  s ≤ j < s + d →
  total ((fun c => if decide (j = c) then a else b) <$> seq s d)
  = (a + (of_nat d - 1) * b)%Qc.
Proof.
  revert s. induction d as [|d IH]; intros s Hj; [lia|].
  cbn [seq fmap list_fmap total foldr].
  change (foldr Qcplus 0%Qc ?l) with (total l).
  fold (fmap (M:=list) (fun c => if decide (j = c) then a else b)).
  destruct (decide (j = s)) as [->|Hne].
  - rewrite (list_fmap_ext _ (fun c => if decide (s = c) then 0%Qc else b)).
    + rewrite total_constant by lia. rewrite of_nat_S. ring.
    + intros i c Hc%lookup_seq. simpl. by rewrite !decide_False by lia.
  - rewrite IH by lia. rewrite of_nat_S. ring.
Qed.

(** Row [j] of the probability-preserving perturbation matrix sums to 0. *)
Lemma total_proba_row d j (e : Qc) :
  1 < d → j < d →
  total ((fun c => delta j c * e + (delta j c - 1) * (e / of_int (Z.of_nat d - 1)))%Qc
         <$> seq 0 d) = 0%Qc.
Proof.
  intros Hd Hj.
  assert (of_int (Z.of_nat d - 1) ≠ 0%Qc) as Hk by (apply of_int_nonzero; lia).
  rewrite (list_fmap_ext _
    (fun c => if decide (j = c) then e else (- (e / of_int (Z.of_nat d - 1)))%Qc)).
  - rewrite total_one_off by lia.
    replace (of_nat d - 1)%Qc with (of_int (Z.of_nat d - 1)).
    + field. done.
    + unfold of_nat. replace (Z.of_nat d - 1)%Z with (Z.of_nat d + -1)%Z by lia.
      rewrite of_int_add. unfold Qcminus. by f_equal.
  - intros _ c _. simpl. unfold delta. destruct (decide (j = c)); ring.
Qed.

End totals.

(** C5.  For a batch [X] of shape [(N, *F)] with [N ≥ 1] and more than one
    feature, and a scalar step, every row of the two arrays returned by
    [perturb(X, eps, proba=True)] has the same total as the instance it was
    made from: row [k] comes from instance [k div D]. *)
Theorem perturb_proba_totals (X : NP.ndarray Qc) n F (eps : Qc) :
  NP.shape X = n :: F → NP.wf X → 0 < n → 1 < NP.size_of F →
  ∃ X_pert_pos X_pert_neg,
    Gradients.perturb X (Gradients.Scalar eps) true = Ok (X_pert_pos, X_pert_neg) ∧
    NP.shape X_pert_pos = n * NP.size_of F :: F ∧
    NP.shape X_pert_neg = n * NP.size_of F :: F ∧
    ∀ k, k < n * NP.size_of F →
      ∃ x row_pos row_neg,
        NP.rows X !! (k `div` NP.size_of F) = Some x ∧
        NP.rows X_pert_pos !! k = Some row_pos ∧
        NP.rows X_pert_neg !! k = Some row_neg ∧
        Spec.total row_pos = Spec.total x ∧
        Spec.total row_neg = Spec.total x.
Proof.
  destruct X as [sh dX]. unfold NP.wf. cbn [NP.shape NP.data]. intros -> HdX Hn Hd.
  change (NP.size_of (n :: F)) with (n * NP.size_of F) in HdX.
  set (d := NP.size_of F) in *.
  pose proof (Forall_length_chunks n d dX HdX) as Hxs.
  pose proof (length_chunks n d dX) as Hlen.
  eexists _, _. split; [apply perturb_scalar_proba; [done | done | fold d; lia]|].
  cbn [NP.shape NP.data]. fold d.
  split; [f_equal; lia|]. split; [f_equal; lia|].
  intros k Hk.
  assert (k `div` d < n) as Hi by (apply Nat.Div0.div_lt_upper_bound; lia).
  assert (k `mod` d < d) as Hj by (apply Nat.mod_upper_bound; lia).
  destruct (lookup_lt_is_Some_2 (NP.chunks n d dX) (k `div` d)) as [x Hx]; [lia|].
  assert (length x = d) as Hlx by (by eapply (Forall_lookup_1 _ _ _ _ Hxs)).
  exists x. eexists _, _.
  unfold NP.rows at 1. cbn [NP.shape NP.data]. fold d. split; [done|].
  rewrite !rows_mjoin;
    try (apply Forall_length_perturbed; [done | apply Forall_length_matrix]);
    try (rewrite length_perturbed, Hlen, length_matrix; lia).
  replace k with (k `div` d * d + k `mod` d) at 1 2
    by (rewrite (Nat.div_mod k d) at 3 by lia; lia).
  rewrite !(lookup_perturbed _ _ d _ _ _ x Hx Hj).
  split; [done|]. split; [done|].
  rewrite total_zip_plus, total_zip_minus by (by rewrite length_fmap, length_seq).
  rewrite total_proba_row by done. split; ring.
Qed.

(** ** Fortran-order reshape of a single-output numerator *)

Section reshape_F_facts.
Import NP.

Lemma omap_ext_Forall {A B} (f g : A → option B) (l : list A) :
  Forall (fun x => f x = g x) l → omap f l = omap g l.
Proof.
  induction 1 as [|x l E _ IH]; [done|].
  cbn [omap list_omap]. rewrite E.
  fold (omap f l) (omap g l). by rewrite IH.
Qed.

(** With one class the Fortran offsets of shape [(n, d)] and of shape
    [(n, 1, d)] address the same elements. *)
Lemma single_class_offset n d k :
  k < n * d →
  ravel_C [n; d] (unravel_F [n; d] (ravel_F [n; 1; d] (unravel_C [n; 1; d] k))) = k.
Proof.
  intros Hk. assert (0 < d ∧ 0 < n) as [Hd Hn] by lia.
  cbn [unravel_C ravel_C unravel_F ravel_F size_of foldr].
  rewrite !Nat.mul_1_r, !Nat.mul_1_l, !Nat.add_0_r, Nat.mul_0_r, !Nat.add_0_r, Nat.div_1_r.
  rewrite Nat.Div0.mod_mod, (Nat.div_small (k `mod` d) d) by (apply Nat.mod_upper_bound; lia).
  rewrite Nat.add_0_l.
  assert (k `div` d < n) as Ha by (apply Nat.Div0.div_lt_upper_bound; lia).
  assert (k `mod` d < d) as Hc by (apply Nat.mod_upper_bound; lia).
  rewrite (Nat.mul_comm n (k `mod` d)).
  rewrite Nat.Div0.mod_add, Nat.div_add by lia.
  rewrite (Nat.mod_small (k `div` d) n), (Nat.div_small (k `div` d) n) by done.
  rewrite Nat.add_0_l, (Nat.mod_small (k `mod` d) d) by done.
  rewrite (Nat.div_mod k d) at 3 by lia. lia.
Qed.

Lemma reshape_F_single_class {A} n d (dat : list A) :
  0 < n → length dat = n * d →
  reshape_F (NDArray [n; d] dat) [Dim n; Dim 1; Infer] = Ok (NDArray [n; 1; d] dat).
Proof.
  intros Hn Hl. unfold reshape_F. cbn [shape data].
  change (size_of [n; d]) with (n * (d * 1)). rewrite Nat.mul_1_r.
  rewrite infer_shape_classes by done. cbn [mbind result_bind mret result_ret].
  do 2 f_equal.
  change (size_of [n; 1; d]) with (n * (1 * (d * 1))).
  rewrite Nat.mul_1_l, Nat.mul_1_r.
  rewrite (omap_ext_Forall _ (fun k => dat !! k)).
  - rewrite <- Hl. apply omap_lookup_seq.
  - apply Forall_seq. intros k [_ Hk]. by rewrite single_class_offset by lia.
Qed.

End reshape_F_facts.

(** ** Central differences of a linear function *)

Section central_difference.
Import NP Gradients Spec.

Lemma dot_zip_plus (w x m : list Qc) :
  length x = length m → dot w (zip_with Qcplus x m) = (dot w x + dot w m)%Qc.
Proof.
  revert x m. induction w as [|a w IH]; intros [|q x] [|r m] Hl; simplify_eq/=;
    try (unfold dot; simpl; ring).
  unfold dot in *. simpl. rewrite IH by done. ring.
Qed.

Lemma dot_zip_minus (w x m : list Qc) :
  length x = length m → dot w (zip_with Qcminus x m) = (dot w x - dot w m)%Qc.
Proof.
  revert x m. induction w as [|a w IH]; intros [|q x] [|r m] Hl; simplify_eq/=;
    try (unfold dot; simpl; ring).
  unfold dot in *. simpl. rewrite IH by done. ring.
Qed.

(** [w . (e * row j of the identity)], the rows counted from [s]. *)
Lemma dot_delta_row (w : list Qc) j e : ∀ s,
  dot w ((fun c => delta j c * e)%Qc <$> seq s (length w))
  = match w !! (j - s) with
    | Some q => if decide (s ≤ j) then (q * e)%Qc else 0%Qc
    | None => 0%Qc
    end.
Proof.
  induction w as [|a w IH]; intros s; [done|].
  cbn [length seq fmap list_fmap]. unfold dot in *. cbn [zip_with foldr].
  fold (fmap (M:=list) (fun c => (delta j c * e)%Qc)). rewrite IH.
  unfold delta.
  destruct (decide (j = s)) as [->|Hne].
  - rewrite Nat.sub_diag. cbn [lookup list_lookup].
    rewrite decide_True by lia.
    destruct (w !! (s - S s)); [rewrite decide_False by lia|]; ring.
  - destruct (decide (s ≤ j)) as [Hle|Hgt].
    + replace (j - s) with (S (j - S s)) by lia. cbn [lookup list_lookup].
      destruct (w !! (j - S s)); [rewrite decide_True by lia|]; ring.
    + replace (j - s) with 0 by lia. cbn [lookup list_lookup].
      destruct (w !! (j - S s)); [rewrite decide_False by lia|]; ring.
Qed.

(** The central differences of [x ↦ w . x] at [x], one per feature, are [w]. *)
Lemma central_difference_row (w x : list Qc) (e : Qc) :
  length x = length w → e ≠ 0%Qc →
  (fun m => (dot w (zip_with Qcplus x m) - dot w (zip_with Qcminus x m)) / (2 * e))%Qc
    <$> matrix (length w) (fun i j => delta i j * e)%Qc
  = w.
Proof.
  intros Hl He. apply list_eq. intros j. rewrite list_lookup_fmap.
  destruct (decide (j < length w)) as [Hj|Hj].
  - rewrite lookup_matrix by done. simpl.
    rewrite dot_zip_plus, dot_zip_minus by (by rewrite length_fmap, length_seq).
    rewrite dot_delta_row, Nat.sub_0_r.
    destruct (lookup_lt_is_Some_2 w j Hj) as [q Hq]. rewrite Hq.
    rewrite decide_True by lia. f_equal. field. done.
  - rewrite !lookup_ge_None_2; [done | lia | rewrite length_matrix; lia].
Qed.

Lemma zip_with_perturbed {A B C D} (g : C → C → D) (h : B → C) (f1 f2 : A → B → B)
    (xs : list A) (M : list B) :
  zip_with g (h <$> (xs ≫= fun x => f1 x <$> M)) (h <$> (xs ≫= fun x => f2 x <$> M))
  = xs ≫= fun x => (fun m => g (h (f1 x m)) (h (f2 x m))) <$> M.
Proof.
  induction xs as [|x xs IH]; [done|].
  rewrite !bind_cons, !fmap_app, zip_with_app by (by rewrite !length_fmap).
  rewrite IH. f_equal.
  rewrite <- !list_fmap_compose, zip_with_fmap_l, zip_with_fmap_r, zip_with_diag. done.
Qed.

Lemma bind_rows_constant {A B} (f : A → list B) (xs : list A) (w : list B) :
  Forall (fun x => f x = w) xs → xs ≫= f = mjoin (replicate (length xs) w).
Proof.
  induction 1 as [|x xs E _ IH]; [done|].
  rewrite bind_cons, E, IH. done.
Qed.

Lemma fmap_bind_rows {A B C} (g : B → C) (f : A → list B) (xs : list A) :
  g <$> (xs ≫= f) = xs ≫= fun x => g <$> f x.
Proof.
  induction xs as [|x xs IH]; [done|]. by rewrite !bind_cons, fmap_app, IH.
Qed.

End central_difference.

(** ** [num_grad_batch] for a function with one output per instance *)

Section single_output.
Import NP Gradients.
Context {Args : Type} (func : blackbox Args) (args : Args).

(** The perturbed batch handed to [func] in its second call. *)
Lemma concatenate_perturbed m F (dp dn : list Qc) :
  concatenate (NDArray (m :: F) dp) (NDArray (m :: F) dn)
  = Ok (NDArray (m + m :: F) (dp ++ dn)).
Proof. unfold concatenate. cbn [shape data]. by rewrite decide_True. Qed.

Lemma num_grad_batch_single_output n F (dX : list Qc) (e : Qc) pos neg out0 out1 :
  0 < n → length dX = n * size_of F → e ≠ 0%Qc →
  perturb (NDArray (n :: F) dX) (Scalar e) false
    = Ok (NDArray (size_of F * n :: F) pos, NDArray (size_of F * n :: F) neg) →
  func (NDArray (n :: F) dX) args = Ok out0 →
  size_of (shape out0) = n →
  func (NDArray (size_of F * n + size_of F * n :: F) (pos ++ neg)) args = Ok out1 →
  wf out1 →
  length (data out1) = size_of F * n + size_of F * n →
  num_grad_batch func (NDArray (n :: F) dX) args (Scalar e)
  = Ok (NDArray (n :: 1 :: F)
          ((fun q => q / (2 * e))%Qc
             <$> zip_with Qcminus (take (size_of F * n) (data out1))
                                  (drop (size_of F * n) (data out1)))).
Proof.
  intros Hn HdX He Hp Hf0 Hs0 Hf1 Hw1 Hl1. set (d := size_of F) in *.
  unfold num_grad_batch.
  cbn [shape shape_getitem lookup list_lookup mbind result_bind].
  destruct n as [|n']; [lia|]. cbn [first_shape shape mbind result_bind].
  rewrite Hf0. cbn [mbind result_bind].
  rewrite reshape_column, Hs0. cbn [mbind result_bind].
  rewrite Hp. cbn [mbind result_bind fst snd].
  rewrite concatenate_perturbed. cbn [mbind result_bind].
  rewrite Hf1. cbn [mbind result_bind].
  rewrite reshape_column. cbn [mbind result_bind shape shape_getitem lookup list_lookup].
  unfold wf in Hw1. rewrite <- Hw1, Hl1.
  unfold slice_to, slice_from. cbn [shape data mbind result_bind size_of foldr].
  rewrite Nat.min_l, Nat.mul_1_r by lia.
  replace (d * S n' + d * S n' - d * S n') with (d * S n') by lia.
  unfold sub. rewrite binop_same; [|done| |].
  2:{ unfold wf. cbn [shape data size_of foldr]. rewrite length_take. lia. }
  2:{ unfold wf. cbn [shape data size_of foldr]. rewrite length_drop. lia. }
  cbn [shape data mbind result_bind].
  set (num := zip_with Qcminus _ _).
  assert (length num = S n' * d) as Hnum.
  { unfold num. rewrite length_zip_with, length_take, length_drop. lia. }
  rewrite (reshape_to_rows _ (S n') d) by (cbn [shape size_of foldr]; lia).
  cbn [mbind result_bind data].
  rewrite reshape_F_single_class by (done || lia). cbn [mbind result_bind].
  cbn [step_double as_array].
  rewrite div_scalar.
  - cbn [mbind result_bind shape data app]. apply reshape_exact.
    cbn [shape size_of foldr]. fold (size_of F). fold d. lia.
  - unfold wf. cbn [shape data size_of foldr]. lia.
  - intros E. apply He. apply Qcmult_integral in E as [E|E]; [|done].
    apply (f_equal this) in E. discriminate E.
Qed.

End single_output.

Section linear_function.
Import NP Gradients Spec Examples.

(** The model [linear w] computes [w . x] for every instance of a batch. *)
Lemma linear_spec (w : list Qc) F (Y : ndarray Qc) m :
  shape Y = m :: F → wf Y →
  ∃ out, linear w Y tt = Ok out ∧ wf out ∧ data out = dot w <$> rows Y.
Proof.
  intros HY _. unfold linear. rewrite HY. eexists. split; [done|]. split; [|done].
  unfold wf, rows. cbn [shape data size_of foldr]. rewrite HY.
  rewrite length_fmap, length_chunks. lia.
Qed.

End linear_function.

(** C6.  For a function that returns [w . x] for every instance [x] of the
    batch it is given, a batch [X] of shape [(N, *F)] with [N ≥ 1] and a
    nonzero scalar step, [num_grad_batch(func, X, args, eps)] is the array of
    shape [(N, 1, *F)] holding [w] once per instance. *)
Theorem num_grad_batch_linear {Args} (func : Gradients.blackbox Args) (args : Args)
    (w : list Qc) (X : NP.ndarray Qc) n F (eps : Qc) :
  NP.shape X = n :: F → NP.wf X → 0 < n →
  length w = NP.size_of F →
  eps ≠ 0%Qc →
  (∀ Y m, NP.shape Y = m :: F → NP.wf Y →
     ∃ out, func Y args = Ok out ∧ NP.wf out ∧
            NP.data out = Spec.dot w <$> NP.rows Y) →
  Gradients.num_grad_batch func X args (Gradients.Scalar eps)
  = Ok (NP.NDArray (n :: 1 :: F) (mjoin (replicate n w))).
Proof.
  destruct X as [sh dX]. unfold NP.wf at 1. cbn [NP.shape NP.data].
  intros -> HdX Hn Hw He Hfunc.
  change (NP.size_of (n :: F)) with (n * NP.size_of F) in HdX.
  set (d := NP.size_of F) in *.
  pose proof (Forall_length_chunks n d dX HdX) as Hxs.
  pose proof (length_chunks n d dX) as Hlen.
  set (xs := NP.chunks n d dX) in *.
  set (M := NP.matrix d (fun i j => NP.delta i j * eps)%Qc).
  set (Lpos := xs ≫= fun x => zip_with Qcplus x <$> M).
  set (Lneg := xs ≫= fun x => zip_with Qcminus x <$> M).
  assert (length Lpos = d * n ∧ length Lneg = d * n) as [Hlp Hln].
  { unfold Lpos, Lneg, M. rewrite !length_perturbed, Hlen, length_matrix. lia. }
  assert (Forall (fun r => length r = d) Lpos ∧ Forall (fun r => length r = d) Lneg)
    as [Hfp Hfn].
  { split; (apply Forall_length_perturbed; [done | apply Forall_length_matrix]). }
  destruct (Hfunc (NP.NDArray (n :: F) dX) n) as (out0 & Hf0 & Hw0 & Hd0);
    [done | done |].
  destruct (Hfunc (NP.NDArray (d * n + d * n :: F) (mjoin Lpos ++ mjoin Lneg)) (d * n + d * n))
    as (out1 & Hf1 & Hw1 & Hd1); [done | |].
  { unfold NP.wf. cbn [NP.shape NP.data NP.size_of foldr]. fold (NP.size_of F). fold d.
    rewrite length_app, !(length_mjoin_uniform d) by done. lia. }
  assert (NP.rows (NP.NDArray (d * n + d * n :: F) (mjoin Lpos ++ mjoin Lneg)) = Lpos ++ Lneg)
    as Hrows.
  { rewrite <- join_app. apply rows_mjoin.
    - rewrite length_app. lia.
    - by apply Forall_app. }
  rewrite Hrows, fmap_app in Hd1.
  rewrite (num_grad_batch_single_output func args n F dX eps (mjoin Lpos) (mjoin Lneg) out0 out1);
    try done.
  - f_equal. f_equal. rewrite Hd1.
    rewrite take_app_length', drop_app_length' by (by rewrite length_fmap).
    unfold Lpos, Lneg. rewrite zip_with_perturbed, fmap_bind_rows.
    rewrite <- Hlen. apply bind_rows_constant.
    eapply Forall_impl; [apply Hxs|]. simpl. intros x Hx.
    rewrite <- list_fmap_compose. unfold M. rewrite <- Hw.
    apply central_difference_row; [lia | done].
  - by apply perturb_scalar.
  - unfold NP.wf in Hw0. rewrite <- Hw0, Hd0. unfold NP.rows. cbn [NP.shape NP.data].
    by rewrite length_fmap.
  - rewrite Hd1, length_app, !length_fmap. lia.
Qed.

(** C1 fails on the code.  A function with two outputs per instance has
    predictions of shape [(2, 2)] on a batch of shape [(2, 2)], and
    [num_grad_batch] raises [ValueError] instead of returning an array of shape
    [(2, 2, 2)]: the predictions are flattened to one column, and the first
    [N·D] of the [2·N·D·P] entries cannot be subtracted from the rest. *)
Theorem num_grad_batch_two_classes_raises :
  NP.shape <$> Examples.two_classes Examples.batch tt = Ok [2; 2] ∧
  Gradients.num_grad_batch Examples.two_classes Examples.batch tt
    (Gradients.Scalar Examples.tenth) = Raise ValueError.
Proof. split; vm_compute; reflexivity. Qed.

(** ** Buffers: what [perturb] writes *)

Section buffer_facts.
Import NP Gradients Buffers.
Implicit Types h g : gmap loc (list Qc).

Lemma preserves_refl h : preserves h h.
Proof. by intros l _. Qed.

Lemma preserves_dom g h l : preserves g h → l ∈ dom g → l ∈ dom h.
Proof.
  intros Hp Hl. apply elem_of_dom. rewrite (Hp l Hl). by apply elem_of_dom.
Qed.

Lemma preserves_insert_fresh g h l d :
  preserves g h → l ∉ dom g → preserves g (<[l := d]> h).
Proof.
  intros Hp Hl l' Hl'. rewrite lookup_insert_ne; [by apply Hp|].
  intros ->. done.
Qed.

Lemma triple_bind {A B} g (m : prog _ A) (k : A → prog _ B) (Q : A → Prop) (R : B → Prop) :
  triple g m Q → (∀ a, Q a → triple g (k a) R) → triple g (m ≫= k) R.
Proof.
  intros Hm Hk h Hh. destruct (Hm h Hh) as [Hp HQ].
  unfold mbind, prog_bind. destruct (m h) as [h' [a|e]] eqn:E; simpl in *.
  - apply (Hk a); [by apply HQ | done].
  - split; [done | intros ? [=]].
Qed.

Lemma triple_ret {A} g (a : A) (Q : A → Prop) : Q a → triple g (mret a) Q.
Proof. intros Ha h Hh. split; [done|]. by intros ? [= <-]. Qed.

Lemma triple_lift {A} g (r : result A) (Q : A → Prop) :
  (∀ a, r = Ok a → Q a) → triple g (lift r) Q.
Proof. intros Hr h Hh. split; [done|]. simpl. apply Hr. Qed.

Lemma triple_read g a : triple g (read a) (fun _ => True).
Proof. intros h Hh. split; [done|]. done. Qed.

(** An allocation picks a location outside the current heap, so outside [g]. *)
Lemma triple_new g v : triple g (new v) (fresh_for g).
Proof.
  intros h Hh. unfold new; simpl.
  assert (fresh (dom h) ∉ dom g) as Hf.
  { intros Hin. apply (is_fresh (dom h)). by eapply preserves_dom. }
  split; [by apply preserves_insert_fresh|].
  intros a [= <-]. done.
Qed.

(** A write into a buffer that did not exist in [g]. *)
Lemma triple_write g a d : fresh_for g a → triple g (write a d) (fun _ => True).
Proof.
  intros Ha h Hh. unfold write, modify; simpl.
  split; [by apply preserves_insert_fresh | done].
Qed.

Lemma triple_view g a newshape : triple g (view a newshape) (fun b => buf b = buf a).
Proof.
  unfold view. eapply triple_bind; [apply triple_lift with (Q := fun _ => True); done|].
  intros sh _. by apply triple_ret.
Qed.

Lemma triple_op1 g f a : triple g (op1 f a) (fresh_for g).
Proof.
  unfold op1. eapply triple_bind; [apply triple_read|]. intros v _.
  eapply triple_bind; [apply triple_lift with (Q := fun _ => True); done|].
  intros r _. apply triple_new.
Qed.

Lemma triple_op2 g f a b : triple g (op2 f a b) (fresh_for g).
Proof.
  unfold op2. eapply triple_bind; [apply triple_read|]. intros v _.
  eapply triple_bind; [apply triple_read|]. intros w _.
  eapply triple_bind; [apply triple_lift with (Q := fun _ => True); done|].
  intros r _. apply triple_new.
Qed.

Lemma triple_iadd_inplace g a b :
  fresh_for g a → triple g (iadd_inplace a b) (fresh_for g).
Proof.
  intros Ha. unfold iadd_inplace.
  eapply triple_bind; [apply triple_read|]. intros v _.
  eapply triple_bind; [apply triple_read|]. intros w _.
  eapply triple_bind; [apply triple_lift with (Q := fun _ => True); done|].
  intros r _. eapply triple_bind; [by apply triple_write|].
  intros _ _. by apply triple_ret.
Qed.

(** [perturb] writes only into buffers it has allocated, and the arrays it
    returns live in such buffers. *)
Lemma triple_perturb g X eps proba :
  triple g (perturb X eps proba) (fun r => fresh_for g r.1 ∧ fresh_for g r.2).
Proof.
  unfold perturb.
  eapply triple_bind; [apply triple_lift with (Q := fun _ => True); done|]. intros n _.
  eapply triple_bind; [apply triple_view|]. intros X' HX'.
  eapply triple_bind; [apply triple_lift with (Q := fun _ => True); done|]. intros dim _.
  eapply triple_bind; [apply triple_new|]. intros i _.
  eapply triple_bind; [apply triple_op1|]. intros e _.
  eapply triple_bind; [apply triple_op1|]. intros pert Hpert.
  eapply triple_bind with (Q := fresh_for g).
  { destruct proba; [|by apply triple_ret].
    eapply triple_bind; [apply triple_lift with (Q := fun _ => True); done|]. intros eps_n _.
    eapply triple_bind; [apply triple_new|]. intros i' _.
    eapply triple_bind; [apply triple_new|]. intros o _.
    eapply triple_bind; [apply triple_op2|]. intros d _.
    eapply triple_bind; [apply triple_op1|]. intros c _.
    eapply triple_bind; [apply triple_op1|]. intros t _.
    by apply triple_iadd_inplace. }
  intros pert' Hpert'.
  eapply triple_bind; [apply triple_op1|]. intros X_rep _.
  eapply triple_bind; [apply triple_op2|]. intros X_pert_pos Hpos.
  eapply triple_bind; [apply triple_op2|]. intros X_pert_neg Hneg.
  eapply triple_bind; [apply triple_view|]. intros pos' Hpos'.
  eapply triple_bind; [apply triple_view|]. intros neg' Hneg'.
  apply triple_ret. unfold fresh_for in *. simpl. by rewrite Hpos', Hneg'.
Qed.

End buffer_facts.

(** ** Buffers: [perturb] on buffers computes what [perturb] on values does *)

Section refinement.
Import NP Gradients Buffers.
Implicit Types (h : gmap loc (list Qc)) (I J : gmap loc (list Qc) → Prop).

Lemma live_value h a v : live h a v → value_of h a = v.
Proof. intros [Hb Hd]. unfold value_of. rewrite Hb, Hd. by destruct v. Qed.

Lemma live_dom h a v : live h a v → buf a ∈ dom h.
Proof. intros [Hb _]. by eapply elem_of_dom_2. Qed.

Lemma stable_live a v : stable (fun h => live h a v).
Proof.
  intros h l d Hl [Hb Hd]. split; [|done].
  rewrite lookup_insert_ne; [done|]. intros ->. apply Hl. by eapply elem_of_dom_2.
Qed.

Lemma stable_and I J : stable I → stable J → stable (fun h => I h ∧ J h).
Proof. intros HI HJ h l d Hl [? ?]. split; [by apply HI | by apply HJ]. Qed.

Lemma stable_pure (P : Prop) : stable (fun _ => P).
Proof. by intros h l d _ ?. Qed.

Lemma refines_bind {A B A' B'} I (m : prog _ A) (p : result B)
    (k : A → prog _ A') (q : B → result B') R R' :
  refines I m p R → (∀ a b, refines (R a b) (k a) (q b) R') →
  refines I (m ≫= k) (p ≫= q) R'.
Proof.
  intros Hm Hk h Hh. specialize (Hm h Hh). unfold mbind at 1, prog_bind.
  destruct (m h) as [h' [a|e]], p as [b|e']; simpl in *; try done.
  by apply Hk.
Qed.

Lemma refines_assume {A B} (P : Prop) I (m : prog _ A) (p : result B) R :
  (P → refines I m p R) → refines (fun h => P ∧ I h) m p R.
Proof. intros Hm h [HP Hh]. by apply Hm. Qed.

Lemma refines_post {A B} I (m : prog _ A) (p : result B) (R R' : A → B → _ → Prop) :
  (∀ a b h, R a b h → R' a b h) → refines I m p R → refines I m p R'.
Proof.
  intros HR Hm h Hh. specialize (Hm h Hh).
  destruct (m h) as [h' [a|e]], p as [b|e']; try done. by apply HR.
Qed.

Lemma refines_lift {A} I (r : result A) :
  refines I (lift r) r (fun a b h => a = b ∧ I h).
Proof. intros h Hh. unfold lift. by destruct r. Qed.

Lemma refines_ret {A B} I (a : A) (b : B) (R : A → B → _ → Prop) :
  (∀ h, I h → R a b h) → refines I (mret a) (Ok b) R.
Proof. intros HR h Hh. by apply HR. Qed.

(** An allocation that the computation on values does not have. *)
Lemma refines_new_left {A B} I v (k : array → prog _ A) (p : result B) R :
  stable I →
  (∀ a, refines (fun h => I h ∧ live h a v) (k a) p R) →
  refines I (new v ≫= k) p R.
Proof.
  intros HI Hk h Hh. unfold mbind, prog_bind, new.
  apply Hk. split; [apply HI; [apply is_fresh | done]|].
  split; [apply lookup_insert_eq | done].
Qed.

(** The result of an operator is allocated away from any location [l] that
    is already in use. *)
Lemma refines_op1 I f a v l :
  stable I → (∀ h, I h → live h a v) → (∀ h, I h → l ∈ dom h) →
  refines I (op1 f a) (f v)
    (fun b r h => (buf b ≠ l ∧ dims b = shape r) ∧ I h ∧ live h b r).
Proof.
  intros HI Ha Hl h Hh. unfold op1, mbind, prog_bind, read, gets, lift, new.
  rewrite (live_value _ _ _ (Ha h Hh)). destruct (f v) as [r|e]; [|done].
  split; [|split].
  - simpl. split; [|done]. intros E. apply (is_fresh (dom h)). rewrite E. by apply Hl.
  - apply HI; [apply is_fresh | done].
  - split; [apply lookup_insert_eq | done].
Qed.

Lemma refines_op2 I f a b va vb l :
  stable I → (∀ h, I h → live h a va ∧ live h b vb) → (∀ h, I h → l ∈ dom h) →
  refines I (op2 f a b) (f va vb)
    (fun c r h => (buf c ≠ l ∧ dims c = shape r) ∧ I h ∧ live h c r).
Proof.
  intros HI Hab Hl h Hh. unfold op2, mbind, prog_bind, read, gets, lift, new.
  destruct (Hab h Hh) as [Ha Hb].
  rewrite (live_value _ _ _ Ha), (live_value _ _ _ Hb). destruct (f va vb) as [r|e]; [|done].
  split; [|split].
  - simpl. split; [|done]. intros E. apply (is_fresh (dom h)). rewrite E. by apply Hl.
  - apply HI; [apply is_fresh | done].
  - split; [apply lookup_insert_eq | done].
Qed.

(** A view has the buffer of the array it was made from. *)
Lemma refines_view I a v newshape :
  (∀ h, I h → live h a v) →
  refines I (view a newshape) (reshape v newshape)
    (fun b r h => (buf b = buf a ∧ dims b = shape r) ∧ I h ∧ live h b r).
Proof.
  intros Ha h Hh. destruct (Ha h Hh) as [Hb Hd].
  unfold view, reshape, mbind, prog_bind, result_bind, lift. rewrite Hd.
  destruct (infer_shape (size_of (shape v)) newshape) as [sh|e]; [|done].
  simpl. done.
Qed.

(** An operator that cannot raise, where the computation on values has a
    [let]. *)
Lemma refines_op1_total {A B} I (g : ndarray Qc → ndarray Qc) a v l
    (k : array → prog _ A) (q : ndarray Qc → result B) R :
  stable I → (∀ h, I h → live h a v) → (∀ h, I h → l ∈ dom h) →
  (∀ b, refines (fun h => (buf b ≠ l ∧ dims b = shape (g v)) ∧ I h ∧ live h b (g v))
          (k b) (q (g v)) R) →
  refines I (op1 (fun v => Ok (g v)) a ≫= k) (q (g v)) R.
Proof.
  intros HI Ha Hl Hk h Hh.
  pose proof (refines_op1 I (fun v => Ok (g v)) a v l HI Ha Hl h Hh) as Hop.
  unfold mbind at 1, prog_bind.
  destruct (op1 (fun v => Ok (g v)) a h) as [h' [b|e]]; [|done].
  by apply Hk.
Qed.

(** [a += b] overwrites the buffer of [a]; what is known of other buffers,
    [J], stays. *)
Lemma refines_iadd_inplace I J a b va vb :
  (∀ h, I h → live h a va ∧ live h b vb ∧ J h) →
  (∀ h d, J h → J (<[buf a := d]> h)) →
  refines I (iadd_inplace a b) (iadd va vb) (fun a' r h => a' = a ∧ J h ∧ live h a' r).
Proof.
  intros Hab HJ h Hh. destruct (Hab h Hh) as (Ha & Hb & Hj).
  unfold iadd_inplace, mbind, prog_bind, read, gets, lift, write, modify.
  rewrite (live_value _ _ _ Ha), (live_value _ _ _ Hb).
  destruct (iadd va vb) as [r|e] eqn:E; [|done]. simpl.
  split; [done|]. split; [by apply HJ|]. split; [apply lookup_insert_eq|].
  destruct Ha as [_ ->]. unfold iadd in E.
  destruct (add va vb) as [r'|]; simpl in E; [|done].
  destruct (decide (shape r' = shape va)); by simplify_eq.
Qed.

Ltac stable_tac := repeat first [apply stable_live | apply stable_pure | apply stable_and].
Ltac live_tac := intros ? ?; try eapply live_dom; intuition eauto.

(** [perturb] on buffers, started with [X] holding the elements [dX], has the
    outcome of [perturb] on the value of [X]; when it returns, the two arrays
    hold the two values and [X] still holds [dX]. *)
Lemma perturb_refines X dX eps proba :
  refines (fun h => live h X (NDArray (dims X) dX))
    (Buffers.perturb X eps proba) (Gradients.perturb (NDArray (dims X) dX) eps proba)
    (fun r v h => live h X (NDArray (dims X) dX) ∧ live h r.1 v.1 ∧ live h r.2 v.2).
Proof.
  unfold Buffers.perturb, Gradients.perturb. cbn [shape].
  set (vX := NDArray (dims X) dX).
  eapply refines_bind; [apply refines_lift|]. intros n ?. cbn beta.
  apply refines_assume; intros <-.
  eapply refines_bind; [apply (refines_view _ X vX); live_tac|].
  intros X' vX'. cbn beta. apply refines_assume; intros [HbX HdX]. rewrite HdX.
  eapply refines_bind; [apply refines_lift|]. intros dim ?. cbn beta.
  apply refines_assume; intros <-.
  apply refines_new_left; [stable_tac|]. intros i.
  eapply refines_bind;
    [apply (refines_op1 _ (fun v => mul v (as_array eps)) i (eye dim) (buf X));
     [stable_tac | live_tac | live_tac]|].
  intros e ve. cbn beta. apply refines_assume; intros [Hne Hde].
  cbn zeta.
  apply (refines_op1_total _ (fun v => tile v n) e ve (buf X) _
           (fun pert => pert' ← (if proba then _ else Ok pert); _));
    [stable_tac | live_tac | live_tac|].
  intros pert. apply refines_assume; intros [Hnp Hdp].
  eapply refines_bind with
    (R := fun p vp h => (buf p ≠ buf X ∧ dims p = shape vp) ∧
                        (live h X vX ∧ live h X' vX') ∧ live h p vp).
  { destruct proba.
    - eapply refines_bind; [apply refines_lift|]. intros eps_n ?. cbn beta.
      apply refines_assume; intros <-.
      apply refines_new_left; [stable_tac|]. intros i'.
      apply refines_new_left; [stable_tac|]. intros o.
      eapply refines_bind;
        [apply (refines_op2 _ sub i' o (eye dim) (ones dim dim) (buf pert));
         [stable_tac | live_tac | live_tac]|].
      intros d vd. cbn beta. apply refines_assume; intros [Hnd Hdd].
      eapply refines_bind;
        [apply (refines_op1 _ (fun v => mul v (as_array eps_n)) d vd (buf pert));
         [stable_tac | live_tac | live_tac]|].
      intros c vc. cbn beta. apply refines_assume; intros [Hnc Hdc].
      apply (refines_op1_total _ (fun v => tile v n) c vc (buf pert) _
               (fun t => iadd (tile ve n) t)); [stable_tac | live_tac | live_tac|].
      intros t. apply refines_assume; intros [Hnt Hdt].
      eapply refines_post;
        [|apply (refines_iadd_inplace _ (fun h => live h X vX ∧ live h X' vX')
                   pert t (tile ve n) (tile vc n))].
      + intros p vp h (-> & HJ & Hl). split; [|done]. split; [done|]. apply Hl.
      + live_tac.
      + intros h d0 [[Hx ?] [Hx' ?]]. unfold live.
        rewrite !lookup_insert_ne by congruence. done.
    - apply refines_ret. intros h Hh. split; [done|]. intuition. }
  intros pert' vp. apply refines_assume; intros [Hnp' Hdp'].
  eapply refines_bind;
    [apply (refines_op1 _ (fun v => repeat v dim) X' vX' (buf X));
     [stable_tac | live_tac | live_tac]|].
  intros X_rep vrep. cbn beta. apply refines_assume; intros [Hnr Hdr].
  eapply refines_bind;
    [apply (refines_op2 _ add X_rep pert' vrep vp (buf X));
     [stable_tac | live_tac | live_tac]|].
  intros pos vpos. cbn beta. apply refines_assume; intros [Hnpos Hdpos].
  eapply refines_bind;
    [apply (refines_op2 _ sub X_rep pert' vrep vp (buf X));
     [stable_tac | live_tac | live_tac]|].
  intros neg vneg. cbn beta. apply refines_assume; intros [Hnneg Hdneg].
  eapply refines_bind; [apply (refines_view _ pos vpos); live_tac|].
  intros pos' vpos'. cbn beta. apply refines_assume; intros [Hbp Hdp2].
  eapply refines_bind; [apply (refines_view _ neg vneg); live_tac|].
  intros neg' vneg'. cbn beta. apply refines_assume; intros [Hbn Hdn2].
  apply refines_ret. intros h Hh. simpl. intuition.
Qed.

(** The same for a heap in which [X] is allocated: the outcome is that of
    [perturb] on the value [X] has in the heap. *)
Lemma perturb_agrees h X eps proba :
  buf X ∈ dom h →
  match (Buffers.perturb X eps proba h).2,
        Gradients.perturb (value_of h X) eps proba with
  | Ok r, Ok v =>
      value_of (Buffers.perturb X eps proba h).1 r.1 = v.1 ∧
      value_of (Buffers.perturb X eps proba h).1 r.2 = v.2
  | Raise e, Raise e' => e = e'
  | _, _ => False
  end.
Proof.
  intros [dX HdX]%elem_of_dom.
  assert (value_of h X = NDArray (dims X) dX) as -> by (unfold value_of; by rewrite HdX).
  pose proof (perturb_refines X dX eps proba h (conj HdX eq_refl)) as Hr.
  destruct (Buffers.perturb X eps proba h) as [h' [r|e]],
           (Gradients.perturb (NDArray (dims X) dX) eps proba) as [v|e']; try done.
  destruct Hr as (_ & H1 & H2). simpl. split; by apply live_value.
Qed.

End refinement.

(** C9.  [perturb] does not modify its input.  Every buffer that existed
    before the call, the one of [X] among them, holds the same values after
    it, whether the call returns or raises; the two arrays it returns live in
    buffers that did not exist before the call, so neither is an alias of
    [X]; and they hold what [perturb] computes from the value of [X]. *)
Theorem perturb_preserves_input (h : gmap Buffers.loc (list Qc)) X eps proba :
  Buffers.buf X ∈ dom h →
  (∀ l, l ∈ dom h → (Buffers.perturb X eps proba h).1 !! l = h !! l) ∧
  Buffers.value_of (Buffers.perturb X eps proba h).1 X = Buffers.value_of h X ∧
  (∀ X_pert_pos X_pert_neg,
    (Buffers.perturb X eps proba h).2 = Ok (X_pert_pos, X_pert_neg) →
    (Buffers.buf X_pert_pos ∉ dom h) ∧ (Buffers.buf X_pert_neg ∉ dom h) ∧
    Buffers.buf X_pert_pos ≠ Buffers.buf X ∧ Buffers.buf X_pert_neg ≠ Buffers.buf X) ∧
  match (Buffers.perturb X eps proba h).2,
        Gradients.perturb (Buffers.value_of h X) eps proba with
  | Ok r, Ok v =>
      Buffers.value_of (Buffers.perturb X eps proba h).1 r.1 = v.1 ∧
      Buffers.value_of (Buffers.perturb X eps proba h).1 r.2 = v.2
  | Raise e, Raise e' => e = e'
  | _, _ => False
  end.
Proof.
  intros HX.
  destruct (triple_perturb h X eps proba h (preserves_refl h)) as [Hp Hr].
  unfold Buffers.preserves in Hp.
  split; [exact Hp|]. split; [|split].
  - unfold Buffers.value_of. by rewrite (Hp (Buffers.buf X) HX).
  - intros Xp Xn E. destruct (Hr _ E) as [H1 H2]. unfold Buffers.fresh_for in *.
    simpl in *. repeat split; try done; intros E'; by rewrite E' in *.
  - by apply perturb_agrees.
Qed.

(** ** The theorems at concrete inputs *)

(** A batch of two instances with two features each and the step 1/10. *)
Lemma perturb_rows_witness :
  ∃ X_pert_pos X_pert_neg,
    Gradients.perturb Examples.batch (Gradients.Scalar Examples.tenth) false
      = Ok (X_pert_pos, X_pert_neg) ∧
    NP.shape X_pert_pos = [4; 2] ∧
    NP.shape X_pert_neg = [4; 2] ∧
    NP.wf X_pert_pos ∧ NP.wf X_pert_neg ∧
    ∀ i j x, NP.rows Examples.batch !! i = Some x → j < 2 →
      NP.rows X_pert_pos !! (i * 2 + j) = Some (Spec.bump j Examples.tenth x) ∧
      NP.rows X_pert_neg !! (i * 2 + j) = Some (Spec.bump j (- Examples.tenth) x) ∧
      zip_with Qcminus (Spec.bump j Examples.tenth x) (Spec.bump j (- Examples.tenth) x)
        = Spec.spike 2 j (2 * Examples.tenth).
Proof.
  apply (perturb_rows Examples.batch 2 [2] (Gradients.Scalar Examples.tenth)).
  - reflexivity.
  - reflexivity.
  - lia.
  - exact I.
Defined.

(** The same batch in probability-preserving mode. *)
Lemma perturb_proba_totals_witness :
  ∃ X_pert_pos X_pert_neg,
    Gradients.perturb Examples.batch (Gradients.Scalar Examples.tenth) true
      = Ok (X_pert_pos, X_pert_neg) ∧
    NP.shape X_pert_pos = [4; 2] ∧
    NP.shape X_pert_neg = [4; 2] ∧
    ∀ k, k < 4 →
      ∃ x row_pos row_neg,
        NP.rows Examples.batch !! (k `div` 2) = Some x ∧
        NP.rows X_pert_pos !! k = Some row_pos ∧
        NP.rows X_pert_neg !! k = Some row_neg ∧
        Spec.total row_pos = Spec.total x ∧
        Spec.total row_neg = Spec.total x.
Proof.
  apply (perturb_proba_totals Examples.batch 2 [2] Examples.tenth).
  - reflexivity.
  - reflexivity.
  - lia.
  - simpl. lia.
Defined.

(** The linear function with weights [(5, 7)] on the same batch. *)
Lemma num_grad_batch_linear_witness :
  Gradients.num_grad_batch (Examples.linear (Gradients.of_int <$> [5; 7]%Z))
    Examples.batch tt (Gradients.Scalar Examples.tenth)
  = Ok (NP.NDArray [2; 1; 2]
          (mjoin (replicate 2 (Gradients.of_int <$> [5; 7]%Z)))).
Proof.
  apply (num_grad_batch_linear (Examples.linear (Gradients.of_int <$> [5; 7]%Z)) tt
           (Gradients.of_int <$> [5; 7]%Z) Examples.batch 2 [2] Examples.tenth).
  - reflexivity.
  - reflexivity.
  - lia.
  - reflexivity.
  - intros E. apply (f_equal this) in E. vm_compute in E. discriminate E.
  - intros Y m. apply linear_spec.
Defined.

(** The same batch as an array object in a heap of one buffer: the call
    returns, and the buffer keeps its contents. *)
Lemma perturb_preserves_input_witness :
  is_Ok (Buffers.perturb Examples.batch_array (Gradients.Scalar Examples.tenth) true
           Examples.batch_heap).2 ∧
  (∀ l, l ∈ dom Examples.batch_heap →
     (Buffers.perturb Examples.batch_array (Gradients.Scalar Examples.tenth) true
        Examples.batch_heap).1 !! l = Examples.batch_heap !! l) ∧
  Buffers.value_of
    (Buffers.perturb Examples.batch_array (Gradients.Scalar Examples.tenth) true
       Examples.batch_heap).1 Examples.batch_array
  = Buffers.value_of Examples.batch_heap Examples.batch_array ∧
  (∀ X_pert_pos X_pert_neg,
    (Buffers.perturb Examples.batch_array (Gradients.Scalar Examples.tenth) true
       Examples.batch_heap).2 = Ok (X_pert_pos, X_pert_neg) →
    (Buffers.buf X_pert_pos ∉ dom Examples.batch_heap) ∧
    (Buffers.buf X_pert_neg ∉ dom Examples.batch_heap) ∧
    Buffers.buf X_pert_pos ≠ Buffers.buf Examples.batch_array ∧
    Buffers.buf X_pert_neg ≠ Buffers.buf Examples.batch_array) ∧
  match (Buffers.perturb Examples.batch_array (Gradients.Scalar Examples.tenth) true
           Examples.batch_heap).2,
        Gradients.perturb (Buffers.value_of Examples.batch_heap Examples.batch_array)
          (Gradients.Scalar Examples.tenth) true with
  | Ok r, Ok v =>
      Buffers.value_of
        (Buffers.perturb Examples.batch_array (Gradients.Scalar Examples.tenth) true
           Examples.batch_heap).1 r.1 = v.1 ∧
      Buffers.value_of
        (Buffers.perturb Examples.batch_array (Gradients.Scalar Examples.tenth) true
           Examples.batch_heap).1 r.2 = v.2
  | Raise e, Raise e' => e = e'
  | _, _ => False
  end.
Proof.
  split.
  - vm_compute. exact I.
  - apply (perturb_preserves_input Examples.batch_heap Examples.batch_array
             (Gradients.Scalar Examples.tenth) true).
    apply (elem_of_dom_2 _ _ (NP.data Examples.batch)). reflexivity.
Defined.

(** * Further properties of the code *)

(** ** The registries after a run of decorator applications *)

Section registry_runs.
Import Registry.

Lemma initial_wrappers s :
  blackbox_wrappers initial !! s = if decide (s ∈ known_frameworks) then Some None else None.
Proof.
  unfold initial, known_frameworks; simpl.
  destruct (decide (s = "pytorch")) as [->|Hp]; [done|].
  destruct (decide (s = "tensorflow")) as [->|Ht]; [done|].
  rewrite !lookup_insert_ne, lookup_empty by done.
  rewrite decide_False; [done|].
  rewrite !elem_of_cons, elem_of_nil. intros [?|[?|[]]]; done.
Qed.

Lemma initial_gradients s :
  numerical_gradients initial !! s = if decide (s ∈ known_frameworks) then Some [] else None.
Proof.
  unfold initial, known_frameworks; simpl.
  destruct (decide (s = "pytorch")) as [->|Hp]; [done|].
  destruct (decide (s = "tensorflow")) as [->|Ht]; [done|].
  rewrite !lookup_insert_ne, lookup_empty by done.
  rewrite decide_False; [done|].
  rewrite !elem_of_cons, elem_of_nil. intros [?|[?|[]]]; done.
Qed.

End registry_runs.

(** X1.  [get_blackbox_wrapper(s)] after any run of decorator applications,
    for any name [s]: it returns the function of the last wrapper
    registration under [s]; without one it returns [None] for ['pytorch'] and
    ['tensorflow'] and raises [KeyError] for every other name.  The lookup
    changes nothing. *)
Theorem get_blackbox_wrapper_any_name calls s :
  (Registry.get_blackbox_wrapper s (Registry.run calls Registry.initial)).2
  = match Registry.last_registered s calls with
    | Some f => Ok (Some f)
    | None => if decide (s ∈ Registry.known_frameworks) then Ok None else Raise KeyError
    end ∧
  (Registry.get_blackbox_wrapper s (Registry.run calls Registry.initial)).1
  = Registry.run calls Registry.initial.
Proof.
  split.
  - rewrite get_blackbox_wrapper_run.
    destruct (Registry.last_registered s calls); [done|].
    rewrite get_blackbox_wrapper_result, initial_wrappers.
    by destruct (decide (s ∈ Registry.known_frameworks)).
  - unfold Registry.get_blackbox_wrapper.
    by destruct (Registry.blackbox_wrappers (Registry.run calls Registry.initial) !! s).
Qed.

(** X2.  A wrapper registration is seen by the next lookup, whatever the
    name and whether the decorator returns or raises: in any world, after
    [blackbox_wrapper(s)(f)] the lookup of [s] returns [f], replacing what was
    there; the lookup of any other name and the gradient registry are as
    before. *)
Theorem blackbox_wrapper_then_get w s f :
  (Registry.get_blackbox_wrapper s (Registry.blackbox_wrapper s f w).1).2 = Ok (Some f) ∧
  (∀ s', s' ≠ s →
     (Registry.get_blackbox_wrapper s' (Registry.blackbox_wrapper s f w).1).2
     = (Registry.get_blackbox_wrapper s' w).2) ∧
  Registry.numerical_gradients (Registry.blackbox_wrapper s f w).1
  = Registry.numerical_gradients w.
Proof.
  destruct (blackbox_wrapper_world w s f) as [Hg Hb].
  split; [|split; [|done]].
  - by rewrite get_blackbox_wrapper_result, Hb, lookup_insert_eq.
  - intros s' Hne. rewrite !get_blackbox_wrapper_result, Hb.
    by rewrite lookup_insert_ne.
Qed.

(** X3.  The gradient registry after any run of decorator applications: under
    ['pytorch'] and under ['tensorflow'] it holds exactly the functions
    decorated with that name, in the order of decoration and as often as they
    were decorated; it has no other key. *)
Theorem numerical_gradients_after_run calls s :
  Registry.numerical_gradients (Registry.run calls Registry.initial) !! s
  = if decide (s ∈ Registry.known_frameworks)
    then Some (omap (Registry.decorates s) calls)
    else None.
Proof.
  induction calls as [|c calls IH] using rev_ind; [apply initial_gradients|].
  rewrite run_snoc, omap_app. cbn [omap list_omap].
  destruct c as [s' f|s' f]; cbn [Registry.apply_call Registry.decorates].
  - destruct (Registry.numerical_gradients (Registry.run calls Registry.initial) !! s')
      as [l|] eqn:Hl.
    + destruct (numerical_gradient_known _ s' f l Hl) as (_ & -> & _).
      destruct (decide (s' = s)) as [->|Hne].
      * rewrite lookup_insert_eq. rewrite Hl in IH.
        destruct (decide (s ∈ Registry.known_frameworks)); [|done].
        by injection IH as ->.
      * rewrite lookup_insert_ne by done. by rewrite IH, app_nil_r.
    + destruct (numerical_gradient_unknown _ s' f Hl) as (_ & -> & _).
      rewrite IH. destruct (decide (s ∈ Registry.known_frameworks)) as [Hs|Hs]; [|done].
      destruct (decide (s' = s)) as [->|Hne]; [|by rewrite app_nil_r].
      rewrite IH in Hl. discriminate Hl.
  - destruct (blackbox_wrapper_world (Registry.run calls Registry.initial) s' f) as [-> _].
    by rewrite IH, app_nil_r.
Qed.

(** ** The attributes the decorators set *)

Section registry_attributes.
Import Registry.

Lemma numerical_gradient_attrs w s f :
  attrs (numerical_gradient s f w).1
  = <[f := <["optimizer" := s]> (default ∅ (attrs w !! f))]> (attrs w).
Proof.
  unfold numerical_gradient, mbind, prog_bind, numerical_gradients_getitem. simpl.
  by destruct (numerical_gradients w !! s).
Qed.

Lemma blackbox_wrapper_attrs w s f :
  attrs (blackbox_wrapper s f w).1
  = <[f := <["framework" := s]> (default ∅ (attrs w !! f))]> (attrs w).
Proof.
  unfold blackbox_wrapper, mbind, prog_bind. simpl.
  by destruct (bool_decide (s ∉ known_frameworks)).
Qed.

Lemma getattr_insert_eq (a : gmap fref (gmap string string)) f name v :
  <[f := <[name := v]> (default ∅ (a !! f))]> a !! f ≫= (fun m => m !! name) = Some v.
Proof. rewrite lookup_insert_eq. simpl. by rewrite lookup_insert_eq. Qed.

Lemma getattr_insert_ne (a : gmap fref (gmap string string)) f name name' v :
  name ≠ name' →
  <[f := <[name := v]> (default ∅ (a !! f))]> a !! f ≫= (fun m => m !! name')
  = a !! f ≫= (fun m => m !! name').
Proof.
  intros Hne. rewrite lookup_insert_eq. simpl. rewrite lookup_insert_ne by done.
  by destruct (a !! f).
Qed.

End registry_attributes.

(** X4.  Each decorator sets its attribute on the function before it does
    anything else, so the attribute is set also when the call raises:
    [numerical_gradient(s)(f)] leaves [f.optimizer == s] and
    [blackbox_wrapper(s)(f)] leaves [f.framework == s], for every name [s];
    the other of the two attributes and the attributes of every other function
    are untouched. *)
Theorem decorators_set_attribute w s f :
  (Registry.getattr (Registry.numerical_gradient s f w).1 f "optimizer" = Some s ∧
   Registry.getattr (Registry.numerical_gradient s f w).1 f "framework"
     = Registry.getattr w f "framework" ∧
   ∀ g, g ≠ f → Registry.attrs (Registry.numerical_gradient s f w).1 !! g
                = Registry.attrs w !! g) ∧
  (Registry.getattr (Registry.blackbox_wrapper s f w).1 f "framework" = Some s ∧
   Registry.getattr (Registry.blackbox_wrapper s f w).1 f "optimizer"
     = Registry.getattr w f "optimizer" ∧
   ∀ g, g ≠ f → Registry.attrs (Registry.blackbox_wrapper s f w).1 !! g
                = Registry.attrs w !! g).
Proof.
  unfold Registry.getattr. rewrite numerical_gradient_attrs, blackbox_wrapper_attrs.
  split; (split; [apply getattr_insert_eq|]; split; [by apply getattr_insert_ne|]);
    intros g Hg; by rewrite lookup_insert_ne.
Qed.

(** X5.  One function registered as the wrapper of two frameworks is one
    object: after [blackbox_wrapper(s1)(f)] and then [blackbox_wrapper(s2)(f)]
    with [s1 ≠ s2] the registry holds [f] under both names, and its
    [framework] attribute names the second one, also for the entry under
    [s1]. *)
Theorem blackbox_wrapper_twice w s1 s2 f :
  s1 ≠ s2 →
  Registry.blackbox_wrappers
    (Registry.blackbox_wrapper s2 f (Registry.blackbox_wrapper s1 f w).1).1 !! s1
    = Some (Some f) ∧
  Registry.blackbox_wrappers
    (Registry.blackbox_wrapper s2 f (Registry.blackbox_wrapper s1 f w).1).1 !! s2
    = Some (Some f) ∧
  Registry.getattr
    (Registry.blackbox_wrapper s2 f (Registry.blackbox_wrapper s1 f w).1).1 f "framework"
    = Some s2.
Proof.
  intros Hne.
  destruct (blackbox_wrapper_world (Registry.blackbox_wrapper s1 f w).1 s2 f) as [_ ->].
  destruct (blackbox_wrapper_world w s1 f) as [_ ->].
  split; [|split].
  - by rewrite lookup_insert_ne, lookup_insert_eq.
  - by rewrite lookup_insert_eq.
  - unfold Registry.getattr. rewrite blackbox_wrapper_attrs. apply getattr_insert_eq.
Qed.

Lemma blackbox_wrapper_twice_witness :
  Registry.blackbox_wrappers
    (Registry.blackbox_wrapper "tensorflow" 1%positive
       (Registry.blackbox_wrapper "pytorch" 1%positive Registry.initial).1).1 !! "pytorch"
    = Some (Some 1%positive) ∧
  Registry.blackbox_wrappers
    (Registry.blackbox_wrapper "tensorflow" 1%positive
       (Registry.blackbox_wrapper "pytorch" 1%positive Registry.initial).1).1 !! "tensorflow"
    = Some (Some 1%positive) ∧
  Registry.getattr
    (Registry.blackbox_wrapper "tensorflow" 1%positive
       (Registry.blackbox_wrapper "pytorch" 1%positive Registry.initial).1).1
    1%positive "framework"
    = Some "tensorflow".
Proof.
  apply (blackbox_wrapper_twice Registry.initial "pytorch" "tensorflow" 1%positive).
  discriminate.
Defined.

(** ** [perturb] at the edges of its domain *)

(** X6.  [perturb] rejects a batch without instances before it looks at the
    step: a zero-dimensional array has no [shape[0]] ([IndexError]), and an
    empty batch of shape [(0, *F)] cannot be reshaped to [(0, -1)]
    ([ValueError]), for every step and in both modes. *)
Theorem perturb_degenerate_batch F (d : list Qc) eps proba :
  Gradients.perturb (NP.NDArray [] d) eps proba = Raise IndexError ∧
  Gradients.perturb (NP.NDArray (0 :: F) d) eps proba = Raise ValueError.
Proof. split; reflexivity. Qed.

(** X7.  In probability mode a batch with a single feature per instance
    makes [perturb] divide the step by [dim - 1 = 0]: with a Python float as
    step the call raises [ZeroDivisionError]. *)
Theorem perturb_proba_single_feature n F (dX : list Qc) (e : Qc) :
  0 < n → NP.size_of F = 1 →
  Gradients.perturb (NP.NDArray (n :: F) dX) (Gradients.Scalar e) true
  = Raise ZeroDivisionError.
Proof.
  intros Hn Hd. unfold Gradients.perturb.
  cbn [NP.shape NP.shape_getitem lookup list_lookup mbind result_bind].
  rewrite reshape_rows by done.
  cbn [NP.shape NP.shape_getitem lookup list_lookup mbind result_bind].
  rewrite mul_eye_scalar, Hd. reflexivity.
Qed.

Lemma perturb_proba_single_feature_witness :
  Gradients.perturb (NP.NDArray [2; 1] (Gradients.of_int <$> [1; 2]%Z))
    (Gradients.Scalar Examples.tenth) true
  = Raise ZeroDivisionError.
Proof.
  apply (perturb_proba_single_feature 2 [1] _ Examples.tenth).
  - lia.
  - reflexivity.
Defined.

(** ** The rows [perturb] returns in probability mode *)

Section perturb_proba_rows_facts.
Import NP Gradients Spec.

Lemma shift_plus j (e r : Qc) (x : list Qc) :
  zip_with Qcplus x ((fun c => delta j c * e + (delta j c - 1) * r)%Qc <$> seq 0 (length x))
  = shift j e r x.
Proof.
  rewrite zip_with_entries by done. unfold shift. apply imap_ext.
  intros c q _. simpl. unfold delta.
  destruct (decide (j = c)) as [->|Hne].
  - rewrite decide_True by done. ring.
  - rewrite decide_False by done. ring.
Qed.

Lemma shift_minus j (e r : Qc) (x : list Qc) :
  zip_with Qcminus x ((fun c => delta j c * e + (delta j c - 1) * r)%Qc <$> seq 0 (length x))
  = shift j (- e) (- r) x.
Proof.
  rewrite zip_with_entries by done. unfold shift. apply imap_ext.
  intros c q _. simpl. unfold delta.
  destruct (decide (j = c)) as [->|Hne].
  - rewrite decide_True by done. ring.
  - rewrite decide_False by done. ring.
Qed.

Lemma of_int_pred d : 0 < d → of_int (Z.of_nat d - 1) = of_nat (d - 1).
Proof. intros Hd. unfold of_nat. f_equal. lia. Qed.

(** The two perturbed copies of an instance lie at the same distance on
    either side of it. *)
Lemma zip_with_midpoint (x m : list Qc) :
  length x = length m →
  zip_with Qcplus (zip_with Qcplus x m) (zip_with Qcminus x m) = (fun q => 2 * q)%Qc <$> x.
Proof.
  revert m. induction x as [|q x IH]; intros [|r m] Hl; simplify_eq/=; [done|].
  f_equal; [ring | by apply IH].
Qed.

End perturb_proba_rows_facts.

(** X8.  For a batch of shape [(N, *F)] with [N ≥ 1] and [D > 1] features and
    a scalar step, row [i·D + j] of the first array returned by
    [perturb(X, eps, proba=True)] is instance [i] with feature [j] increased
    by [eps] and every other feature decreased by [eps / (D - 1)]; row
    [i·D + j] of the second array has feature [j] decreased by [eps] and
    every other feature increased by [eps / (D - 1)]. *)
Theorem perturb_proba_rows (X : NP.ndarray Qc) n F (eps : Qc) :
  NP.shape X = n :: F → NP.wf X → 0 < n → 1 < NP.size_of F →
  ∃ X_pert_pos X_pert_neg,
    Gradients.perturb X (Gradients.Scalar eps) true = Ok (X_pert_pos, X_pert_neg) ∧
    ∀ i j x, NP.rows X !! i = Some x → j < NP.size_of F →
      NP.rows X_pert_pos !! (i * NP.size_of F + j)
        = Some (Spec.shift j eps (eps / Spec.of_nat (NP.size_of F - 1)) x) ∧
      NP.rows X_pert_neg !! (i * NP.size_of F + j)
        = Some (Spec.shift j (- eps) (- (eps / Spec.of_nat (NP.size_of F - 1))) x).
Proof.
  destruct X as [sh dX]. unfold NP.wf. cbn [NP.shape NP.data]. intros -> HdX Hn Hd.
  change (NP.size_of (n :: F)) with (n * NP.size_of F) in HdX.
  set (d := NP.size_of F) in *.
  pose proof (Forall_length_chunks n d dX HdX) as Hxs.
  pose proof (length_chunks n d dX) as Hlen.
  eexists _, _. split; [apply perturb_scalar_proba; [done | done | fold d; lia]|].
  fold d. intros i j x Hx Hj.
  unfold NP.rows in Hx. cbn [NP.shape NP.data] in Hx. fold d in Hx.
  assert (length x = d) as Hlx by (by eapply (Forall_lookup_1 _ _ _ _ Hxs)).
  rewrite !rows_mjoin;
    try (apply Forall_length_perturbed; [done | apply Forall_length_matrix]);
    try (rewrite length_perturbed, Hlen, length_matrix; lia).
  rewrite !(lookup_perturbed _ _ d _ i j x Hx Hj).
  rewrite of_int_pred by lia. rewrite <- Hlx at 1 3.
  by rewrite shift_plus, shift_minus.
Qed.

Lemma perturb_proba_rows_witness :
  ∃ X_pert_pos X_pert_neg,
    Gradients.perturb Examples.batch (Gradients.Scalar Examples.tenth) true
      = Ok (X_pert_pos, X_pert_neg) ∧
    ∀ i j x, NP.rows Examples.batch !! i = Some x → j < 2 →
      NP.rows X_pert_pos !! (i * 2 + j)
        = Some (Spec.shift j Examples.tenth (Examples.tenth / Spec.of_nat 1) x) ∧
      NP.rows X_pert_neg !! (i * 2 + j)
        = Some (Spec.shift j (- Examples.tenth) (- (Examples.tenth / Spec.of_nat 1)) x).
Proof.
  apply (perturb_proba_rows Examples.batch 2 [2] Examples.tenth).
  - reflexivity.
  - reflexivity.
  - lia.
  - simpl. lia.
Defined.

(** X9.  With a scalar step, in either mode, the two rows made from an
    instance lie symmetrically around it: row [k] of the first array plus
    row [k] of the second is twice instance [k div D], entry by entry. *)
Theorem perturb_midpoint (X : NP.ndarray Qc) n F (eps : Qc) (proba : bool) :
  NP.shape X = n :: F → NP.wf X → 0 < n → (proba = true → 1 < NP.size_of F) →
  ∃ X_pert_pos X_pert_neg,
    Gradients.perturb X (Gradients.Scalar eps) proba = Ok (X_pert_pos, X_pert_neg) ∧
    ∀ k, k < n * NP.size_of F →
      ∃ x row_pos row_neg,
        NP.rows X !! (k `div` NP.size_of F) = Some x ∧
        NP.rows X_pert_pos !! k = Some row_pos ∧
        NP.rows X_pert_neg !! k = Some row_neg ∧
        zip_with Qcplus row_pos row_neg = (fun q => 2 * q)%Qc <$> x.
Proof.
  destruct X as [sh dX]. unfold NP.wf. cbn [NP.shape NP.data]. intros -> HdX Hn Hd.
  change (NP.size_of (n :: F)) with (n * NP.size_of F) in HdX.
  set (d := NP.size_of F) in *.
  pose proof (Forall_length_chunks n d dX HdX) as Hxs.
  pose proof (length_chunks n d dX) as Hlen.
  assert (∃ p, Gradients.perturb (NP.NDArray (n :: F) dX) (Gradients.Scalar eps) proba
    = Ok (NP.NDArray (d * n :: F)
            (mjoin (NP.chunks n d dX ≫= fun x => zip_with Qcplus x <$> NP.matrix d p)),
          NP.NDArray (d * n :: F)
            (mjoin (NP.chunks n d dX ≫= fun x => zip_with Qcminus x <$> NP.matrix d p))))
    as [p Hp].
  { destruct proba.
    - eexists. apply perturb_scalar_proba; [done | done | fold d; specialize (Hd eq_refl); lia].
    - eexists. by apply perturb_scalar. }
  eexists _, _. split; [exact Hp|]. intros k Hk.
  assert (0 < d) as Hd0 by (destruct d; lia).
  assert (k `div` d < n) as Hi by (apply Nat.Div0.div_lt_upper_bound; lia).
  assert (k `mod` d < d) as Hj by (apply Nat.mod_upper_bound; lia).
  destruct (lookup_lt_is_Some_2 (NP.chunks n d dX) (k `div` d)) as [x Hx]; [lia|].
  assert (length x = d) as Hlx by (by eapply (Forall_lookup_1 _ _ _ _ Hxs)).
  exists x. eexists _, _.
  unfold NP.rows at 1. cbn [NP.shape NP.data]. fold d. split; [done|].
  rewrite !rows_mjoin;
    try (apply Forall_length_perturbed; [done | apply Forall_length_matrix]);
    try (rewrite length_perturbed, Hlen, length_matrix; lia).
  replace k with (k `div` d * d + k `mod` d) at 1 2
    by (rewrite (Nat.div_mod k d) at 3 by lia; lia).
  rewrite !(lookup_perturbed _ _ d _ _ _ x Hx Hj).
  split; [done|]. split; [done|].
  apply zip_with_midpoint. by rewrite length_fmap, length_seq.
Qed.

Lemma perturb_midpoint_witness :
  ∃ X_pert_pos X_pert_neg,
    Gradients.perturb Examples.batch (Gradients.Scalar Examples.tenth) true
      = Ok (X_pert_pos, X_pert_neg) ∧
    ∀ k, k < 4 →
      ∃ x row_pos row_neg,
        NP.rows Examples.batch !! (k `div` 2) = Some x ∧
        NP.rows X_pert_pos !! k = Some row_pos ∧
        NP.rows X_pert_neg !! k = Some row_neg ∧
        zip_with Qcplus row_pos row_neg = (fun q => 2 * q)%Qc <$> x.
Proof.
  apply (perturb_midpoint Examples.batch 2 [2] Examples.tenth true).
  - reflexivity.
  - reflexivity.
  - lia.
  - intros _. simpl. lia.
Defined.

(** ** [num_grad_batch] for any function applied instance by instance *)

Section central_difference_general.
Import NP Gradients Spec.

Lemma bind_ext_Forall {A B} (f g : A → list B) (xs : list A) :
  Forall (fun x => f x = g x) xs → xs ≫= f = xs ≫= g.
Proof.
  induction 1 as [|x xs Hx _ IH]; [done|].
  cbn [mbind list_bind]. f_equal; [done|]. apply IH.
Qed.

(** The central differences of [f] at [x], one per row of the step matrix. *)
Lemma central_difference_rows (f : list Qc → Qc) (x : list Qc) (e : Qc) :
  (fun m => (f (zip_with Qcplus x m) - f (zip_with Qcminus x m)) / (2 * e))%Qc
    <$> matrix (length x) (fun i j => delta i j * e)%Qc
  = (fun j => (f (bump j e x) - f (bump j (- e) x)) / (2 * e))%Qc <$> seq 0 (length x).
Proof.
  unfold matrix. rewrite <- list_fmap_compose. apply list_fmap_ext.
  intros _ j _. simpl.
  pose proof (bump_plus j (fun _ => e) x) as Hp.
  pose proof (bump_minus j (fun _ => e) x) as Hm.
  simpl in Hp, Hm. by rewrite Hp, Hm.
Qed.

End central_difference_general.

(** X10.  For a function that is applied to every instance of a batch on
    its own and returns one number per instance, a batch [X] of shape
    [(N, *F)] with [N ≥ 1] and a nonzero scalar step, [num_grad_batch] returns
    the array of shape [(N, 1, *F)] of central differences: its entry for
    instance [x] and feature [j] is
    [(f(x + eps·e_j) - f(x - eps·e_j)) / (2·eps)]. *)
Theorem num_grad_batch_central_differences {Args} (func : Gradients.blackbox Args)
    (args : Args) (f : list Qc → Qc) (X : NP.ndarray Qc) n F (eps : Qc) :
  NP.shape X = n :: F → NP.wf X → 0 < n →
  eps ≠ 0%Qc →
  (∀ Y m, NP.shape Y = m :: F → NP.wf Y →
     ∃ out, func Y args = Ok out ∧ NP.wf out ∧ NP.data out = f <$> NP.rows Y) →
  Gradients.num_grad_batch func X args (Gradients.Scalar eps)
  = Ok (NP.NDArray (n :: 1 :: F)
          (NP.rows X ≫= fun x =>
             (fun j => (f (Spec.bump j eps x) - f (Spec.bump j (- eps) x)) / (2 * eps))%Qc
               <$> seq 0 (NP.size_of F))).
Proof.
  destruct X as [sh dX]. unfold NP.wf at 1. cbn [NP.shape NP.data].
  intros -> HdX Hn He Hfunc.
  change (NP.size_of (n :: F)) with (n * NP.size_of F) in HdX.
  set (d := NP.size_of F) in *.
  pose proof (Forall_length_chunks n d dX HdX) as Hxs.
  pose proof (length_chunks n d dX) as Hlen.
  unfold NP.rows at 1. cbn [NP.shape NP.data]. fold d.
  set (xs := NP.chunks n d dX) in *.
  set (M := NP.matrix d (fun i j => NP.delta i j * eps)%Qc).
  set (Lpos := xs ≫= fun x => zip_with Qcplus x <$> M).
  set (Lneg := xs ≫= fun x => zip_with Qcminus x <$> M).
  assert (length Lpos = d * n ∧ length Lneg = d * n) as [Hlp Hln].
  { unfold Lpos, Lneg, M. rewrite !length_perturbed, Hlen, length_matrix. lia. }
  assert (Forall (fun r => length r = d) Lpos ∧ Forall (fun r => length r = d) Lneg)
    as [Hfp Hfn].
  { split; (apply Forall_length_perturbed; [done | apply Forall_length_matrix]). }
  destruct (Hfunc (NP.NDArray (n :: F) dX) n) as (out0 & Hf0 & Hw0 & Hd0);
    [done | done |].
  destruct (Hfunc (NP.NDArray (d * n + d * n :: F) (mjoin Lpos ++ mjoin Lneg)) (d * n + d * n))
    as (out1 & Hf1 & Hw1 & Hd1); [done | |].
  { unfold NP.wf. cbn [NP.shape NP.data NP.size_of foldr]. fold (NP.size_of F). fold d.
    rewrite length_app, !(length_mjoin_uniform d) by done. lia. }
  assert (NP.rows (NP.NDArray (d * n + d * n :: F) (mjoin Lpos ++ mjoin Lneg)) = Lpos ++ Lneg)
    as Hrows.
  { rewrite <- join_app. apply rows_mjoin.
    - rewrite length_app. lia.
    - by apply Forall_app. }
  rewrite Hrows, fmap_app in Hd1.
  rewrite (num_grad_batch_single_output func args n F dX eps (mjoin Lpos) (mjoin Lneg) out0 out1);
    try done.
  - f_equal. f_equal. rewrite Hd1.
    rewrite take_app_length', drop_app_length' by (by rewrite length_fmap).
    unfold Lpos, Lneg. rewrite zip_with_perturbed, fmap_bind_rows.
    apply bind_ext_Forall.
    eapply Forall_impl; [apply Hxs|]. simpl. intros x Hx.
    rewrite <- list_fmap_compose. unfold M. rewrite <- Hx.
    apply central_difference_rows.
  - by apply perturb_scalar.
  - unfold NP.wf in Hw0. rewrite <- Hw0, Hd0. unfold NP.rows. cbn [NP.shape NP.data].
    by rewrite length_fmap.
  - rewrite Hd1, length_app, !length_fmap. lia.
Qed.

Lemma pointwise_spec (f : list Qc → Qc) F (Y : NP.ndarray Qc) m :
  NP.shape Y = m :: F → NP.wf Y →
  ∃ out, Examples.pointwise f Y tt = Ok out ∧ NP.wf out ∧ NP.data out = f <$> NP.rows Y.
Proof.
  intros HY _. unfold Examples.pointwise. rewrite HY. eexists. split; [done|]. split; [|done].
  unfold NP.wf, NP.rows. cbn [NP.shape NP.data NP.size_of foldr]. rewrite HY.
  rewrite length_fmap, length_chunks. lia.
Qed.

(** The sum of squares [x . x] on a batch of two instances. *)
Lemma num_grad_batch_central_differences_witness :
  Gradients.num_grad_batch (Examples.pointwise (fun x => Spec.dot x x))
    Examples.batch tt (Gradients.Scalar Examples.tenth)
  = Ok (NP.NDArray [2; 1; 2]
          (NP.rows Examples.batch ≫= fun x =>
             (fun j => (Spec.dot (Spec.bump j Examples.tenth x) (Spec.bump j Examples.tenth x)
                        - Spec.dot (Spec.bump j (- Examples.tenth) x)
                                   (Spec.bump j (- Examples.tenth) x))
                       / (2 * Examples.tenth))%Qc
               <$> seq 0 2)).
Proof.
  apply (num_grad_batch_central_differences (Examples.pointwise (fun x => Spec.dot x x)) tt
           (fun x => Spec.dot x x) Examples.batch 2 [2] Examples.tenth).
  - reflexivity.
  - reflexivity.
  - lia.
  - intros E. apply (f_equal this) in E. vm_compute in E. discriminate E.
  - intros Y m. apply pointwise_spec.
Defined.

(** ** [num_grad_batch] for a function with several outputs per instance *)

Section several_outputs.
Import NP Gradients.

Lemma infer_shape_mismatch total sh :
  size_of sh ≠ total → infer_shape total (Dim <$> sh) = Raise ValueError.
Proof.
  intros Hs. unfold infer_shape. rewrite known_dims_Dim, length_fmap, Nat.sub_diag.
  by rewrite decide_False.
Qed.

Lemma broadcast_shapes_columns a b :
  broadcast_shapes [a; 1] [b; 1]
  = if decide (a = b) then Ok [a; 1]
    else if decide (a = 1) then Ok [b; 1]
    else if decide (b = 1) then Ok [a; 1]
    else Raise ValueError.
Proof.
  unfold broadcast_shapes.
  cbn [reverse rev_append broadcast_shapes_rev mbind result_bind].
  repeat case_decide; try done.
Qed.

(** The shape of a result is that of the broadcast, whatever the data. *)
Lemma binop_shape {A B C} (f : A → B → C) (a : ndarray A) (b : ndarray B) :
  binop f a b
  = match broadcast_shapes (shape a) (shape b) with
    | Ok sh => Ok (NDArray sh (zip_with f (broadcast_data (shape a) sh (data a))
                                          (broadcast_data (shape b) sh (data b))))
    | Raise e => Raise e
    end.
Proof. unfold binop. by destruct (broadcast_shapes (shape a) (shape b)). Qed.

Lemma div_scalar_shape (a : ndarray Qc) (y : Qc) :
  y ≠ 0%Qc → ∃ dat, div a (scalar y) = Ok (NDArray (shape a) dat).
Proof.
  intros Hy. unfold div. simpl. rewrite broadcast_shapes_scalar. simpl.
  rewrite broadcast_data_scalar. rewrite decide_False; [by eexists|].
  rewrite Exists_exists. intros (q & Hq%elem_of_replicate & ->). by destruct Hq.
Qed.

Lemma reshape_F_shape {A} (a : ndarray A) newshape sh :
  infer_shape (size_of (shape a)) newshape = Ok sh →
  ∃ dat, reshape_F a newshape = Ok (NDArray sh dat).
Proof. intros E. unfold reshape_F. rewrite E. by eexists. Qed.

Lemma double_nonzero (e : Qc) : e ≠ 0%Qc → (2 * e)%Qc ≠ 0%Qc.
Proof.
  intros He E. apply He. apply Qcmult_integral in E as [E|E]; [|done].
  apply (f_equal this) in E. discriminate E.
Qed.

End several_outputs.

(** X11.  For a function that returns [P ≥ 2] outputs per instance, a batch
    of shape [(N, *F)] with [N ≥ 1] instances of at least one feature and a
    nonzero scalar step, [num_grad_batch] raises [ValueError] and returns no
    gradient: both predictions are flattened to one column, the first [N·D]
    of the [2·N·D·P] perturbed predictions are subtracted from the remaining
    ones, and the shapes do not fit. *)
Theorem num_grad_batch_several_outputs_raise {Args} (func : Gradients.blackbox Args)
    (args : Args) (X : NP.ndarray Qc) n F P (eps : Qc) :
  NP.shape X = n :: F → NP.wf X → 0 < n → 0 < NP.size_of F → 1 < P →
  eps ≠ 0%Qc →
  (∀ Y m, NP.shape Y = m :: F → NP.wf Y →
     ∃ out, func Y args = Ok out ∧ NP.size_of (NP.shape out) = m * P) →
  Gradients.num_grad_batch func X args (Gradients.Scalar eps) = Raise ValueError.
Proof.
  destruct X as [sh dX]. unfold NP.wf at 1. cbn [NP.shape NP.data].
  intros -> HdX Hn Hd HP He Hfunc.
  change (NP.size_of (n :: F)) with (n * NP.size_of F) in HdX.
  set (d := NP.size_of F) in *.
  pose proof (Forall_length_chunks n d dX HdX) as Hxs.
  pose proof (length_chunks n d dX) as Hlen.
  set (xs := NP.chunks n d dX) in *.
  set (M := NP.matrix d (fun i j => NP.delta i j * eps)%Qc).
  set (Lpos := xs ≫= fun x => zip_with Qcplus x <$> M).
  set (Lneg := xs ≫= fun x => zip_with Qcminus x <$> M).
  assert (length Lpos = d * n ∧ length Lneg = d * n) as [Hlp Hln].
  { unfold Lpos, Lneg, M. rewrite !length_perturbed, Hlen, length_matrix. lia. }
  assert (Forall (fun r => length r = d) Lpos ∧ Forall (fun r => length r = d) Lneg)
    as [Hfp Hfn].
  { split; (apply Forall_length_perturbed; [done | apply Forall_length_matrix]). }
  destruct (Hfunc (NP.NDArray (n :: F) dX) n) as (out0 & Hf0 & Hs0); [done | done |].
  destruct (Hfunc (NP.NDArray (d * n + d * n :: F) (mjoin Lpos ++ mjoin Lneg)) (d * n + d * n))
    as (out1 & Hf1 & Hs1); [done | |].
  { unfold NP.wf. cbn [NP.shape NP.data NP.size_of foldr]. fold (NP.size_of F). fold d.
    rewrite length_app, !(length_mjoin_uniform d) by done. lia. }
  unfold Gradients.num_grad_batch.
  cbn [NP.shape NP.shape_getitem lookup list_lookup mbind result_bind].
  destruct n as [|n']; [lia|]. cbn [NP.first_shape NP.shape mbind result_bind].
  rewrite Hf0. cbn [mbind result_bind].
  rewrite reshape_column, Hs0. cbn [mbind result_bind].
  rewrite perturb_scalar by (done || lia). fold d. fold xs. fold M. fold Lpos. fold Lneg.
  cbn [mbind result_bind fst snd].
  rewrite concatenate_perturbed. cbn [mbind result_bind].
  rewrite Hf1. cbn [mbind result_bind].
  rewrite reshape_column, Hs1.
  cbn [mbind result_bind NP.shape NP.shape_getitem lookup list_lookup].
  unfold NP.slice_to, NP.slice_from. cbn [NP.shape NP.data mbind result_bind].
  set (m := d * S n') in *.
  assert (0 < m) as Hm by (unfold m; lia).
  destruct P as [|[|P']]; [lia | lia |].
  assert ((m + m) * S (S P') = m + m + m + m + (m + m) * P') as -> by nia.
  set (q := (m + m) * P').
  rewrite Nat.min_l by lia.
  replace (m + m + m + m + q - m) with (m + m + m + q) by lia.
  unfold NP.sub at 1. rewrite binop_shape. cbn [NP.shape NP.data].
  rewrite broadcast_shapes_columns.
  rewrite decide_False by lia.
  destruct (decide (m = 1)) as [Hm1|Hm1]; [|by rewrite decide_False by lia].
  assert (d = 1 ∧ n' = 0) as [Hd1 ->] by (unfold m in Hm1; nia).
  rewrite Hm1 in *. cbn [mbind result_bind].
  rewrite (reshape_to_rows _ 1 (1 + 1 + 1 + q)) by (cbn [NP.shape NP.size_of foldr]; lia).
  cbn [mbind result_bind NP.shape NP.shape_getitem lookup list_lookup].
  edestruct (reshape_F_shape (A:=Qc)) as [dat ->].
  { cbn [NP.shape NP.size_of foldr]. rewrite Nat.mul_1_r.
    apply (infer_shape_classes 1 (1 + 1 + 1 + q)). lia. }
  cbn [mbind result_bind Gradients.step_double Gradients.as_array].
  edestruct div_scalar_shape as [dat' ->]; [by apply double_nonzero|].
  cbn [mbind result_bind NP.shape].
  unfold NP.reshape. cbn [NP.shape]. rewrite infer_shape_mismatch; [done|].
  cbn [app NP.size_of foldr]. fold (NP.size_of F). fold d. rewrite Hd1.
  unfold q. lia.
Qed.

Lemma stacked_size (ws : list (list Qc)) F (Y : NP.ndarray Qc) m :
  NP.shape Y = m :: F →
  ∃ out, Examples.stacked ws Y tt = Ok out ∧ NP.size_of (NP.shape out) = m * length ws.
Proof.
  intros HY. unfold Examples.stacked. rewrite HY. eexists. split; [done|].
  cbn [NP.shape NP.size_of foldr]. lia.
Qed.

(** Three outputs per instance on a batch of two instances. *)
Lemma num_grad_batch_several_outputs_raise_witness :
  Gradients.num_grad_batch
    (Examples.stacked [Gradients.of_int <$> [1; 0]%Z; Gradients.of_int <$> [0; 1]%Z;
                       Gradients.of_int <$> [1; 1]%Z])
    Examples.batch tt (Gradients.Scalar Examples.tenth)
  = Raise ValueError.
Proof.
  apply (num_grad_batch_several_outputs_raise _ tt Examples.batch 2 [2] 3 Examples.tenth).
  - reflexivity.
  - reflexivity.
  - lia.
  - simpl. lia.
  - lia.
  - intros E. apply (f_equal this) in E. vm_compute in E. discriminate E.
  - intros Y m HY _. exact (stacked_size _ [2] Y m HY).
Defined.

(** X12.  [num_grad_batch] reads [X.shape[0]] and [X[0]] before it calls
    the function: on a zero-dimensional array and on an empty batch of shape
    [(0, *F)] it raises [IndexError], whatever the function, its arguments and
    the step are. *)
Theorem num_grad_batch_degenerate_batch {Args} (func : Gradients.blackbox Args)
    (args : Args) F (d : list Qc) eps :
  Gradients.num_grad_batch func (NP.NDArray [] d) args eps = Raise IndexError ∧
  Gradients.num_grad_batch func (NP.NDArray (0 :: F) d) args eps = Raise IndexError.
Proof. split; reflexivity. Qed.

(** X13.  The function is called on the batch itself before anything is
    perturbed: an exception it raises there leaves [num_grad_batch] as it
    is, also for a step that [perturb] would reject. *)
Theorem num_grad_batch_func_raises {Args} (func : Gradients.blackbox Args)
    (args : Args) (X : NP.ndarray Qc) n F eps ex :
  NP.shape X = n :: F → 0 < n →
  func X args = Raise ex →
  Gradients.num_grad_batch func X args eps = Raise ex.
Proof.
  intros HX Hn Hf. unfold Gradients.num_grad_batch, NP.first_shape. rewrite HX.
  cbn [NP.shape_getitem lookup list_lookup mbind result_bind].
  destruct n as [|n']; [lia|]. cbn [mbind result_bind]. by rewrite Hf.
Qed.

Lemma num_grad_batch_func_raises_witness :
  Gradients.num_grad_batch (Examples.failing KeyError) Examples.batch tt
    (Gradients.PerFeature []) = Raise KeyError.
Proof.
  apply (num_grad_batch_func_raises (Examples.failing KeyError) tt Examples.batch 2 [2]).
  - reflexivity.
  - lia.
  - reflexivity.
Defined.

(** ** [ArgmaxTransformer] on a batch of score vectors *)

Section argmax_rows.
Import NP.

Lemma argmax_labels k (L : list (list Qc)) :
  Forall (fun r => length r = k) L →
  mjoin ((fun blk =>
            (fun p => argmax_list (omap (fun j => blk !! (j * 1 + p)) (seq 0 k))) <$> seq 0 1)
         <$> L)
  = argmax_list <$> L.
Proof.
  induction 1 as [|blk L Hb _ IH]; [done|].
  rewrite !fmap_cons. cbn [mjoin list_join seq]. rewrite !fmap_cons, fmap_nil.
  cbn [app]. f_equal; [|apply IH]. f_equal.
  rewrite (omap_ext_all _ (fun j => blk !! j)); [|intros j; f_equal; lia].
  rewrite <- Hb. apply omap_lookup_seq.
Qed.

Lemma argmax_axis1_matrix n k (v : list Qc) :
  length v = n * k → 0 < k →
  argmax_axis1 (NDArray [n; k] v) = Ok (NDArray [n] (argmax_list <$> chunks n k v)).
Proof.
  intros Hv Hk. unfold argmax_axis1. cbn [shape data size_of foldr].
  rewrite decide_False by lia. rewrite Nat.mul_1_r.
  by rewrite argmax_labels by (by apply Forall_length_chunks).
Qed.

End argmax_rows.

(** X14.  When the predictor returns an array of shape [(N, K)] with
    [K ≥ 1] scores per instance, the transformer returns [N] labels, and the
    label of instance [i] is the position of the first largest score of
    row [i]. *)
Theorem ArgmaxTransformer_two_dimensional predictor x n k (v : list Qc) :
  predictor x = Ok (NP.NDArray [n; k] v) → length v = n * k → 0 < k →
  ∃ labels,
    Wrappers.ArgmaxTransformer.__call__ (Wrappers.ArgmaxTransformer.__init__ predictor) x
      = Ok (NP.NDArray [n] labels) ∧
    length labels = n ∧
    ∀ i row, NP.rows (NP.NDArray [n; k] v) !! i = Some row →
      ∃ l m, labels !! i = Some l ∧ row !! l = Some m ∧
             ∀ j q, row !! j = Some q → (q ≤ m)%Qc ∧ (j < l → (q < m)%Qc).
Proof.
  intros Hp Hv Hk. exists (NP.argmax_list <$> NP.chunks n k v). split; [|split].
  - unfold Wrappers.ArgmaxTransformer.__call__, Wrappers.ArgmaxTransformer.__init__; simpl.
    rewrite Hp. simpl.
    change (NP.atleast_2d _) with (NP.NDArray [n; k] v).
    by apply argmax_axis1_matrix.
  - by rewrite length_fmap, length_chunks.
  - unfold NP.rows. cbn [NP.shape NP.data NP.size_of foldr]. rewrite Nat.mul_1_r.
    intros i row Hrow.
    assert (length row = k) as Hl
      by (by eapply (Forall_lookup_1 _ _ _ _ (Forall_length_chunks n k v Hv))).
    destruct row as [|a row]; [simpl in Hl; lia|].
    destruct (argmax_list_spec a row) as (m & Hm & Hmax).
    exists (NP.argmax_list (a :: row)), m.
    rewrite list_lookup_fmap, Hrow. done.
Qed.

(** Two instances with two scores each. *)
Lemma ArgmaxTransformer_two_dimensional_witness :
  ∃ labels,
    Wrappers.ArgmaxTransformer.__call__
      (Wrappers.ArgmaxTransformer.__init__ (fun _ => Ok Examples.batch)) Examples.two
      = Ok (NP.NDArray [2] labels) ∧
    length labels = 2 ∧
    ∀ i row, NP.rows Examples.batch !! i = Some row →
      ∃ l m, labels !! i = Some l ∧ row !! l = Some m ∧
             ∀ j q, row !! j = Some q → (q ≤ m)%Qc ∧ (j < l → (q < m)%Qc).
Proof.
  apply (ArgmaxTransformer_two_dimensional (fun _ => Ok Examples.batch) Examples.two 2 2
           (NP.data Examples.batch)).
  - reflexivity.
  - reflexivity.
  - lia.
Defined.

(** X15.  What the transformer does with outputs that are no batch of
    score vectors: an exception of the predictor is passed on; a single
    number (a zero-dimensional array) gets the label 0; an empty vector of
    scores, and any output whose second axis has length 0, makes [np.argmax]
    raise [ValueError]. *)
Theorem ArgmaxTransformer_edge_cases predictor x :
  (∀ ex, predictor x = Raise ex →
     Wrappers.ArgmaxTransformer.__call__ (Wrappers.ArgmaxTransformer.__init__ predictor) x
     = Raise ex) ∧
  (∀ q, predictor x = Ok (NP.NDArray [] [q]) →
     Wrappers.ArgmaxTransformer.__call__ (Wrappers.ArgmaxTransformer.__init__ predictor) x
     = Ok (NP.NDArray [1] [0])) ∧
  (∀ d, predictor x = Ok (NP.NDArray [0] d) →
     Wrappers.ArgmaxTransformer.__call__ (Wrappers.ArgmaxTransformer.__init__ predictor) x
     = Raise ValueError) ∧
  (∀ n sh d, predictor x = Ok (NP.NDArray (n :: 0 :: sh) d) →
     Wrappers.ArgmaxTransformer.__call__ (Wrappers.ArgmaxTransformer.__init__ predictor) x
     = Raise ValueError).
Proof.
  unfold Wrappers.ArgmaxTransformer.__call__, Wrappers.ArgmaxTransformer.__init__; simpl.
  split; [|split; [|split]].
  - by intros ex ->.
  - by intros q ->.
  - by intros d ->.
  - by intros n sh d ->.
Qed.

Lemma ArgmaxTransformer_edge_cases_witness :
  Wrappers.ArgmaxTransformer.__call__
    (Wrappers.ArgmaxTransformer.__init__ (fun _ => Ok (NP.NDArray [0] []))) Examples.two
  = Raise ValueError.
Proof.
  apply (proj1 (proj2 (proj2 (ArgmaxTransformer_edge_cases
                                (fun _ => Ok (NP.NDArray [0] [])) Examples.two))) []).
  reflexivity.
Defined.

(** ** Buffers: the two arrays [perturb] returns *)

Section buffer_results.
Import NP Gradients Buffers.
Implicit Types h g : gmap loc (list Qc).

Lemma bind_Ok_inv {A B} (m : prog (gmap loc (list Qc)) A)
    (k : A → prog (gmap loc (list Qc)) B) h r :
  ((m ≫= k) h).2 = Ok r → ∃ a h', m h = (h', Ok a) ∧ (m ≫= k) h = k a h'.
Proof.
  unfold mbind, prog_bind. destruct (m h) as [h' [a|e]]; [eauto | intros [=]].
Qed.

Lemma op2_allocates f a b h h' c :
  op2 f a b h = (h', Ok c) → (buf c ∉ dom h) ∧ (buf c ∈ dom h') ∧ dom h ⊆ dom h'.
Proof.
  unfold op2, read, gets, lift, new, mbind, prog_bind.
  destruct (f (value_of h a) (value_of h b)) as [r|e]; intros [= <- <-]; simpl.
  split; [apply is_fresh | set_solver].
Qed.

Lemma view_same a newshape h h' b :
  view a newshape h = (h', Ok b) → buf b = buf a ∧ h' = h.
Proof.
  unfold view, lift, mbind, prog_bind.
  destruct (infer_shape (size_of (dims a)) newshape) as [sh|e]; intros [= <- <-]. done.
Qed.

End buffer_results.

(** X16.  The two arrays [perturb] returns are two objects: they live in
    different buffers, both allocated by the call, so writing into one of
    them changes neither the other nor [X]. *)
Theorem perturb_results_distinct (h : gmap Buffers.loc (list Qc)) X eps proba
    X_pert_pos X_pert_neg :
  (Buffers.perturb X eps proba h).2 = Ok (X_pert_pos, X_pert_neg) →
  Buffers.buf X_pert_pos ≠ Buffers.buf X_pert_neg ∧
  Buffers.buf X_pert_pos ∈ dom (Buffers.perturb X eps proba h).1 ∧
  Buffers.buf X_pert_neg ∈ dom (Buffers.perturb X eps proba h).1.
Proof.
  intros H. unfold Buffers.perturb in *.
  do 8 (let E := fresh "E" in
        destruct (bind_Ok_inv _ _ _ _ H) as (? & ? & _ & E); rewrite E in H |- *; clear E;
        cbv beta in H |- *).
  destruct (bind_Ok_inv _ _ _ _ H) as (pos & h1 & Epos & E); rewrite E in H |- *; clear E.
  destruct (bind_Ok_inv _ _ _ _ H) as (neg & h2 & Eneg & E); rewrite E in H |- *; clear E.
  destruct (bind_Ok_inv _ _ _ _ H) as (pos' & h3 & Epos' & E); rewrite E in H |- *; clear E.
  destruct (bind_Ok_inv _ _ _ _ H) as (neg' & h4 & Eneg' & E); rewrite E in H |- *; clear E.
  injection H as <- <-. cbn [fst snd mret prog_ret].
  apply op2_allocates in Epos as (_ & Hpos & _).
  apply op2_allocates in Eneg as (Hneg & Hneg' & Hsub).
  apply view_same in Epos' as [-> ->]. apply view_same in Eneg' as [-> ->].
  split; [|split].
  - intros E. by rewrite E in Hpos.
  - by apply Hsub.
  - done.
Qed.

(** The batch in a heap of one buffer, in probability mode. *)
Lemma perturb_results_distinct_witness :
  ∃ X_pert_pos X_pert_neg,
    (Buffers.perturb Examples.batch_array (Gradients.Scalar Examples.tenth) true
       Examples.batch_heap).2 = Ok (X_pert_pos, X_pert_neg) ∧
    Buffers.buf X_pert_pos ≠ Buffers.buf X_pert_neg ∧
    Buffers.buf X_pert_pos
      ∈ dom (Buffers.perturb Examples.batch_array (Gradients.Scalar Examples.tenth) true
               Examples.batch_heap).1 ∧
    Buffers.buf X_pert_neg
      ∈ dom (Buffers.perturb Examples.batch_array (Gradients.Scalar Examples.tenth) true
               Examples.batch_heap).1.
Proof.
  assert (∃ r, (Buffers.perturb Examples.batch_array (Gradients.Scalar Examples.tenth) true
                  Examples.batch_heap).2 = Ok r) as [[pos neg] E].
  { vm_compute. eexists. reflexivity. }
  exists pos, neg. split; [exact E|].
  exact (perturb_results_distinct Examples.batch_heap Examples.batch_array
           (Gradients.Scalar Examples.tenth) true pos neg E).
Defined.

(** ** An invariant of the registries *)

Section registry_invariant.
Import Registry.

(** Setting an attribute removes none. *)
Lemma getattr_insert_mono (a : gmap fref (gmap string string)) f g name0 v name :
  is_Some (a !! g ≫= fun m => m !! name) →
  is_Some (<[f := <[name0 := v]> (default ∅ (a !! f))]> a !! g ≫= fun m => m !! name).
Proof.
  destruct (decide (g = f)) as [->|Hne]; [|by rewrite lookup_insert_ne].
  rewrite lookup_insert_eq. destruct (a !! f) as [m|]; simpl; [|by intros [? [=]]].
  intros Hm. destruct (decide (name = name0)) as [->|Hn].
  - rewrite lookup_insert_eq. eauto.
  - by rewrite lookup_insert_ne.
Qed.

Lemma getattr_numerical_gradient_mono w s f g name :
  is_Some (getattr w g name) → is_Some (getattr (numerical_gradient s f w).1 g name).
Proof. unfold getattr. rewrite numerical_gradient_attrs. apply getattr_insert_mono. Qed.

Lemma getattr_blackbox_wrapper_mono w s f g name :
  is_Some (getattr w g name) → is_Some (getattr (blackbox_wrapper s f w).1 g name).
Proof. unfold getattr. rewrite blackbox_wrapper_attrs. apply getattr_insert_mono. Qed.

End registry_invariant.

(** X17.  In every state the registries can reach, each registered function
    carries the attribute of its decorator: every function in a list of
    [numerical_gradients] has an [optimizer] attribute, and every function
    stored in [blackbox_wrappers] has a [framework] attribute. *)
Theorem registered_functions_have_attribute w :
  Registry.reachable w →
  (∀ s l f, Registry.numerical_gradients w !! s = Some l → f ∈ l →
     is_Some (Registry.getattr w f "optimizer")) ∧
  (∀ s f, Registry.blackbox_wrappers w !! s = Some (Some f) →
     is_Some (Registry.getattr w f "framework")).
Proof.
  induction 1 as [|s0 f0 w Hw [IHa IHb]|s0 f0 w Hw [IHa IHb]].
  - split.
    + intros s l f Hl Hf. unfold Registry.initial in Hl. simpl in Hl.
      apply lookup_insert_Some in Hl as [[_ <-]|[_ Hl]]; [by apply elem_of_nil in Hf|].
      apply lookup_insert_Some in Hl as [[_ <-]|[_ Hl]]; [by apply elem_of_nil in Hf|].
      by rewrite lookup_empty in Hl.
    + intros s f Hs. unfold Registry.initial in Hs. simpl in Hs.
      apply lookup_insert_Some in Hs as [[_ [=]]|[_ Hs]].
      apply lookup_insert_Some in Hs as [[_ [=]]|[_ Hs]].
      by rewrite lookup_empty in Hs.
  - split.
    + intros s l f Hl Hf.
      destruct (Registry.numerical_gradients w !! s0) as [l0|] eqn:E.
      * destruct (numerical_gradient_known w s0 f0 l0 E) as (_ & Hng & _).
        rewrite Hng in Hl. apply lookup_insert_Some in Hl as [[<- <-]|[Hne Hl]].
        -- apply elem_of_app in Hf as [Hf|Hf%list_elem_of_singleton].
           ++ apply getattr_numerical_gradient_mono. exact (IHa s0 l0 f E Hf).
           ++ subst f. unfold Registry.getattr. rewrite numerical_gradient_attrs.
              rewrite getattr_insert_eq. eauto.
        -- apply getattr_numerical_gradient_mono. exact (IHa s l f Hl Hf).
      * destruct (numerical_gradient_unknown w s0 f0 E) as (_ & Hng & _).
        rewrite Hng in Hl. apply getattr_numerical_gradient_mono. exact (IHa s l f Hl Hf).
    + intros s f Hs. rewrite numerical_gradient_wrappers in Hs.
      apply getattr_numerical_gradient_mono. exact (IHb s f Hs).
  - destruct (blackbox_wrapper_world w s0 f0) as [Hng Hbw]. split.
    + intros s l f Hl Hf. rewrite Hng in Hl.
      apply getattr_blackbox_wrapper_mono. exact (IHa s l f Hl Hf).
    + intros s f Hs. rewrite Hbw in Hs.
      apply lookup_insert_Some in Hs as [[<- [= <-]]|[Hne Hs]].
      * unfold Registry.getattr. rewrite blackbox_wrapper_attrs.
        rewrite getattr_insert_eq. eauto.
      * apply getattr_blackbox_wrapper_mono. exact (IHb s f Hs).
Qed.

(** A wrapper registered under a name that is rejected. *)
Lemma registered_functions_have_attribute_witness :
  is_Some (Registry.getattr
             (Registry.blackbox_wrapper "keras" 1%positive Registry.initial).1
             1%positive "framework").
Proof.
  apply (proj2 (registered_functions_have_attribute
                  (Registry.blackbox_wrapper "keras" 1%positive Registry.initial).1
                  (Registry.reach_blackbox_wrapper "keras" 1%positive Registry.initial
                     Registry.reach_initial)) "keras" 1%positive).
  reflexivity.
Defined.

(** ** [perturb] in probability mode with one step per feature *)

Section proba_per_feature.
Import NP Gradients Spec.

(** A square matrix times a step: column [j] is scaled by the step of
    feature [j]. *)
Lemma mul_matrix_step d (p : nat → nat → Qc) eps :
  step_fits eps d →
  mul (NDArray [d; d] (mjoin (matrix d p))) (as_array eps)
  = Ok (NDArray [d; d] (mjoin (matrix d (fun i j => p i j * step_at eps d j)%Qc))).
Proof.
  destruct eps as [e|v].
  { intros _. unfold mul. cbn [as_array]. rewrite binop_scalar.
    - cbn [shape data step_at]. by rewrite fmap_matrix.
    - unfold wf. cbn [shape data size_of foldr]. rewrite length_mjoin_matrix. lia. }
  cbn [step_fits step_at as_array]. intros Hv.
  unfold mul, binop. cbn [shape data].
  destruct (decide (length v = d)) as [E|E].
  - rewrite E, broadcast_shapes_row. cbn [mbind result_bind mret result_ret].
    rewrite broadcast_data_same
      by (rewrite length_mjoin_matrix; cbn [size_of foldr]; lia).
    rewrite broadcast_data_lead by done.
    rewrite broadcast_data_same by (cbn [size_of foldr]; lia).
    by rewrite (replicate_rows_matrix d v E), zip_with_matrix.
  - destruct Hv as [Hv|Hv]; [done|].
    destruct v as [|e [|? ?]]; try discriminate Hv. cbn [length] in E |- *.
    rewrite broadcast_shapes_one. cbn [mbind result_bind mret result_ret].
    rewrite broadcast_data_same
      by (rewrite length_mjoin_matrix; cbn [size_of foldr]; lia).
    rewrite broadcast_data_lead by done.
    rewrite broadcast_data_one, mjoin_replicate_replicate.
    rewrite zip_with_replicate_r by (rewrite length_mjoin_matrix; lia).
    cbn [lookup list_lookup default]. by rewrite fmap_matrix.
Qed.

Lemma eye_minus_ones d :
  sub (eye d) (ones d d)
  = Ok (NDArray [d; d] (mjoin (matrix d (fun i j => delta i j - 1)%Qc))).
Proof.
  unfold sub. rewrite binop_same; [|done|apply wf_eye|].
  - cbn [eye ones shape data]. by rewrite ones_matrix, zip_with_matrix.
  - unfold wf, ones. cbn [shape data size_of foldr]. rewrite length_replicate. lia.
Qed.

(** [eps / k] keeps the kind of the step and divides every entry. *)
Lemma step_div_fits eps k d :
  k ≠ 0%Z → step_fits eps d →
  ∃ eps_n, step_div eps k = Ok eps_n ∧ step_fits eps_n d ∧
           ∀ j, step_at eps_n d j = (step_at eps d j / of_int k)%Qc.
Proof.
  intros Hk Hfit. destruct eps as [e|v].
  - exists (Scalar (e / of_int k)%Qc). unfold step_div. by rewrite decide_False.
  - exists (PerFeature ((fun x => x / of_int k)%Qc <$> v)).
    split; [|split].
    + unfold step_div. cbn [as_array]. rewrite div_scalar.
      * done.
      * unfold wf. cbn [shape data size_of foldr]. lia.
      * by apply of_int_nonzero.
    + cbn [step_fits] in *. by rewrite length_fmap.
    + intros j. cbn [step_at]. rewrite length_fmap, !list_lookup_fmap.
      destruct (decide (length v = d)).
      * destruct (v !! j); simpl; [done|]. unfold Qcdiv. ring.
      * destruct (v !! 0); simpl; [done|]. unfold Qcdiv. ring.
Qed.

Lemma perturb_step_proba n F (dX : list Qc) eps :
  0 < n → length dX = n * size_of F → step_fits eps (size_of F) → size_of F ≠ 1 →
  perturb (NDArray (n :: F) dX) eps true
  = Ok (NDArray (size_of F * n :: F)
          (mjoin (chunks n (size_of F) dX ≫= fun x =>
                    zip_with Qcplus x <$> matrix (size_of F) (fun i j =>
                      delta i j * step_at eps (size_of F) j
                      + (delta i j - 1)
                        * (step_at eps (size_of F) j / of_int (Z.of_nat (size_of F) - 1)))%Qc)),
        NDArray (size_of F * n :: F)
          (mjoin (chunks n (size_of F) dX ≫= fun x =>
                    zip_with Qcminus x <$> matrix (size_of F) (fun i j =>
                      delta i j * step_at eps (size_of F) j
                      + (delta i j - 1)
                        * (step_at eps (size_of F) j / of_int (Z.of_nat (size_of F) - 1)))%Qc))).
Proof.
  intros Hn HdX Hfit Hd. set (d := size_of F) in *.
  unfold perturb. cbn [shape shape_getitem lookup list_lookup mbind result_bind].
  rewrite reshape_rows by done. fold d.
  cbn [mbind result_bind mret result_ret shape shape_getitem lookup list_lookup].
  rewrite mul_eye_step by done. cbn [mbind result_bind tail].
  destruct (step_div_fits eps (Z.of_nat d - 1) d) as (eps_n & -> & Hfit_n & Hat);
    [lia | done |].
  cbn [mbind result_bind].
  rewrite eye_minus_ones. cbn [mbind result_bind].
  rewrite mul_matrix_step by done. cbn [mbind result_bind].
  unfold iadd, add, tile. cbn [shape data tile_shape tile_data].
  rewrite binop_same; [|done| |].
  - cbn [shape data mbind result_bind]. rewrite decide_True by done.
    cbn [mbind result_bind].
    rewrite zip_with_tiled by (by rewrite !length_mjoin_matrix).
    rewrite zip_with_matrix.
    rewrite (perturb_tail n d F dX); [|done | done | apply Forall_length_matrix | apply length_matrix].
    do 4 f_equal.
    all: apply bind_ext_Forall, Forall_forall; intros x _; f_equal.
    all: unfold matrix; apply list_fmap_ext; intros _ i _; simpl.
    all: apply list_fmap_ext; intros _ j _; simpl; by rewrite Hat.
  - unfold wf. cbn [shape data size_of foldr].
    rewrite (length_mjoin_uniform (d * d)) by (apply Forall_replicate, length_mjoin_matrix).
    rewrite length_replicate. lia.
  - unfold wf. cbn [shape data size_of foldr].
    rewrite (length_mjoin_uniform (d * d)) by (apply Forall_replicate, length_mjoin_matrix).
    rewrite length_replicate. lia.
Qed.

End proba_per_feature.

Section proba_per_feature_rows.
Import NP Gradients Spec.

Lemma shift_each_plus j (st r : nat → Qc) (x : list Qc) :
  zip_with Qcplus x ((fun c => delta j c * st c + (delta j c - 1) * r c)%Qc <$> seq 0 (length x))
  = shift_each j st r x.
Proof.
  rewrite zip_with_entries by done. unfold shift_each. apply imap_ext.
  intros c q _. simpl. unfold delta.
  destruct (decide (j = c)) as [->|Hne].
  - rewrite decide_True by done. ring.
  - rewrite decide_False by done. ring.
Qed.

Lemma shift_each_minus j (st r : nat → Qc) (x : list Qc) :
  zip_with Qcminus x ((fun c => delta j c * st c + (delta j c - 1) * r c)%Qc <$> seq 0 (length x))
  = shift_each j (fun c => - st c)%Qc (fun c => - r c)%Qc x.
Proof.
  rewrite zip_with_entries by done. unfold shift_each. apply imap_ext.
  intros c q _. simpl. unfold delta.
  destruct (decide (j = c)) as [->|Hne].
  - rewrite decide_True by done. ring.
  - rewrite decide_False by done. ring.
Qed.

(** The total of row [j] of the perturbation matrix: the step of feature [j]
    comes in, the corrections of all other features go out. *)
Lemma total_shift_row j (st r : nat → Qc) : ∀ s d,
  total ((fun c => delta j c * st c + (delta j c - 1) * r c)%Qc <$> seq s d)
  = ((if decide (s ≤ j < s + d)%nat then st j + r j else 0) - total (r <$> seq s d))%Qc.
Proof.
  intros s d. revert s. induction d as [|d IH]; intros s.
  - simpl. rewrite decide_False by lia. ring.
  - cbn [seq fmap list_fmap total foldr].
    change (foldr Qcplus 0%Qc ?l) with (total l).
    fold (fmap (M:=list) (fun c => delta j c * st c + (delta j c - 1) * r c)%Qc).
    fold (fmap (M:=list) r).
    rewrite IH. unfold delta.
    destruct (decide (j = s)) as [->|Hne].
    + rewrite decide_False by lia. rewrite decide_True by lia. ring.
    + destruct (decide (S s ≤ j < S s + d)).
      * rewrite decide_True by lia. ring.
      * rewrite decide_False by lia. ring.
Qed.

Lemma total_scaled (a : nat → Qc) (k : Qc) (l : list nat) :
  total ((fun c => a c / k)%Qc <$> l) = (total (a <$> l) / k)%Qc.
Proof.
  induction l as [|c l IH].
  - simpl. unfold Qcdiv. ring.
  - rewrite !fmap_cons. cbn [total foldr].
    change (foldr Qcplus 0%Qc ?l) with (total l). rewrite IH. unfold Qcdiv. ring.
Qed.

End proba_per_feature_rows.

(** X18.  In probability mode with one step per feature (or any step that
    fits), for [N ≥ 1] instances of [D > 1] features, row [i·D + j] of the
    first array returned by [perturb] is instance [i] with feature [j]
    increased by its step and every other feature [c] decreased by
    [eps_c / (D - 1)], its own step over [D - 1]; the second array has the
    opposite signs.  The total of the row differs from the total of the
    instance by [eps_j - (S - eps_j) / (D - 1)], where [S] is the sum of the
    steps: it is kept only when the step of feature [j] is the mean of the
    other steps. *)
Theorem perturb_proba_per_feature (X : NP.ndarray Qc) n F (eps : Gradients.step) :
  NP.shape X = n :: F → NP.wf X → 0 < n → 1 < NP.size_of F →
  Spec.step_fits eps (NP.size_of F) →
  ∃ X_pert_pos X_pert_neg,
    Gradients.perturb X eps true = Ok (X_pert_pos, X_pert_neg) ∧
    ∀ i j x, NP.rows X !! i = Some x → j < NP.size_of F →
      ∃ row_pos row_neg,
        NP.rows X_pert_pos !! (i * NP.size_of F + j) = Some row_pos ∧
        NP.rows X_pert_neg !! (i * NP.size_of F + j) = Some row_neg ∧
        row_pos = Spec.shift_each j (Spec.step_at eps (NP.size_of F))
                    (fun c => Spec.step_at eps (NP.size_of F) c
                              / Spec.of_nat (NP.size_of F - 1))%Qc x ∧
        row_neg = Spec.shift_each j (fun c => - Spec.step_at eps (NP.size_of F) c)%Qc
                    (fun c => - (Spec.step_at eps (NP.size_of F) c
                                 / Spec.of_nat (NP.size_of F - 1)))%Qc x ∧
        Spec.total row_pos
        = (Spec.total x
           + (Spec.step_at eps (NP.size_of F) j
              - (Spec.total (Spec.steps eps (NP.size_of F)) - Spec.step_at eps (NP.size_of F) j)
                / Spec.of_nat (NP.size_of F - 1)))%Qc ∧
        Spec.total row_neg
        = (Spec.total x
           - (Spec.step_at eps (NP.size_of F) j
              - (Spec.total (Spec.steps eps (NP.size_of F)) - Spec.step_at eps (NP.size_of F) j)
                / Spec.of_nat (NP.size_of F - 1)))%Qc.
Proof.
  destruct X as [sh dX]. unfold NP.wf. cbn [NP.shape NP.data]. intros -> HdX Hn Hd Hfit.
  change (NP.size_of (n :: F)) with (n * NP.size_of F) in HdX.
  set (d := NP.size_of F) in *.
  pose proof (Forall_length_chunks n d dX HdX) as Hxs.
  pose proof (length_chunks n d dX) as Hlen.
  eexists _, _. split; [apply perturb_step_proba; [done | done | done | fold d; lia]|].
  fold d. intros i j x Hx Hj.
  unfold NP.rows in Hx. cbn [NP.shape NP.data] in Hx. fold d in Hx.
  assert (length x = d) as Hlx by (by eapply (Forall_lookup_1 _ _ _ _ Hxs)).
  rewrite !rows_mjoin;
    try (apply Forall_length_perturbed; [done | apply Forall_length_matrix]);
    try (rewrite length_perturbed, Hlen, length_matrix; lia).
  rewrite !(lookup_perturbed _ _ d _ i j x Hx Hj).
  rewrite of_int_pred by lia.
  assert (Spec.of_nat (d - 1) ≠ 0%Qc) as Hk.
  { unfold Spec.of_nat. apply of_int_nonzero. lia. }
  eexists _, _. split; [done|]. split; [done|].
  clearbody d. subst d.
  set (d := length x) in *.
  split; [|split; [|split]].
  - apply (shift_each_plus j (Spec.step_at eps d)
             (fun c => Spec.step_at eps d c / Spec.of_nat (d - 1))%Qc).
  - apply (shift_each_minus j (Spec.step_at eps d)
             (fun c => Spec.step_at eps d c / Spec.of_nat (d - 1))%Qc).
  - rewrite total_zip_plus by (by rewrite length_fmap, length_seq).
    rewrite (total_shift_row j (Spec.step_at eps d)
               (fun c => Spec.step_at eps d c / Spec.of_nat (d - 1))%Qc 0 d).
    rewrite decide_True by lia.
    rewrite (total_scaled (Spec.step_at eps d)). fold (Spec.steps eps d).
    field. done.
  - rewrite total_zip_minus by (by rewrite length_fmap, length_seq).
    rewrite (total_shift_row j (Spec.step_at eps d)
               (fun c => Spec.step_at eps d c / Spec.of_nat (d - 1))%Qc 0 d).
    rewrite decide_True by lia.
    rewrite (total_scaled (Spec.step_at eps d)). fold (Spec.steps eps d).
    field. done.
Qed.

(** The steps 1 and 3 on a batch of two instances with two features. *)
Lemma perturb_proba_per_feature_witness :
  ∃ X_pert_pos X_pert_neg,
    Gradients.perturb Examples.batch (Gradients.PerFeature (Gradients.of_int <$> [1; 3]%Z)) true
      = Ok (X_pert_pos, X_pert_neg) ∧
    ∀ i j x, NP.rows Examples.batch !! i = Some x → j < 2 →
      ∃ row_pos row_neg,
        NP.rows X_pert_pos !! (i * 2 + j) = Some row_pos ∧
        NP.rows X_pert_neg !! (i * 2 + j) = Some row_neg ∧
        row_pos = Spec.shift_each j
                    (Spec.step_at (Gradients.PerFeature (Gradients.of_int <$> [1; 3]%Z)) 2)
                    (fun c => Spec.step_at
                                (Gradients.PerFeature (Gradients.of_int <$> [1; 3]%Z)) 2 c
                              / Spec.of_nat 1)%Qc x ∧
        row_neg = Spec.shift_each j
                    (fun c => - Spec.step_at
                                  (Gradients.PerFeature (Gradients.of_int <$> [1; 3]%Z)) 2 c)%Qc
                    (fun c => - (Spec.step_at
                                   (Gradients.PerFeature (Gradients.of_int <$> [1; 3]%Z)) 2 c
                                 / Spec.of_nat 1))%Qc x ∧
        Spec.total row_pos
        = (Spec.total x
           + (Spec.step_at (Gradients.PerFeature (Gradients.of_int <$> [1; 3]%Z)) 2 j
              - (Spec.total (Spec.steps (Gradients.PerFeature (Gradients.of_int <$> [1; 3]%Z)) 2)
                 - Spec.step_at (Gradients.PerFeature (Gradients.of_int <$> [1; 3]%Z)) 2 j)
                / Spec.of_nat 1))%Qc ∧
        Spec.total row_neg
        = (Spec.total x
           - (Spec.step_at (Gradients.PerFeature (Gradients.of_int <$> [1; 3]%Z)) 2 j
              - (Spec.total (Spec.steps (Gradients.PerFeature (Gradients.of_int <$> [1; 3]%Z)) 2)
                 - Spec.step_at (Gradients.PerFeature (Gradients.of_int <$> [1; 3]%Z)) 2 j)
                / Spec.of_nat 1))%Qc.
Proof.
  apply (perturb_proba_per_feature Examples.batch 2 [2]
           (Gradients.PerFeature (Gradients.of_int <$> [1; 3]%Z))).
  - reflexivity.
  - reflexivity.
  - lia.
  - simpl. lia.
  - left. reflexivity.
Defined.

(** ** [num_grad_batch] with one step per feature *)

Section per_feature_steps.
Import NP Gradients Spec.

Lemma broadcast_shapes_features n d : broadcast_shapes [n; 1; d] [d] = Ok [n; 1; d].
Proof.
  unfold broadcast_shapes. cbn [reverse rev_append broadcast_shapes_rev mbind result_bind].
  by rewrite decide_True.
Qed.

Lemma broadcast_data_features {A} n d (w : list A) :
  length w = d → broadcast_data [d] [n; 1; d] w = mjoin (replicate n w).
Proof.
  intros Hw. rewrite broadcast_data_lead by (simpl; lia).
  rewrite broadcast_data_lead by (simpl; lia).
  rewrite broadcast_data_same by (cbn [size_of foldr]; lia).
  cbn [replicate mjoin list_join]. by rewrite app_nil_r.
Qed.

(** The division of the numerator by [2 * eps] when [eps] has one entry per
    feature: every block of [d] differences is divided entry by entry. *)
Lemma div_per_feature n d (num w : list Qc) :
  length num = n * d → length w = d → Forall (fun e => e ≠ 0%Qc) w →
  div (NDArray [n; 1; d] num) (NDArray [d] w)
  = Ok (NDArray [n; 1; d] (zip_with Qcdiv num (mjoin (replicate n w)))).
Proof.
  intros Hnum Hw Hnz. unfold div. cbn [shape data].
  rewrite broadcast_shapes_features. cbn [mbind result_bind].
  rewrite broadcast_data_features by done.
  rewrite broadcast_data_same by (cbn [size_of foldr]; lia).
  rewrite decide_False; [done|].
  rewrite Exists_exists. intros (q & Hq & ->).
  apply list_elem_of_join in Hq as (r & Hq & Hr).
  apply elem_of_replicate in Hr as [-> _].
  by apply (proj1 (Forall_forall _ _) Hnz 0%Qc).
Qed.

Lemma length_bind_fmap {A B C} (g : A → B → C) (xs : list A) (M : list B) :
  length (xs ≫= fun x => g x <$> M) = length xs * length M.
Proof.
  induction xs as [|x xs IH]; [done|].
  cbn [mbind list_bind length]. rewrite length_app, length_fmap, IH. lia.
Qed.

Lemma zip_with_bind_replicate {A B C D} (h : B → C → D) (g : A → list B)
    (xs : list A) (w : list C) :
  Forall (fun x => length (g x) = length w) xs →
  zip_with h (xs ≫= g) (mjoin (replicate (length xs) w)) = xs ≫= fun x => zip_with h (g x) w.
Proof.
  induction 1 as [|x xs Hx _ IH]; [done|].
  cbn [mbind list_bind length replicate mjoin list_join].
  rewrite zip_with_app by done. f_equal. apply IH.
Qed.

(** The central differences of [f] at [x] with the step [v_j] for feature
    [j]. *)
Lemma central_difference_steps (f : list Qc → Qc) (x v : list Qc) :
  length v = length x →
  zip_with Qcdiv
    ((fun m => f (zip_with Qcplus x m) - f (zip_with Qcminus x m))%Qc
       <$> matrix (length x) (fun i j => delta i j * step_at (PerFeature v) (length x) j)%Qc)
    ((fun e => 2 * e)%Qc <$> v)
  = imap (fun j e => (f (bump j e x) - f (bump j (- e) x)) / (2 * e))%Qc v.
Proof.
  intros Hv. apply list_eq. intros j.
  rewrite lookup_zip_with, !list_lookup_fmap, list_lookup_imap.
  destruct (v !! j) as [e|] eqn:He; simpl.
  - assert (j < length x) as Hj by (apply lookup_lt_Some in He; lia).
    rewrite lookup_matrix by done. simpl. f_equal.
    rewrite (bump_plus j (step_at (PerFeature v) (length x))).
    rewrite (bump_minus j (step_at (PerFeature v) (length x))).
    cbn [step_at]. rewrite decide_True by done. by rewrite He.
  - by destruct (matrix _ _ !! j).
Qed.

End per_feature_steps.

(** X19.  With one nonzero step per feature, for a function that is
    applied to every instance on its own and returns one number per instance
    and a batch of shape [(N, *F)] with [N ≥ 1], [num_grad_batch] returns the
    array of shape [(N, 1, *F)] whose entry for instance [x] and feature [j]
    is the central difference with the step of that feature,
    [(f(x + eps_j·e_j) - f(x - eps_j·e_j)) / (2·eps_j)]. *)
Theorem num_grad_batch_per_feature {Args} (func : Gradients.blackbox Args)
    (args : Args) (f : list Qc → Qc) (X : NP.ndarray Qc) n F (v : list Qc) :
  NP.shape X = n :: F → NP.wf X → 0 < n →
  length v = NP.size_of F → Forall (fun e => e ≠ 0%Qc) v →
  (∀ Y m, NP.shape Y = m :: F → NP.wf Y →
     ∃ out, func Y args = Ok out ∧ NP.wf out ∧ NP.data out = f <$> NP.rows Y) →
  Gradients.num_grad_batch func X args (Gradients.PerFeature v)
  = Ok (NP.NDArray (n :: 1 :: F)
          (NP.rows X ≫= fun x =>
             imap (fun j e => (f (Spec.bump j e x) - f (Spec.bump j (- e) x)) / (2 * e))%Qc v)).
Proof.
  destruct X as [sh dX]. unfold NP.wf at 1. cbn [NP.shape NP.data].
  intros -> HdX Hn Hv Hnz Hfunc.
  change (NP.size_of (n :: F)) with (n * NP.size_of F) in HdX.
  set (d := NP.size_of F) in *.
  pose proof (Forall_length_chunks n d dX HdX) as Hxs.
  pose proof (length_chunks n d dX) as Hlen.
  unfold NP.rows at 1. cbn [NP.shape NP.data]. fold d.
  set (xs := NP.chunks n d dX) in *.
  set (eps := Gradients.PerFeature v).
  assert (Spec.step_fits eps d) as Hfit by (by left).
  set (M := NP.matrix d (fun i j => NP.delta i j * Spec.step_at eps d j)%Qc).
  set (Lpos := xs ≫= fun x => zip_with Qcplus x <$> M).
  set (Lneg := xs ≫= fun x => zip_with Qcminus x <$> M).
  assert (length Lpos = d * n ∧ length Lneg = d * n) as [Hlp Hln].
  { unfold Lpos, Lneg, M. rewrite !length_perturbed, Hlen, length_matrix. lia. }
  assert (Forall (fun r => length r = d) Lpos ∧ Forall (fun r => length r = d) Lneg)
    as [Hfp Hfn].
  { split; (apply Forall_length_perturbed; [done | apply Forall_length_matrix]). }
  destruct (Hfunc (NP.NDArray (n :: F) dX) n) as (out0 & Hf0 & Hw0 & Hd0);
    [done | done |].
  destruct (Hfunc (NP.NDArray (d * n + d * n :: F) (mjoin Lpos ++ mjoin Lneg)) (d * n + d * n))
    as (out1 & Hf1 & Hw1 & Hd1); [done | |].
  { unfold NP.wf. cbn [NP.shape NP.data NP.size_of foldr]. fold (NP.size_of F). fold d.
    rewrite length_app, !(length_mjoin_uniform d) by done. lia. }
  assert (NP.rows (NP.NDArray (d * n + d * n :: F) (mjoin Lpos ++ mjoin Lneg)) = Lpos ++ Lneg)
    as Hrows.
  { rewrite <- join_app. apply rows_mjoin.
    - rewrite length_app. lia.
    - by apply Forall_app. }
  rewrite Hrows, fmap_app in Hd1.
  assert (NP.size_of (NP.shape out0) = n) as Hs0.
  { unfold NP.wf in Hw0. rewrite <- Hw0, Hd0. unfold NP.rows. cbn [NP.shape NP.data].
    by rewrite length_fmap. }
  assert (length (NP.data out1) = d * n + d * n) as Hl1
    by (rewrite Hd1, length_app, !length_fmap; lia).
  unfold Gradients.num_grad_batch.
  cbn [NP.shape NP.shape_getitem lookup list_lookup mbind result_bind].
  destruct n as [|n']; [lia|]. cbn [NP.first_shape NP.shape mbind result_bind].
  rewrite Hf0. cbn [mbind result_bind].
  rewrite reshape_column, Hs0. cbn [mbind result_bind].
  rewrite perturb_step by done. fold d. fold xs. fold M. fold Lpos. fold Lneg.
  cbn [mbind result_bind fst snd].
  rewrite concatenate_perturbed. cbn [mbind result_bind].
  rewrite Hf1. cbn [mbind result_bind].
  rewrite reshape_column.
  cbn [mbind result_bind NP.shape NP.shape_getitem lookup list_lookup].
  unfold NP.wf in Hw1. rewrite <- Hw1, Hl1.
  unfold NP.slice_to, NP.slice_from. cbn [NP.shape NP.data mbind result_bind NP.size_of foldr].
  rewrite Nat.min_l, Nat.mul_1_r by lia.
  replace (d * S n' + d * S n' - d * S n') with (d * S n') by lia.
  unfold NP.sub. rewrite binop_same; [|done| |].
  2:{ unfold NP.wf. cbn [NP.shape NP.data NP.size_of foldr]. rewrite length_take. lia. }
  2:{ unfold NP.wf. cbn [NP.shape NP.data NP.size_of foldr]. rewrite length_drop. lia. }
  cbn [NP.shape NP.data mbind result_bind].
  rewrite Hd1, take_app_length', drop_app_length' by (by rewrite length_fmap).
  unfold Lpos at 1, Lneg at 1. rewrite zip_with_perturbed.
  set (num := xs ≫= _).
  assert (length num = S n' * d) as Hnum.
  { unfold num. rewrite length_bind_fmap, Hlen. unfold M. rewrite length_matrix. lia. }
  rewrite (reshape_to_rows _ (S n') d) by (cbn [NP.shape NP.size_of foldr]; lia).
  cbn [mbind result_bind NP.data].
  rewrite reshape_F_single_class by (done || lia). cbn [mbind result_bind].
  unfold eps at 1. cbn [Gradients.step_double Gradients.as_array].
  rewrite length_fmap, Hv.
  rewrite div_per_feature; [|done | by rewrite length_fmap |].
  2:{ apply Forall_fmap. eapply Forall_impl; [apply Hnz|]. simpl.
      intros e He. by apply double_nonzero. }
  cbn [mbind result_bind NP.shape NP.data app].
  rewrite reshape_exact by (cbn [NP.shape NP.size_of foldr]; fold (NP.size_of F); fold d; lia).
  cbn [NP.data]. f_equal. f_equal.
  unfold num. rewrite <- Hlen at 1. rewrite zip_with_bind_replicate.
  - apply bind_ext_Forall. eapply Forall_impl; [apply Hxs|]. simpl. intros x Hx.
    unfold M. rewrite <- Hx. apply central_difference_steps. lia.
  - eapply Forall_impl; [apply Hxs|]. simpl. intros x Hx.
    unfold M. by rewrite !length_fmap, length_matrix.
Qed.

(** The sum of squares with the steps 1 and 3 on two instances. *)
Lemma num_grad_batch_per_feature_witness :
  Gradients.num_grad_batch (Examples.pointwise (fun x => Spec.dot x x))
    Examples.batch tt (Gradients.PerFeature (Gradients.of_int <$> [1; 3]%Z))
  = Ok (NP.NDArray [2; 1; 2]
          (NP.rows Examples.batch ≫= fun x =>
             imap (fun j e => (Spec.dot (Spec.bump j e x) (Spec.bump j e x)
                               - Spec.dot (Spec.bump j (- e) x) (Spec.bump j (- e) x))
                              / (2 * e))%Qc
                  (Gradients.of_int <$> [1; 3]%Z))).
Proof.
  apply (num_grad_batch_per_feature (Examples.pointwise (fun x => Spec.dot x x)) tt
           (fun x => Spec.dot x x) Examples.batch 2 [2] (Gradients.of_int <$> [1; 3]%Z)).
  - reflexivity.
  - reflexivity.
  - lia.
  - reflexivity.
  - repeat constructor; intros E; apply (f_equal this) in E; vm_compute in E; discriminate E.
  - intros Y m. apply pointwise_spec.
Defined.

(** ** The steps [perturb] accepts *)

Section step_must_fit.
Import NP Gradients Spec.

Lemma broadcast_shapes_misfit d l :
  l ≠ d → l ≠ 1 → d ≠ 1 → broadcast_shapes [d; d] [l] = Raise ValueError.
Proof.
  intros H1 H2 H3. unfold broadcast_shapes.
  cbn [reverse rev_append broadcast_shapes_rev mbind result_bind].
  by rewrite !decide_False by done.
Qed.

Lemma broadcast_shapes_single l : l ≠ 1 → broadcast_shapes [1; 1] [l] = Ok [1; l].
Proof.
  intros H1. unfold broadcast_shapes.
  cbn [reverse rev_append broadcast_shapes_rev mbind result_bind].
  rewrite decide_False by done. by rewrite decide_True.
Qed.

Lemma broadcast_shapes_widen a l : l ≠ 1 → broadcast_shapes [a; 1] [a; l] = Ok [a; l].
Proof.
  intros H1. unfold broadcast_shapes.
  cbn [reverse rev_append broadcast_shapes_rev mbind result_bind].
  rewrite decide_True by done. cbn [mbind result_bind].
  rewrite decide_False by done. by rewrite decide_True.
Qed.

Lemma reshape_mismatch {A} (a : ndarray A) sh :
  size_of sh ≠ size_of (shape a) → reshape a (Dim <$> sh) = Raise ValueError.
Proof. intros E. unfold reshape. by rewrite infer_shape_mismatch. Qed.

Lemma perturb_misfit n F (dX v : list Qc) :
  0 < n → length v ≠ size_of F → length v ≠ 1 →
  perturb (NDArray (n :: F) dX) (PerFeature v) false = Raise ValueError.
Proof.
  intros Hn Hd H1. set (d := size_of F) in *.
  unfold perturb. cbn [shape shape_getitem lookup list_lookup mbind result_bind].
  rewrite reshape_rows by done. fold d.
  cbn [mbind result_bind mret result_ret shape shape_getitem lookup list_lookup].
  unfold mul. rewrite binop_shape. cbn [eye as_array shape data].
  destruct (decide (d = 1)) as [E|E].
  - rewrite E, broadcast_shapes_single by done. cbn [mbind result_bind].
    unfold repeat, tile. cbn [shape data tile_shape mbind result_bind].
    unfold add, sub. rewrite !binop_shape. cbn [shape data].
    rewrite broadcast_shapes_widen by done. cbn [mbind result_bind tail].
    assert (size_of (1 * n :: F) ≠ size_of [n * 1; length v]) as Hs.
    { cbn [size_of foldr]. fold (size_of F). fold d. rewrite E. nia. }
    by rewrite !reshape_mismatch by (cbn [shape]; exact Hs).
  - by rewrite broadcast_shapes_misfit.
Qed.

End step_must_fit.

(** X20.  Without the probability correction, [perturb] on a batch of
    [N ≥ 1] instances with [D] features returns exactly for the steps that
    fit: a scalar, an array with [D] entries or an array with one entry.  An
    array of any other length is rejected with [ValueError]. *)
Theorem perturb_accepts_fitting_steps (X : NP.ndarray Qc) n F (eps : Gradients.step) :
  NP.shape X = n :: F → NP.wf X → 0 < n →
  (is_Ok (Gradients.perturb X eps false) ↔ Spec.step_fits eps (NP.size_of F)) ∧
  (¬ Spec.step_fits eps (NP.size_of F) → Gradients.perturb X eps false = Raise ValueError).
Proof.
  destruct X as [sh dX]. unfold NP.wf. cbn [NP.shape NP.data]. intros -> HdX Hn.
  change (NP.size_of (n :: F)) with (n * NP.size_of F) in HdX.
  assert (¬ Spec.step_fits eps (NP.size_of F) →
          Gradients.perturb (NP.NDArray (n :: F) dX) eps false = Raise ValueError) as Hmis.
  { destruct eps as [e|v]; [by intros []|]. cbn [Spec.step_fits]. intros Hv.
    apply perturb_misfit; [done | tauto | tauto]. }
  split; [|done]. split.
  - intros Hok.
    assert (Decision (Spec.step_fits eps (NP.size_of F))) as [|Hn']; [|done|].
    { destruct eps; cbn [Spec.step_fits]; apply _. }
    rewrite (Hmis Hn') in Hok. destruct Hok.
  - intros Hfit. by rewrite perturb_step.
Qed.

(** Three steps for a batch with two features. *)
Lemma perturb_accepts_fitting_steps_witness :
  (is_Ok (Gradients.perturb Examples.batch
            (Gradients.PerFeature (Gradients.of_int <$> [1; 2; 3]%Z)) false)
   ↔ Spec.step_fits (Gradients.PerFeature (Gradients.of_int <$> [1; 2; 3]%Z)) 2) ∧
  (¬ Spec.step_fits (Gradients.PerFeature (Gradients.of_int <$> [1; 2; 3]%Z)) 2 →
   Gradients.perturb Examples.batch
     (Gradients.PerFeature (Gradients.of_int <$> [1; 2; 3]%Z)) false = Raise ValueError).
Proof.
  apply (perturb_accepts_fitting_steps Examples.batch 2 [2]
           (Gradients.PerFeature (Gradients.of_int <$> [1; 2; 3]%Z))).
  - reflexivity.
  - reflexivity.
  - lia.
Defined.

(** ** The shapes [perturb] returns *)

Section perturb_shapes.
Import NP Gradients.

Lemma result_bind_Ok_inv {A B} (m : result A) (k : A → result B) r :
  m ≫= k = Ok r → ∃ a, m = Ok a ∧ k a = Ok r.
Proof. destruct m as [a|e]; [eauto | intros [=]]. Qed.

Lemma reshape_Ok_shape {A} (a b : ndarray A) sh :
  reshape a (Dim <$> sh) = Ok b → shape b = sh.
Proof.
  unfold reshape, infer_shape. rewrite known_dims_Dim, length_fmap, Nat.sub_diag.
  case_decide; [|intros [=]]. by intros [= <-].
Qed.

End perturb_shapes.

(** X21.  Whenever [perturb] returns, for every step and in both modes,
    the two arrays have the shape [(D·N, *F)] for a batch of shape [(N, *F)]
    with [D] features per instance. *)
Theorem perturb_returns_shapes (X : NP.ndarray Qc) n F eps proba X_pert_pos X_pert_neg :
  NP.shape X = n :: F →
  Gradients.perturb X eps proba = Ok (X_pert_pos, X_pert_neg) →
  0 < n ∧
  NP.shape X_pert_pos = NP.size_of F * n :: F ∧
  NP.shape X_pert_neg = NP.size_of F * n :: F.
Proof.
  destruct X as [sh dX]. cbn [NP.shape]. intros -> H.
  destruct n as [|n'].
  { assert (Gradients.perturb (NP.NDArray (0 :: F) dX) eps proba = Raise ValueError) as E
      by reflexivity.
    by rewrite E in H. }
  split; [lia|].
  unfold Gradients.perturb in H.
  cbn [NP.shape NP.shape_getitem lookup list_lookup mbind result_bind] in H.
  rewrite reshape_rows in H by lia.
  cbn [mbind result_bind NP.shape NP.shape_getitem lookup list_lookup tail] in H.
  do 5 (apply result_bind_Ok_inv in H as (? & _ & H)).
  apply result_bind_Ok_inv in H as (pos & Hpos & H).
  apply result_bind_Ok_inv in H as (neg & Hneg & H).
  injection H as <- <-.
  by rewrite (reshape_Ok_shape _ _ _ Hpos), (reshape_Ok_shape _ _ _ Hneg).
Qed.

Lemma perturb_returns_shapes_witness :
  ∃ X_pert_pos X_pert_neg,
    Gradients.perturb Examples.batch (Gradients.PerFeature [Examples.tenth]) true
      = Ok (X_pert_pos, X_pert_neg) ∧
    0 < 2 ∧ NP.shape X_pert_pos = [4; 2] ∧ NP.shape X_pert_neg = [4; 2].
Proof.
  assert (∃ r, Gradients.perturb Examples.batch (Gradients.PerFeature [Examples.tenth]) true
               = Ok r) as [[pos neg] E].
  { vm_compute. eexists. reflexivity. }
  exists pos, neg. split; [exact E|].
  exact (perturb_returns_shapes Examples.batch 2 [2] _ true pos neg eq_refl E).
Defined.
